(** * The puzzle worker of sudoku-ts: generator and solver

    The worker script of [src/app.ts] (the [workerScript] template of
    [initializeWorker]) holds the whole algorithmic core of the game:
    [shuffle], [isValid], [solve], [hasUniqueSolution] and
    [generatePuzzle].  This file embeds these five functions and proves
    the properties their specification states.

    Conventions of the embedding.
    - A board is the nested array of the source, [list (list nat)];
      [board[r][c]] is [get board r c] and [board[r][c] = v] is
      [set board r c v].  The worker only ever indexes inside the 9x9
      square of a board with nine rows of nine cells ([wf]); lemmas that
      depend on an assignment being visible carry [wf] and the index
      bounds as hypotheses.
    - [Math.random] is an oracle: a random source is any function
      [nat → nat] together with the number of draws made so far;
      [Math.floor(Math.random() * n)] is the next value of the source
      reduced into [0, n).
    - Mutation is state passing: a function that mutates its argument
      returns the argument's new contents next to its result.  Where
      several references to one array matter ([hasUniqueSolution] and
      its copy), module [Store] keeps the arrays in a store and is shown
      to refine the value version.
    - Recursion that the source bounds only by the state of the board
      ([solve], [find]) takes a fuel argument; [None] means that the fuel
      ran out, and the totality lemmas show that the fuel the worker's
      entry points use (82, one more than the number of cells) never
      does. *)

From stdpp Require Import base list strings gmap.
From Stdlib Require Import ZifyNat Lia DecimalString.

(** ** The random source *)

Record Rng := mkRng { source : nat → nat; calls : nat }.

(** [Math.floor(Math.random() * bound)] *)
Definition randomIndex (bound : nat) (g : Rng) : nat * Rng :=
  (source g (calls g) mod bound, mkRng (source g) (S (calls g))).

(** ** shuffle *)

(** [[array[i], array[j]] = [array[j], array[i]]] *)
Definition swap {A} (array : list A) (i j : nat) : list A :=
  match array !! i, array !! j with
  | Some x, Some y => <[j := x]> (<[i := y]> array)
  | _, _ => array
  end.

(** [for (let i = ...; i > 0; i--) { const j = ...; swap }] *)
Fixpoint shuffleFrom {A} (i : nat) (array : list A) (g : Rng) : list A * Rng :=
  match i with
  | 0 => (array, g)
  | S i' =>
      let (j, g') := randomIndex (i + 1) g in
      shuffleFrom i' (swap array i j) g'
  end.

Definition shuffle {A} (array : list A) (g : Rng) : list A * Rng :=
  shuffleFrom (length array - 1) array g.

(** ** Boards *)

Abbreviation Board := (list (list nat)).
Abbreviation Cell := (nat * nat)%type.

Definition get (board : Board) (r c : nat) : nat := (board !!! r) !!! c.

Definition set (board : Board) (r c v : nat) : Board :=
  <[r := <[c := v]> (board !!! r)]> board.

(** [Array(9).fill().map(() => Array(9).fill(0))] *)
Definition emptyGrid : Board := replicate 9 (replicate 9 0).

(** [JSON.parse(JSON.stringify(board))]: a structurally equal board that
    shares nothing with its argument.  As a value it is the argument; the
    sharing it removes is the subject of module [Store] below. *)
Definition jsonCopy (board : Board) : Board := board.

(** ** isValid *)

Definition isValid (board : Board) (row col num : nat) : bool :=
  if existsb (fun i => (get board row i =? num) || (get board i col =? num))
             (seq 0 9)
  then false
  else
    let startRow := row / 3 * 3 in
    let startCol := col / 3 * 3 in
    if existsb (fun i =>
          existsb (fun j => get board (startRow + i) (startCol + j) =? num)
                  (seq 0 3))
        (seq 0 3)
    then false
    else true.

(** ** solve *)

(** The cells in the order of [for (r...) for (c...)]. *)
Definition rowMajor : list Cell :=
  flat_map (fun r => map (fun c => (r, c)) (seq 0 9)) (seq 0 9).

(** The first cell, in that order, with [board[r][c] === 0]. *)
Definition firstEmpty (board : Board) : option Cell :=
  List.find (fun '(r, c) => get board r c =? 0) rowMajor.

(** [for (const num of nums) if (isValid(...)) { place; if (solve(board))
    return true; clear } return false], with [rec] the recursive call. *)
Fixpoint tryNums (rec : Board → Rng → option (bool * Board * Rng))
    (r c : nat) (nums : list nat) (board : Board) (g : Rng)
    : option (bool * Board * Rng) :=
  match nums with
  | [] => Some (false, board, g)
  | num :: rest =>
      if isValid board r c num then
        match rec (set board r c num) g with
        | None => None
        | Some (true, board', g') => Some (true, board', g')
        | Some (false, board', g') => tryNums rec r c rest (set board' r c 0) g'
        end
      else tryNums rec r c rest board g
  end.

Fixpoint solveF (fuel : nat) (board : Board) (g : Rng)
    : option (bool * Board * Rng) :=
  match fuel with
  | 0 => None
  | S fuel' =>
      match firstEmpty board with
      | None => Some (true, board, g)
      | Some (r, c) =>
          let (nums, g') := shuffle [1; 2; 3; 4; 5; 6; 7; 8; 9] g in
          tryNums (solveF fuel') r c nums board g'
      end
  end.

Definition solve (board : Board) (g : Rng) : option (bool * Board * Rng) :=
  solveF 82 board g.

(** ** hasUniqueSolution *)

(** [for (let i = 0; i < 81; i++) if (b[Math.floor(i/9)][i%9] === 0) ...] *)
Definition firstEmptyIndex (b : Board) : option nat :=
  List.find (fun i => get b (i / 9) (i mod 9) =? 0) (seq 0 81).

(** [for (let num = 1; num <= 9 && solutionCount <= 1; num++)
      if (isValid(b, r, c, num)) { b[r][c] = num; find(b); }],
    with [rec] the recursive call; [nums] is what is left of 1..9. *)
Fixpoint countLoop (rec : Board → nat → option (Board * nat))
    (r c : nat) (nums : list nat) (b : Board) (solutionCount : nat)
    : option (Board * nat) :=
  match nums with
  | [] => Some (b, solutionCount)
  | num :: rest =>
      if solutionCount <=? 1 then
        if isValid b r c num then
          match rec (set b r c num) solutionCount with
          | None => None
          | Some (b', n') => countLoop rec r c rest b' n'
          end
        else countLoop rec r c rest b solutionCount
      else Some (b, solutionCount)
  end.

(** The inner function [find] of [hasUniqueSolution]; the captured
    variable [solutionCount] is threaded next to the board. *)
Fixpoint find (fuel : nat) (b : Board) (solutionCount : nat)
    : option (Board * nat) :=
  match fuel with
  | 0 => None
  | S fuel' =>
      match firstEmptyIndex b with
      | None => Some (b, S solutionCount)
      | Some i =>
          let r := i / 9 in
          let c := i mod 9 in
          match countLoop (find fuel') r c (seq 1 9) b solutionCount with
          | None => None
          | Some (b', n') => Some (set b' r c 0, n')
          end
      end
  end.

Definition hasUniqueSolution (board : Board) : option bool :=
  let boardCopy := jsonCopy board in
  match find 82 boardCopy 0 with
  | None => None
  | Some (_, solutionCount) => Some (solutionCount =? 1)
  end.

(** ** generatePuzzle *)

(** [type Difficulty = "easy" | "medium" | "hard" | "expert" | "master"],
    the values the host passes, and the strings they are. *)
Inductive Difficulty := easy | medium | hard | expert | master.

Definition difficultyName (d : Difficulty) : string :=
  match d with
  | easy => "easy"
  | medium => "medium"
  | hard => "hard"
  | expert => "expert"
  | master => "master"
  end.

(** The values [cellsToRemove] can hold: a number, [NaN], an object
    (functions included) or [undefined]. *)
Inductive Value :=
  | VNumber (n : nat)
  | VNaN
  | VObject
  | VUndefined.

Definition difficultyMap : gmap string nat :=
  <["easy" := 38]> (<["medium" := 46]> (<["hard" := 53]>
    (<["expert" := 59]> (<["master" := 64]> ∅)))).

(** [difficultyMap] is an object literal, so a property access on it
    that finds no own property goes on to [Object.prototype].  These are
    the property names of [Object.prototype]; their values are functions
    or, for [__proto__], the prototype object itself. *)
Definition objectPrototypeKeys : list string :=
  [ "constructor"; "hasOwnProperty"; "isPrototypeOf"; "propertyIsEnumerable";
    "toLocaleString"; "toString"; "valueOf"; "__proto__";
    "__defineGetter__"; "__defineSetter__"; "__lookupGetter__";
    "__lookupSetter__" ].

(** [difficultyMap[diff]]: the own property, else the inherited one,
    else [undefined]. *)
Definition lookupDifficulty (diff : string) : Value :=
  match difficultyMap !! diff with
  | Some n => VNumber n
  | None =>
      if bool_decide (diff ∈ objectPrototypeKeys) then VObject else VUndefined
  end.

Definition truthy (v : Value) : bool :=
  match v with
  | VNumber n => negb (n =? 0)
  | VObject => true
  | VNaN | VUndefined => false
  end.

(** [v || w] *)
Definition orElse (v w : Value) : Value := if truthy v then v else w.

(** [v > 0]: an object or [undefined] converts to [NaN], and every
    comparison with [NaN] is false. *)
Definition gtZero (v : Value) : bool :=
  match v with
  | VNumber n => 0 <? n
  | _ => false
  end.

(** [v--] *)
Definition decrement (v : Value) : Value :=
  match v with
  | VNumber n => VNumber (n - 1)
  | _ => VNaN
  end.

(** [cells.pop()]: the last element and the array without it. *)
Definition pop {A} (l : list A) : option (A * list A) :=
  match rev l with
  | [] => None
  | x :: r => Some (x, rev r)
  end.

(** The variables of the removal loop.  [checks] is a ghost variable: the
    cells on which [hasUniqueSolution] was called, in order. *)
Record LoopState := mkLoop {
  grid : Board;
  cells : list Cell;
  cellsToRemove : Value;
  checks : list Cell
}.

(** [while (cells.length > 0 && cellsToRemove > 0) { ... }]; [fuel]
    bounds the number of iterations, and [None] means that it did not
    suffice. *)
Fixpoint removeCells (fuel : nat) (st : LoopState) : option LoopState :=
  if (0 <? length (cells st)) && gtZero (cellsToRemove st) then
    match fuel with
    | 0 => None
    | S fuel' =>
        match pop (cells st) with
        | None => None
        | Some ((r, c), cells') =>
            let temp := get (grid st) r c in
            let grid1 := set (grid st) r c 0 in
            match hasUniqueSolution grid1 with
            | None => None
            | Some false =>
                removeCells fuel'
                  (mkLoop (set grid1 r c temp) cells' (cellsToRemove st)
                          (checks st ++ [(r, c)]))
            | Some true =>
                removeCells fuel'
                  (mkLoop grid1 cells' (decrement (cellsToRemove st))
                          (checks st ++ [(r, c)]))
            end
        end
    end
  else Some st.

(** What [generatePuzzle] returns, with the final state of its loop. *)
Record Generated := mkGenerated {
  puzzle : Board;
  solution : Board;
  final : LoopState
}.

(** [Array.from({ length: 81 }, (_, i) => ({ r: Math.floor(i / 9), c: i % 9 }))] *)
Definition allCells : list Cell := map (fun i => (i / 9, i mod 9)) (seq 0 81).

(** The loop is given 81 iterations: it pops one of the 81 cells in each
    (see [removeCells_total]). *)
Definition generatePuzzle (diff : string) (g : Rng) : option (Generated * Rng) :=
  let grid0 := emptyGrid in
  match solve grid0 g with
  | None => None
  | Some (_, grid1, g1) =>
      let solution := jsonCopy grid1 in
      let cellsToRemove := orElse (lookupDifficulty diff) (VNumber 46) in
      let (cells, g2) := shuffle allCells g1 in
      match removeCells 81 (mkLoop grid1 cells cellsToRemove []) with
      | None => None
      | Some st => Some (mkGenerated (grid st) solution st, g2)
      end
  end.

(** ** The uniqueness check on a store

    The functions above pass boards as values.  In the worker a board is
    a reference to an array of references to row arrays, [find] writes
    through the reference it is given, and [hasUniqueSolution] hands it a
    copy made by [JSON.parse(JSON.stringify(board))].  Module [Store]
    models this sharing: the row arrays live in a store, indexed by
    address, and a board is the array of the addresses of its rows (the
    worker never assigns to an outer array, so that one is kept as a
    value).  [jsonCopy] is the deep copy: fresh rows at the end of the
    store. *)

Module Store.

Abbreviation Heap := (list (list nat)).
Abbreviation Ref := (list nat).

(** [board[r][c]] *)
Definition get (h : Heap) (board : Ref) (r c : nat) : nat :=
  (h !!! (board !!! r)) !!! c.

(** [board[r][c] = v] *)
Definition set (h : Heap) (board : Ref) (r c v : nat) : Heap :=
  <[board !!! r := <[c := v]> (h !!! (board !!! r))]> h.

(** The board a reference denotes in a store. *)
Definition read (h : Heap) (board : Ref) : list (list nat) :=
  (fun a => h !!! a) <$> board.

Definition isValid (h : Heap) (board : Ref) (row col num : nat) : bool :=
  if existsb (fun i => (get h board row i =? num) || (get h board i col =? num))
             (seq 0 9)
  then false
  else
    let startRow := row / 3 * 3 in
    let startCol := col / 3 * 3 in
    if existsb (fun i =>
          existsb (fun j => get h board (startRow + i) (startCol + j) =? num)
                  (seq 0 3))
        (seq 0 3)
    then false
    else true.

Definition firstEmptyIndex (h : Heap) (b : Ref) : option nat :=
  List.find (fun i => get h b (i / 9) (i mod 9) =? 0) (seq 0 81).

Fixpoint countLoop (rec : Heap → nat → option (Heap * nat)) (b : Ref)
    (r c : nat) (nums : list nat) (h : Heap) (solutionCount : nat)
    : option (Heap * nat) :=
  match nums with
  | [] => Some (h, solutionCount)
  | num :: rest =>
      if solutionCount <=? 1 then
        if isValid h b r c num then
          match rec (set h b r c num) solutionCount with
          | None => None
          | Some (h', n') => countLoop rec b r c rest h' n'
          end
        else countLoop rec b r c rest h solutionCount
      else Some (h, solutionCount)
  end.

(** [find(b)]: every level works on the same reference [b]. *)
Fixpoint find (fuel : nat) (b : Ref) (h : Heap) (solutionCount : nat)
    : option (Heap * nat) :=
  match fuel with
  | 0 => None
  | S fuel' =>
      match firstEmptyIndex h b with
      | None => Some (h, S solutionCount)
      | Some i =>
          let r := i / 9 in
          let c := i mod 9 in
          match countLoop (find fuel' b) b r c (seq 1 9) h solutionCount with
          | None => None
          | Some (h', n') => Some (set h' b r c 0, n')
          end
      end
  end.

(** [JSON.parse(JSON.stringify(board))]: new row arrays with the contents
    of the old ones, and the reference to them. *)
Definition jsonCopy (h : Heap) (board : Ref) : Heap * Ref :=
  (h ++ read h board, seq (length h) (length board)).

(** The result, and the store after the call. *)
Definition hasUniqueSolution (h : Heap) (board : Ref) : option (bool * Heap) :=
  let (h1, boardCopy) := jsonCopy h board in
  match find 82 boardCopy h1 0 with
  | None => None
  | Some (h2, solutionCount) => Some (solutionCount =? 1, h2)
  end.

(** A reference to nine distinct rows that exist in the store. *)
Definition valid (h : Heap) (board : Ref) : Prop :=
  length board = 9 ∧ NoDup board ∧ ∀ a, a ∈ board → a < length h.

End Store.

(** ** Specification vocabulary *)

(** Nine rows of nine cells. *)
Definition wf (b : Board) : Prop :=
  length b = 9 ∧ Forall (fun row => length row = 9) b.

(** The cells a placement at [(r, c)] is checked against: row [r],
    column [c] and the box of [(r, c)]. *)
Definition sees (r c r' c' : nat) : Prop :=
  r' = r ∨ c' = c ∨ (r' / 3 = r / 3 ∧ c' / 3 = c / 3).

Definition rowCells (b : Board) (r : nat) : list nat :=
  map (fun c => get b r c) (seq 0 9).

Definition colCells (b : Board) (c : nat) : list nat :=
  map (fun r => get b r c) (seq 0 9).

(** Box [k] (boxes numbered row-major, 0..8), its cells row-major. *)
Definition boxCells (b : Board) (k : nat) : list nat :=
  map (fun i => get b (k / 3 * 3 + i / 3) (k mod 3 * 3 + i mod 3)) (seq 0 9).

(** A unit contains each digit 1-9 exactly once. *)
Definition exactlyOnce (l : list nat) : Prop :=
  ∀ d, 1 ≤ d ≤ 9 → count_occ Nat.eq_dec l d = 1.

(** Complete and valid: every row, column and box contains each digit
    exactly once. *)
Definition validComplete (b : Board) : Prop :=
  ∀ k, k < 9 →
    exactlyOnce (rowCells b k) ∧ exactlyOnce (colCells b k) ∧
    exactlyOnce (boxCells b k).

(** Every filled cell of [p] has the same value in [s]. *)
Definition extends (p s : Board) : Prop :=
  ∀ r c, r < 9 → c < 9 → get p r c ≠ 0 → get p r c = get s r c.

(** [s] is a valid complete Sudoku completion of [p]. *)
Definition completes (p s : Board) : Prop :=
  wf s ∧ validComplete s ∧ extends p s.

(** No filled cell has its value repeated in a cell it sees. *)
Definition consistent (b : Board) : Prop :=
  ∀ r c r' c', r < 9 → c < 9 → r' < 9 → c' < 9 →
    (r, c) ≠ (r', c') → sees r c r' c' →
    get b r c ≠ 0 → get b r c ≠ get b r' c'.

Definition digits (b : Board) : Prop :=
  ∀ r c, r < 9 → c < 9 → get b r c ≤ 9.

(** What the searches keep true of a board under construction. *)
Definition partial (b : Board) : Prop := wf b ∧ consistent b ∧ digits b.

Definition full (b : Board) : Prop :=
  ∀ r c, r < 9 → c < 9 → get b r c ≠ 0.

(** The number of cells holding 0. *)
Definition emptyCount (b : Board) : nat :=
  length (List.filter (fun '(r, c) => get b r c =? 0) rowMajor).

(** [num] is in no cell of row [row], column [col] or the box of
    [(row, col)]. *)
Definition nowhere (b : Board) (row col num : nat) : Prop :=
  (∀ i, i < 9 → get b row i ≠ num) ∧
  (∀ i, i < 9 → get b i col ≠ num) ∧
  (∀ r c, r < 9 → c < 9 → r / 3 = row / 3 → c / 3 = col / 3 →
     get b r c ≠ num).

(** The same with the cell [(row, col)] itself left out. *)
Definition nowhereElse (b : Board) (row col num : nat) : Prop :=
  (∀ i, i < 9 → i ≠ col → get b row i ≠ num) ∧
  (∀ i, i < 9 → i ≠ row → get b i col ≠ num) ∧
  (∀ r c, r < 9 → c < 9 → r / 3 = row / 3 → c / 3 = col / 3 →
     (r, c) ≠ (row, col) → get b r c ≠ num).

(** What the proofs about one level of [solve] assume of the recursive
    call [rec]: a failed call gives the board back as it got it, a
    successful call ends on a full board that extends its argument, a
    call fails only on a board without completion, and a call returns. *)
Definition rec_restores (rec : Board → Rng → option (bool * Board * Rng)) : Prop :=
  ∀ b g b' g', rec b g = Some (false, b', g') → b' = b.

Definition rec_sound (rec : Board → Rng → option (bool * Board * Rng)) : Prop :=
  ∀ b g b' g', partial b → rec b g = Some (true, b', g') →
    partial b' ∧ full b' ∧ extends b b'.

Definition rec_complete (rec : Board → Rng → option (bool * Board * Rng)) : Prop :=
  ∀ b g b' g' s, wf b → rec b g = Some (false, b', g') → ¬ completes b s.

Definition rec_total (rec : Board → Rng → option (bool * Board * Rng))
    (n : nat) : Prop :=
  ∀ b g, wf b → emptyCount b < n → is_Some (rec b g).

(** The same for one level of [find]: the call gives the board back, the
    count only grows, it grows by the number of completions unless the
    cutoff 2 is reached, and the call returns. *)
Definition count_restores (rec : Board → nat → option (Board * nat)) : Prop :=
  ∀ b n b' n', rec b n = Some (b', n') → b' = b.

Definition count_grows (rec : Board → nat → option (Board * nat)) : Prop :=
  ∀ b n b' n', rec b n = Some (b', n') → n ≤ n'.

Definition count_reaches (rec : Board → nat → option (Board * nat)) : Prop :=
  ∀ b n b' n' L, wf b → rec b n = Some (b', n') →
    NoDup L → Forall (completes b) L → Nat.min 2 (n + length L) ≤ n'.

Definition count_total (rec : Board → nat → option (Board * nat))
    (k : nat) : Prop :=
  ∀ b n, wf b → emptyCount b < k → is_Some (rec b n).

(** A call on the board [b] left every array that is not a row of [b]
    as it was. *)
Definition untouched (b : Store.Ref) (h h' : Store.Heap) : Prop :=
  length h' = length h ∧ ∀ a, a ∉ b → h' !! a = h !! a.

(** A run on the store and a run on values end alike. *)
Definition agrees (b : Store.Ref) (h : Store.Heap)
    (onStore : option (Store.Heap * nat)) (onValues : option (Board * nat))
    : Prop :=
  match onStore, onValues with
  | Some (h', n'), Some (b', m') =>
      Store.read h' b = b' ∧ n' = m' ∧ length h' = length h
  | None, None => True
  | _, _ => False
  end.

(** A store for examples: the rows of a solved board with cell (2, 3)
    cleared, and the board that refers to them. *)
Definition exampleHeap : Store.Heap :=
  [ [1; 2; 3; 4; 5; 6; 7; 8; 9];
    [4; 5; 6; 7; 8; 9; 1; 2; 3];
    [7; 8; 9; 0; 2; 3; 4; 5; 6];
    [2; 3; 4; 5; 6; 7; 8; 9; 1];
    [5; 6; 7; 8; 9; 1; 2; 3; 4];
    [8; 9; 1; 2; 3; 4; 5; 6; 7];
    [3; 4; 5; 6; 7; 8; 9; 1; 2];
    [6; 7; 8; 9; 1; 2; 3; 4; 5];
    [9; 1; 2; 3; 4; 5; 6; 7; 8] ].

Definition exampleRef : Store.Ref := [0; 1; 2; 3; 4; 5; 6; 7; 8].

(** A complete valid board: the rows are shifts of 1..9 by 3, 6, 1, 4,
    7, 2, 5 and 8. *)
Definition knownSolution : Board :=
  map (fun r => map (fun c => (r mod 3 * 3 + r / 3 + c) mod 9 + 1) (seq 0 9))
      (seq 0 9).

(** A board without completion, for examples: row 0 lacks 1 and 2, and
    columns 0 and 1 both hold a 1 already. *)
Definition stuckBoard : Board :=
  [ [0; 0; 3; 4; 5; 6; 7; 8; 9];
    [0; 0; 0; 0; 0; 0; 0; 0; 0];
    [0; 0; 0; 0; 0; 0; 0; 0; 0];
    [0; 0; 0; 0; 0; 0; 0; 0; 0];
    [0; 1; 0; 0; 0; 0; 0; 0; 0];
    [0; 0; 0; 0; 0; 0; 0; 0; 0];
    [0; 0; 0; 0; 0; 0; 0; 0; 0];
    [1; 0; 0; 0; 0; 0; 0; 0; 0];
    [0; 0; 0; 0; 0; 0; 0; 0; 0] ].

(** A random source for examples. *)
Definition countingRng : Rng := mkRng (fun n => n) 0.

(** What the removal loop keeps true: [s] is the solution and [cells0]
    the shuffled list of cells the loop starts from. *)
Record loopInv (s : Board) (cells0 : list Cell) (st : LoopState) : Prop := {
  inv_wf : wf (grid st);
  inv_sub : extends (grid st) s;
  inv_unique : hasUniqueSolution (grid st) = Some true;
  inv_cells : cells0 = cells st ++ rev (checks st)
}.

(** The removals still allowed and the cells already empty stay within
    the target [K]. *)
Definition withinBudget (K : nat) (st : LoopState) : Prop :=
  ∃ k, cellsToRemove st = VNumber k ∧ emptyCount (grid st) + k ≤ K.

(** * The host: one game on a generated puzzle

    The class [SudokuGame] of [src/app.ts] keeps the state of a game in
    its fields and changes it in its event handlers.  Module [Game]
    embeds the fields that carry the game and the handlers as functions
    from the state before to the state after.  Left out are the effects
    that do not feed back into these fields: rendering, focus, modal
    dialogs, announcements and the scheduling of timers (the callbacks of
    the timers are functions of their own).  [JSON.stringify] followed by
    [JSON.parse] on arrays of numbers gives the arrays back, so a JSON
    string is kept as what it parses to.  A [Set] of numbers is the list
    of its elements in insertion order. *)

Module Game.

(** ** Sets of pencil marks *)

Abbreviation NumSet := (list nat).

(** [s.has(n)], [s.add(n)], [s.delete(n)] and [new Set(array)];
    [s.clear()] leaves [[]] and [[...s]] is [s]. *)
Definition setHas (s : NumSet) (n : nat) : bool := bool_decide (n ∈ s).

Definition setAdd (s : NumSet) (n : nat) : NumSet :=
  if setHas s n then s else s ++ [n].

Definition setDelete (s : NumSet) (n : nat) : NumSet :=
  filter (λ x, x ≠ n) s.

Definition setOfArray (l : list nat) : NumSet := foldl setAdd [] l.

Abbreviation Notes := (list (list NumSet)).

(** [notes[r][c]] and the notes after a change of the set [notes[r][c]]. *)
Definition notesAt (notes : Notes) (r c : nat) : NumSet :=
  (notes !!! r) !!! c.

Definition setNotesAt (notes : Notes) (r c : nat) (s : NumSet) : Notes :=
  <[r := <[c := s]> (notes !!! r)]> notes.

(** [Array(9).fill(null).map(() => Array(9).fill(null).map(() => new Set()))] *)
Definition emptyNotes : Notes := replicate 9 (replicate 9 []).

(** [parsedNotes.map((row) => row.map((cell) => new Set(cell)))] *)
Definition notesOfArrays (arrays : list (list (list nat))) : Notes :=
  map (map setOfArray) arrays.

(** ** The state *)

(** [interface HistoryState]; [h_notes] is the JSON string, kept as the
    arrays it parses to. *)
Record HistoryState := mkHistory {
  h_grid : Board;
  h_notes : list (list (list nat));
  h_hintsUsed : nat
}.

Record State := mkState {
  grid : Board;
  initialGrid : Board;
  solution : Board;
  notes : Notes;
  history : list HistoryState;
  difficulty : string;
  hintsUsed : nat;
  elapsedTime : nat;
  isGameWon : bool;
  isLoading : bool;
  isNotesMode : bool;
  errorCells : list Cell;
  selectedCell : option Cell
}.

(** Assignments to one field. *)
Definition setGrid (st : State) (v : Board) : State :=
  mkState v (initialGrid st) (solution st) (notes st) (history st)
    (difficulty st) (hintsUsed st) (elapsedTime st) (isGameWon st)
    (isLoading st) (isNotesMode st) (errorCells st) (selectedCell st).

Definition setNotes (st : State) (v : Notes) : State :=
  mkState (grid st) (initialGrid st) (solution st) v (history st)
    (difficulty st) (hintsUsed st) (elapsedTime st) (isGameWon st)
    (isLoading st) (isNotesMode st) (errorCells st) (selectedCell st).

Definition setHistory (st : State) (v : list HistoryState) : State :=
  mkState (grid st) (initialGrid st) (solution st) (notes st) v
    (difficulty st) (hintsUsed st) (elapsedTime st) (isGameWon st)
    (isLoading st) (isNotesMode st) (errorCells st) (selectedCell st).

Definition setHintsUsed (st : State) (v : nat) : State :=
  mkState (grid st) (initialGrid st) (solution st) (notes st) (history st)
    (difficulty st) v (elapsedTime st) (isGameWon st)
    (isLoading st) (isNotesMode st) (errorCells st) (selectedCell st).

Definition setElapsedTime (st : State) (v : nat) : State :=
  mkState (grid st) (initialGrid st) (solution st) (notes st) (history st)
    (difficulty st) (hintsUsed st) v (isGameWon st)
    (isLoading st) (isNotesMode st) (errorCells st) (selectedCell st).

Definition setGameWon (st : State) (v : bool) : State :=
  mkState (grid st) (initialGrid st) (solution st) (notes st) (history st)
    (difficulty st) (hintsUsed st) (elapsedTime st) v
    (isLoading st) (isNotesMode st) (errorCells st) (selectedCell st).

Definition setNotesMode (st : State) (v : bool) : State :=
  mkState (grid st) (initialGrid st) (solution st) (notes st) (history st)
    (difficulty st) (hintsUsed st) (elapsedTime st) (isGameWon st)
    (isLoading st) v (errorCells st) (selectedCell st).

Definition setErrorCells (st : State) (v : list Cell) : State :=
  mkState (grid st) (initialGrid st) (solution st) (notes st) (history st)
    (difficulty st) (hintsUsed st) (elapsedTime st) (isGameWon st)
    (isLoading st) (isNotesMode st) v (selectedCell st).

Definition setSelectedCell (st : State) (v : option Cell) : State :=
  mkState (grid st) (initialGrid st) (solution st) (notes st) (history st)
    (difficulty st) (hintsUsed st) (elapsedTime st) (isGameWon st)
    (isLoading st) (isNotesMode st) (errorCells st) v.

(** [board[r]?.[c]]: [None] is [undefined]. *)
Definition lookupCell (board : Board) (r c : nat) : option nat :=
  match board !! r with
  | Some row => row !! c
  | None => None
  end.

(** ** handleWorkerMessage *)

Definition handleWorkerMessage (puzzle solution : Board) (st : State) : State :=
  mkState puzzle (jsonCopy puzzle) solution emptyNotes [] (difficulty st)
    0 0 false false (isNotesMode st) (errorCells st) None.

(** A new game: the worker answers the command ['generate'] with the pair
    of [generatePuzzle], and [handleWorkerMessage] installs it. *)
Definition newGame (diff : string) (g : Rng) (st : State) : option State :=
  match generatePuzzle diff g with
  | Some (mkGenerated puzzle solution _, _) =>
      Some (handleWorkerMessage puzzle solution st)
  | None => None
  end.

(** ** pushToHistory, checkForWin *)

Definition pushToHistory (st : State) : State :=
  setHistory st
    (history st ++ [mkHistory (jsonCopy (grid st)) (notes st) (hintsUsed st)]).

(** [grid.every((row, r) => row.every((cell, c) =>
      cell === solution[r][c] && cell !== 0))] *)
Definition isSolved (grid solution : Board) : bool :=
  forallb (fun '(r, row) =>
      forallb (fun '(c, cell) => (cell =? get solution r c) && negb (cell =? 0))
              (imap pair row))
    (imap pair grid).

Definition checkForWin (st : State) : State :=
  if isSolved (grid st) (solution st)
  then setSelectedCell (setGameWon st true) None
  else st.

(** ** selectCell, handleCellClick *)

Definition selectCell (row col : nat) (st : State) : State :=
  if isGameWon st then st else setSelectedCell st (Some (row, col)).

(** [row] and [col] are the data attributes of the cell clicked. *)
Definition handleCellClick (row col : nat) (st : State) : State :=
  if bool_decide (lookupCell (initialGrid st) row col = Some 0)
  then selectCell row col st
  else st.

(** ** inputNumber *)

Definition inputNumber (num : nat) (st : State) : State :=
  match selectedCell st with
  | None => st
  | Some (row, col) =>
      if isGameWon st
         || negb (bool_decide (lookupCell (initialGrid st) row col = Some 0))
      then st
      else
        let st1 := pushToHistory st in
        if isNotesMode st1 then
          let st2 :=
            if negb (get (grid st1) row col =? 0)
            then setGrid st1 (set (grid st1) row col 0)
            else st1 in
          let cell := notesAt (notes st2) row col in
          if num =? 0 then setNotes st2 (setNotesAt (notes st2) row col [])
          else
            setNotes st2
              (setNotesAt (notes st2) row col
                 (if setHas cell num then setDelete cell num
                  else setAdd cell num))
        else
          let st2 := setNotes st1 (setNotesAt (notes st1) row col []) in
          let st3 :=
            setGrid st2 (set (grid st2) row col (if num =? 0 then 0 else num)) in
          checkForWin st3
  end.

(** ** toggleNotesMode, undo *)

Definition toggleNotesMode (st : State) : State :=
  setNotesMode st (negb (isNotesMode st)).

Definition undo (st : State) : State :=
  if (length (history st) =? 0) || isGameWon st then st
  else
    match pop (history st) with
    | None => st
    | Some (lastState, rest) =>
        setHintsUsed
          (setNotes (setGrid (setHistory st rest) (h_grid lastState))
                    (notesOfArrays (h_notes lastState)))
          (h_hintsUsed lastState)
    end.

(** ** handleGridKeyDown *)

Inductive Arrow := ArrowUp | ArrowDown | ArrowLeft | ArrowRight.

(** [keyMap] *)
Definition keyMap (a : Arrow) : Z * Z :=
  match a with
  | ArrowUp => (-1, 0)
  | ArrowDown => (1, 0)
  | ArrowLeft => (0, -1)
  | ArrowRight => (0, 1)
  end%Z.

(** [(x + d + 9) % 9] *)
Definition wrap (x : nat) (d : Z) : nat :=
  Z.to_nat (Z.rem (Z.of_nat x + d + 9) 9).

(** [while (initialGrid[newRow][newCol] !== 0) { step;
      if (newRow === row && newCol === col) break; }]; [fuel] bounds the
    number of iterations. *)
Fixpoint skipGivens (fuel : nat) (initialGrid : Board) (row col : nat)
    (dr dc : Z) (newRow newCol : nat) : option Cell :=
  if negb (get initialGrid newRow newCol =? 0) then
    match fuel with
    | 0 => None
    | S fuel' =>
        let newRow' := wrap newRow dr in
        let newCol' := wrap newCol dc in
        if (newRow' =? row) && (newCol' =? col) then Some (newRow', newCol')
        else skipGivens fuel' initialGrid row col dr dc newRow' newCol'
    end
  else Some (newRow, newCol).

(** The keys the handler tells apart; [KeyDigit n] is one of "1".."9". *)
Inductive KeyPress :=
  | KeyArrow (a : Arrow)
  | KeyDigit (n : nat)
  | KeyErase
  | KeyN
  | KeyUndo
  | KeyOther.

(** The line of cells the skipping runs through has nine cells, hence the
    bound 9 (see [skipGivens_total]). *)
Definition handleGridKeyDown (k : KeyPress) (st : State) : option State :=
  match selectedCell st with
  | None => Some st
  | Some (row, col) =>
      if isGameWon st then Some st
      else
        match k with
        | KeyArrow a =>
            let (dr, dc) := keyMap a in
            match skipGivens 9 (initialGrid st) row col dr dc
                    (wrap row dr) (wrap col dc) with
            | Some (newRow, newCol) => Some (selectCell newRow newCol st)
            | None => None
            end
        | KeyDigit n => Some (inputNumber n st)
        | KeyErase => Some (inputNumber 0 st)
        | KeyN => Some (toggleNotesMode st)
        | KeyUndo => Some (undo st)
        | KeyOther => Some st
        end
  end.

(** ** checkSolution *)

(** Which dialog [checkSolution] opens, if any. *)
Inductive Verdict := ErrorsFound | GridIncomplete | NoDialog.

Definition checkSolution (st : State) : Verdict * State :=
  let errors :=
    List.filter (fun '(r, c) =>
        let val := get (grid st) r c in
        negb (val =? 0) && negb (val =? get (solution st) r c))
      rowMajor in
  let isFull := forallb (fun '(r, c) => negb (get (grid st) r c =? 0)) rowMajor in
  let hasErrors := negb (length errors =? 0) in
  let st1 := setErrorCells st errors in
  if hasErrors then (ErrorsFound, st1)
  else if negb isFull then (GridIncomplete, st1)
  else (NoDialog, checkForWin st1).

(** The callback of [setTimeout(..., 2000)]. *)
Definition clearErrors (st : State) : State := setErrorCells st [].

(** ** getHint, solvePuzzle *)

Definition getHint (st : State) (g : Rng) : State * Rng :=
  if isGameWon st || (3 <=? hintsUsed st) then (st, g)
  else
    let emptyCells :=
      List.filter (fun '(r, c) => get (grid st) r c =? 0) rowMajor in
    if 0 <? length emptyCells then
      let st1 := pushToHistory st in
      let (i, g') := randomIndex (length emptyCells) g in
      let '(row, col) := emptyCells !!! i in
      let st2 :=
        setGrid st1 (set (grid st1) row col (get (solution st1) row col)) in
      let st3 := setNotes st2 (setNotesAt (notes st2) row col []) in
      let st4 := setHintsUsed st3 (S (hintsUsed st3)) in
      (checkForWin st4, g')
    else (st, g).

Definition solvePuzzle (st : State) : State :=
  let st1 := pushToHistory st in
  setGameWon
    (setNotes (setGrid st1 (jsonCopy (solution st1)))
              (map (map (fun _ => [])) (notes st1)))
    true.

(** ** The timer *)

(** The callback of [setInterval(..., 1000)]. *)
Definition tick (st : State) : State :=
  if negb (isGameWon st) then setElapsedTime st (S (elapsedTime st)) else st.

(** [String(n)] for a natural number. *)
Definition decimal (n : nat) : string := NilEmpty.string_of_uint (Nat.to_uint n).

(** [s.padStart(2, "0")] *)
Definition padStart2 (s : string) : string :=
  String.concat "" (replicate (2 - String.length s) "0") +:+ s.

Definition getFormattedTime (elapsedTime : nat) : string :=
  let minutes := elapsedTime / 60 in
  let seconds := elapsedTime mod 60 in
  padStart2 (decimal minutes) +:+ ":" +:+ padStart2 (decimal seconds).

(** ** updateNumberCounts *)

(** [m[cell]++] *)
Definition increment (m : gmap nat Value) (cell : nat) : gmap nat Value :=
  <[cell := match m !! cell with
            | Some (VNumber n) => VNumber (S n)
            | _ => VNaN
            end]> m.

Definition updateNumberCounts (grid : Board) : gmap nat Value :=
  foldl (fun m cell => if 0 <? cell then increment m cell else m)
        (list_to_map ((fun d => (d, VNumber 0)) <$> seq 1 9))
        (concat grid).

(** ** saveState, loadState *)

(** What [localStorage] holds under [STORAGE_KEY], parsed: a field that
    [loadState] tests is [None] when it is absent (or falsy). *)
Record Saved := mkSaved {
  s_grid : option Board;
  s_initialGrid : option Board;
  s_solution : option Board;
  s_notes : list (list (list nat));
  s_history : option (list HistoryState);
  s_difficulty : string;
  s_hintsUsed : nat;
  s_elapsedTime : nat
}.

(** The item after the call, the store accepting the write. *)
Definition saveState (st : State) (item : option Saved) : option Saved :=
  if isGameWon st || isLoading st then item
  else
    Some (mkSaved (Some (grid st)) (Some (initialGrid st)) (Some (solution st))
            (notes st) (Some (history st)) (difficulty st) (hintsUsed st)
            (elapsedTime st)).

(** The result, the state and the item after the call. *)
Definition loadState (item : option Saved) (st : State)
    : bool * State * option Saved :=
  match item with
  | None => (false, st, None)
  | Some state =>
      match s_grid state, s_initialGrid state, s_solution state with
      | Some g, Some i, Some s =>
          (true,
           mkState g i s (notesOfArrays (s_notes state))
             (default [] (s_history state)) (s_difficulty state)
             (s_hintsUsed state) (s_elapsedTime state) false (isLoading st)
             (isNotesMode st) (errorCells st) (selectedCell st),
           item)
      | _, _, _ => (false, st, None)
      end
  end.

(** ** Sequences of events *)

Inductive Action :=
  | Click (row col : nat)
  | Press (k : KeyPress)
  | Numpad (num : nat)
  | NotesToggle
  | UndoButton
  | Validate
  | ErrorsTimeout
  | HintButton
  | SolveConfirmed
  | TimerTick.

Definition act (a : Action) (st : State) (g : Rng) : option (State * Rng) :=
  match a with
  | Click row col => Some (handleCellClick row col st, g)
  | Press k =>
      match handleGridKeyDown k st with
      | Some st' => Some (st', g)
      | None => None
      end
  | Numpad num => Some (inputNumber num st, g)
  | NotesToggle => Some (toggleNotesMode st, g)
  | UndoButton => Some (undo st, g)
  | Validate => Some ((checkSolution st).2, g)
  | ErrorsTimeout => Some (clearErrors st, g)
  | HintButton => Some (getHint st g)
  | SolveConfirmed => Some (solvePuzzle st, g)
  | TimerTick => Some (tick st, g)
  end.

Fixpoint run (actions : list Action) (st : State) (g : Rng)
    : option (State * Rng) :=
  match actions with
  | [] => Some (st, g)
  | a :: rest =>
      match act a st g with
      | Some (st', g') => run rest st' g'
      | None => None
      end
  end.

(** ** What a game keeps true *)

(** The given cells of [puzzle] hold in [grid] what they hold in
    [puzzle]. *)
Definition givensKept (puzzle grid : Board) : Prop :=
  ∀ r c, r < 9 → c < 9 → get puzzle r c ≠ 0 → get grid r c = get puzzle r c.

Definition notesDistinct (notes : Notes) : Prop := Forall (Forall NoDup) notes.

(** The invariant of a game on the pair ([puzzle], [solution]). *)
Record ok (puzzle solution : Board) (st : State) : Prop := {
  ok_initialGrid : initialGrid st = puzzle;
  ok_solution : Game.solution st = solution;
  ok_grid : wf (grid st);
  ok_givens : givensKept puzzle (grid st);
  ok_notes : notesDistinct (notes st);
  ok_history :
    Forall (fun h => wf (h_grid h) ∧ givensKept puzzle (h_grid h) ∧
                     notesDistinct (h_notes h) ∧ h_hintsUsed h ≤ 3)
           (history st);
  ok_hints : hintsUsed st ≤ 3;
  ok_won : isGameWon st = true → isSolved (grid st) solution = true;
  ok_selected :
    ∀ r c, selectedCell st = Some (r, c) →
      r < 9 ∧ c < 9 ∧ get puzzle r c = 0
}.

(** A game that is not marked as won does not show the solution, and
    neither does a grid it can go back to. *)
Definition undecided (st : State) : Prop :=
  isGameWon st = false →
  isSolved (grid st) (Game.solution st) = false ∧
  Forall (fun h => isSolved (h_grid h) (Game.solution st) = false) (history st).

(** Pencil marks are kept only for cells that hold no digit. *)
Definition marksOnlyOnEmpty (grid : Board) (notes : Notes) : Prop :=
  ∀ r c, r < 9 → c < 9 → get grid r c ≠ 0 → notesAt notes r c = [].

(** ... in the grid and in every grid the game can go back to. *)
Definition tidy (st : State) : Prop :=
  marksOnlyOnEmpty (grid st) (notes st) ∧
  Forall (fun h => marksOnlyOnEmpty (h_grid h) (h_notes h)) (history st).

(** A state for examples: nothing loaded yet. *)
Definition blank : State :=
  mkState [] [] [] [] [] "medium" 0 0 false true false [] None.

(** The cell [k] steps from [(row, col)] in the direction of the arrow
    [a], the lines of the grid closed to rings. *)
Definition along (x : nat) (d : Z) (k : nat) : nat :=
  Z.to_nat ((Z.of_nat x + Z.of_nat k * d) mod 9).

Definition cellAlong (a : Arrow) (row col k : nat) : Cell :=
  (along row (keyMap a).1 k, along col (keyMap a).2 k).

(** The character of the decimal digit [k]. *)
Definition digitChar (k : nat) : Ascii.ascii := Ascii.ascii_of_nat (48 + k).

(** A game for examples: the known solution with the cells (4, 2) and
    (4, 7) emptied, and (4, 7) selected. *)
Definition examplePuzzle : Board := set (set knownSolution 4 7 0) 4 2 0.

Definition exampleGame : State :=
  setSelectedCell (handleWorkerMessage examplePuzzle knownSolution blank)
    (Some (4, 7)).

End Game.

(** The completions [find] has counted are there: the count grew by the
    length of a list of distinct completions of the board. *)
Definition count_found (rec : Board → nat → option (Board * nat)) : Prop :=
  ∀ b n b' n', partial b → rec b n = Some (b', n') →
    ∃ L, NoDup L ∧ Forall (completes b) L ∧ n' = n + length L.

(** The cells still in the list are filled, and the cells emptied so far
    are exactly the removals that were kept out of the target [K]. *)
Definition exactBudget (K : nat) (st : LoopState) : Prop :=
  wf (grid st) ∧ NoDup (cells st) ∧
  (∀ r c, (r, c) ∈ cells st → r < 9 ∧ c < 9 ∧ get (grid st) r c ≠ 0) ∧
  ∃ k, cellsToRemove st = VNumber k ∧ emptyCount (grid st) + k = K.

(** * Proofs *)

(** [lia] with division and remainder by a constant. *)
Ltac Zify.zify_post_hook ::= Z.to_euclidean_division_equations.

(** ** Arrays: lookup and assignment *)

Lemma set_out_of_range b r c v : length b ≤ r → set b r c v = b.
Proof. intros Hr. unfold set. by apply list_insert_ge. Qed.

Lemma set_wf b r c v : wf b → wf (set b r c v).
Proof.
  intros Hwf. destruct (decide (r < length b)) as [Hr|Hr].
  - destruct Hwf as [Hlen Hrows]. split; unfold set.
    + by rewrite length_insert.
    + apply Forall_insert; [done|]. rewrite length_insert.
      by apply (Forall_lookup_total_1 _ _ _ Hrows).
  - rewrite set_out_of_range by lia. done.
Qed.

Lemma wf_row b r : wf b → r < 9 → length (b !!! r) = 9.
Proof.
  intros [Hlen Hrows] Hr.
  apply (Forall_lookup_total_1 _ _ _ Hrows). lia.
Qed.

Lemma get_set_eq b r c v : wf b → r < 9 → c < 9 → get (set b r c v) r c = v.
Proof.
  intros Hwf Hr Hc. unfold get, set.
  rewrite list_lookup_total_insert_eq by (destruct Hwf; lia).
  apply list_lookup_total_insert_eq. rewrite wf_row; done.
Qed.

Lemma get_set_ne b r c v r' c' :
  (r, c) ≠ (r', c') → get (set b r c v) r' c' = get b r' c'.
Proof.
  intros Hne. unfold get, set.
  destruct (decide (r = r')) as [->|Hr].
  - destruct (decide (r' < length b)) as [Hlt|Hge].
    + rewrite list_lookup_total_insert_eq by done.
      apply list_lookup_total_insert_ne. congruence.
    + rewrite list_insert_ge by lia. done.
  - by rewrite list_lookup_total_insert_ne.
Qed.

Lemma set_set b r c v w : set (set b r c v) r c w = set b r c w.
Proof.
  destruct (decide (r < length b)) as [Hr|Hr].
  - unfold set. rewrite list_lookup_total_insert_eq by done.
    by rewrite !list_insert_insert_eq.
  - by rewrite !(set_out_of_range b) by lia.
Qed.

Lemma set_get b r c : set b r c (get b r c) = b.
Proof.
  destruct (decide (r < length b)) as [Hr|Hr].
  - unfold set, get. apply list_insert_id.
    rewrite list_lookup_lookup_total_lt by done. f_equal. symmetry.
    destruct (decide (c < length (b !!! r))) as [Hc|Hc].
    + apply list_insert_id. by apply list_lookup_lookup_total_lt.
    + apply list_insert_ge. lia.
  - apply set_out_of_range. lia.
Qed.

(** Clearing, then putting the remembered value back. *)
Lemma set_restore b r c v : set (set b r c v) r c (get b r c) = b.
Proof. by rewrite set_set, set_get. Qed.

Lemma set_empty_id b r c : get b r c = 0 → set b r c 0 = b.
Proof. intros <-. apply set_get. Qed.

Lemma set_clear_empty b r c v : get b r c = 0 → set (set b r c v) r c 0 = b.
Proof. intros <-. apply set_restore. Qed.

(** Two boards of the right shape with the same cells are equal. *)
Lemma board_ext b1 b2 :
  wf b1 → wf b2 →
  (∀ r c, r < 9 → c < 9 → get b1 r c = get b2 r c) → b1 = b2.
Proof.
  intros Hwf1 Hwf2 Hget.
  apply (list_eq_same_length _ _ 9); [by destruct Hwf2|by destruct Hwf1|].
  intros r row1 row2 Hr H1 H2.
  pose proof (wf_row _ _ Hwf1 Hr) as Hl1.
  pose proof (wf_row _ _ Hwf2 Hr) as Hl2.
  apply list_lookup_total_correct in H1, H2.
  rewrite H1 in Hl1. rewrite H2 in Hl2.
  apply (list_eq_same_length _ _ 9); [done..|].
  intros c x y Hc Hx Hy.
  specialize (Hget r c Hr Hc). unfold get in Hget.
  rewrite H1, H2 in Hget.
  apply list_lookup_total_correct in Hx, Hy. congruence.
Qed.

Lemma emptyGrid_wf : wf emptyGrid.
Proof. split; [done|]. repeat constructor. Qed.

Lemma get_emptyGrid r c : get emptyGrid r c = 0.
Proof.
  unfold get, emptyGrid.
  destruct (decide (r < 9)) as [Hr|Hr].
  - rewrite lookup_total_replicate_2 by done.
    destruct (decide (c < 9)) as [Hc|Hc].
    + by rewrite lookup_total_replicate_2.
    + rewrite list_lookup_total_alt, lookup_ge_None_2; [done|].
      rewrite length_replicate. lia.
  - rewrite (list_lookup_total_alt (replicate 9 _)), lookup_ge_None_2; [done|].
    rewrite length_replicate. lia.
Qed.

(** ** shuffle permutes *)

Section shuffle_facts.
Context {A : Type}.
Implicit Types (l array : list A).

Lemma insert_bring_front l j x y :
  l !! j = Some y → y :: <[j := x]> l ≡ₚ x :: l.
Proof.
  revert j. induction l as [|a l IH]; intros [|j] Hj; simplify_eq/=.
  - apply perm_swap.
  - rewrite (perm_swap a y), (IH _ Hj). apply perm_swap.
Qed.

Lemma swap_perm array i j : swap array i j ≡ₚ array.
Proof.
  unfold swap.
  destruct (array !! i) as [x|] eqn:Hi; [|done].
  destruct (array !! j) as [y|] eqn:Hj; [|done].
  revert i j Hi Hj.
  induction array as [|a l IH]; intros [|i] [|j] Hi Hj; simplify_eq/=.
  - done.
  - by apply insert_bring_front.
  - by apply insert_bring_front.
  - by rewrite IH.
Qed.

Lemma swap_length array i j : length (swap array i j) = length array.
Proof. apply Permutation_length, swap_perm. Qed.

Lemma shuffleFrom_perm i array g : (shuffleFrom i array g).1 ≡ₚ array.
Proof.
  revert array g. induction i as [|i IH]; intros array g; simpl; [done|].
  by rewrite IH, swap_perm.
Qed.

Lemma shuffle_perm array g : (shuffle array g).1 ≡ₚ array.
Proof. apply shuffleFrom_perm. Qed.

(** One draw per iteration. *)
Lemma shuffleFrom_calls i array g :
  calls (shuffleFrom i array g).2 = calls g + i.
Proof.
  revert array g. induction i as [|i IH]; intros array g; simpl; [lia|].
  rewrite IH. simpl. lia.
Qed.
End shuffle_facts.

(** C10.  Whatever the random source draws, [shuffle] leaves in the array
    it was given (and returns) a permutation of the input: the same
    elements with the same multiplicities, hence the same length. *)
Theorem shuffle_permutation {A} (array : list A) (g : Rng) :
  (shuffle array g).1 ≡ₚ array ∧
  length (shuffle array g).1 = length array ∧
  (∀ x, x ∈ (shuffle array g).1 ↔ x ∈ array).
Proof.
  pose proof (shuffle_perm array g) as Hp. split_and!.
  - done.
  - by apply Permutation_length.
  - intros x. by rewrite Hp.
Qed.

(** ** isValid *)

Lemma existsb_seq_false (f : nat → bool) n :
  existsb f (seq 0 n) = false ↔ ∀ i, i < n → f i = false.
Proof.
  split.
  - intros Hex i Hi. destruct (f i) eqn:Hf; [|done].
    assert (existsb f (seq 0 n) = true) as Ht; [|congruence].
    apply existsb_exists. exists i. split; [|done]. apply in_seq. lia.
  - intros Hall. destruct (existsb f (seq 0 n)) eqn:Hex; [|done].
    apply existsb_exists in Hex as (i & Hin & Hf).
    apply in_seq in Hin. rewrite Hall in Hf by lia. done.
Qed.

(** [isValid] is a scan of the whole row, the whole column and the whole
    box. *)
Lemma isValid_nowhere b row col num :
  row < 9 → col < 9 →
  isValid b row col num = true ↔ nowhere b row col num.
Proof.
  intros Hrow Hcol. unfold isValid.
  destruct (existsb _ (seq 0 9)) eqn:Hline.
  { split; [done|]. intros (Hr & Hc & _).
    apply existsb_exists in Hline as (i & Hin & Hi).
    apply in_seq in Hin. exfalso. apply orb_true_iff in Hi as [Hi|Hi];
      apply Nat.eqb_eq in Hi; [apply (Hr i)|apply (Hc i)]; done || lia. }
  cbv zeta. destruct (existsb _ (seq 0 3)) eqn:Hbox.
  { split; [done|]. intros (_ & _ & Hb).
    apply existsb_exists in Hbox as (i & Hin & Hi).
    apply existsb_exists in Hi as (j & Hjn & Hj).
    apply in_seq in Hin, Hjn. apply Nat.eqb_eq in Hj.
    exfalso. apply (Hb (row / 3 * 3 + i) (col / 3 * 3 + j)); [lia..|done]. }
  split; [intros _|done].
  rewrite existsb_seq_false in Hline, Hbox.
  split_and!.
  - intros i Hi. specialize (Hline i Hi).
    apply orb_false_iff in Hline as [Hl _]. by apply Nat.eqb_neq.
  - intros i Hi. specialize (Hline i Hi).
    apply orb_false_iff in Hline as [_ Hl]. by apply Nat.eqb_neq.
  - intros r c Hr Hc Hrb Hcb.
    specialize (Hbox (r mod 3)). rewrite existsb_seq_false in Hbox.
    specialize (Hbox ltac:(lia) (c mod 3) ltac:(lia)).
    apply Nat.eqb_neq in Hbox.
    replace (row / 3 * 3 + r mod 3) with r in Hbox by lia.
    replace (col / 3 * 3 + c mod 3) with c in Hbox by lia. done.
Qed.

Lemma nowhere_sees b row col num :
  row < 9 → col < 9 →
  nowhere b row col num ↔
  ∀ r c, r < 9 → c < 9 → sees row col r c → get b r c ≠ num.
Proof.
  intros Hrow Hcol. unfold nowhere, sees. split.
  - intros (Hr & Hc & Hb) r c ?? [->|[->|[??]]]; auto.
  - intros H. split_and!.
    + intros i Hi. apply H; auto.
    + intros i Hi. apply H; auto.
    + intros r c ????. apply H; auto.
Qed.

Lemma isValid_sees b row col num :
  row < 9 → col < 9 →
  isValid b row col num = true ↔
  ∀ r c, r < 9 → c < 9 → sees row col r c → get b r c ≠ num.
Proof. intros. by rewrite isValid_nowhere, nowhere_sees. Qed.

Lemma sees_self r c : sees r c r c.
Proof. by left. Qed.

Lemma sees_sym r c r' c' : sees r c r' c' → sees r' c' r c.
Proof. unfold sees. intros [->|[->|[-> ->]]]; auto. Qed.

Lemma nowhere_nowhereElse b row col num :
  row < 9 → col < 9 → get b row col ≠ num →
  nowhere b row col num ↔ nowhereElse b row col num.
Proof.
  intros Hrow Hcol Hcell. unfold nowhere, nowhereElse. split.
  - intros (Hr & Hc & Hb). split_and!; auto.
  - intros (Hr & Hc & Hb). split_and!.
    + intros i Hi. destruct (decide (i = col)) as [->|]; auto.
    + intros i Hi. destruct (decide (i = row)) as [->|]; auto.
    + intros r c Hr9 Hc9 ??.
      destruct (decide ((r, c) = (row, col))) as [[= -> ->]|]; auto.
Qed.

(** Only whether the tested cell holds [num] matters to [isValid], not
    what else it holds. *)
Lemma isValid_set_self b r c v num :
  wf b → r < 9 → c < 9 → v ≠ num → get b r c ≠ num →
  isValid (set b r c v) r c num = isValid b r c num.
Proof.
  intros Hwf Hr Hc Hv Hcell.
  apply eq_true_iff_eq. rewrite !isValid_sees by done.
  split; intros H r' c' Hr' Hc' Hsees;
    specialize (H r' c' Hr' Hc' Hsees);
    (destruct (decide ((r, c) = (r', c'))) as [[= <- <-]|Hne];
     [by rewrite ?get_set_eq|by rewrite ?get_set_ne in *]).
Qed.

(** C4, as the code has it.  For a row and column of the board,
    [isValid] returns true iff the digit is in no cell of the row, the
    column or the box, the tested cell [(row, col)] included: the scan
    does not skip it.  When that cell does not hold the digit (at every
    call of the worker it is empty), this is the same as the digit
    appearing nowhere else in the three units. *)
Theorem isValid_scans_units b row col num :
  row < 9 → col < 9 →
  (isValid b row col num = true ↔ nowhere b row col num) ∧
  (get b row col ≠ num →
     (isValid b row col num = true ↔ nowhereElse b row col num)).
Proof.
  intros Hrow Hcol. split; [by apply isValid_nowhere|].
  intros Hcell. by rewrite isValid_nowhere, nowhere_nowhereElse.
Qed.

Lemma isValid_scans_units_witness :
  (isValid emptyGrid 4 7 3 = true ↔ nowhere emptyGrid 4 7 3) ∧
  (get emptyGrid 4 7 ≠ 3 →
     (isValid emptyGrid 4 7 3 = true ↔ nowhereElse emptyGrid 4 7 3)).
Proof. apply (isValid_scans_units emptyGrid 4 7 3); lia. Defined.

(** C4, as stated, fails on a board whose tested cell already holds the
    digit: 5 is nowhere else in the units of (0, 0), yet [isValid]
    answers false. *)
Lemma isValid_counts_tested_cell :
  ¬ (isValid (set emptyGrid 0 0 5) 0 0 5 = true ↔
     nowhereElse (set emptyGrid 0 0 5) 0 0 5).
Proof.
  intros [_ H]. enough (isValid (set emptyGrid 0 0 5) 0 0 5 = true) by done.
  apply H. unfold nowhereElse. split_and!.
  - intros i _ Hi. rewrite get_set_ne, get_emptyGrid by congruence. done.
  - intros i _ Hi. rewrite get_set_ne, get_emptyGrid by congruence. done.
  - intros r c _ _ _ _ Hne. rewrite get_set_ne, get_emptyGrid by congruence.
    done.
Qed.

(** ** Scanning for the first empty cell *)

Lemma rowMajor_spec r c : (r, c) ∈ rowMajor ↔ r < 9 ∧ c < 9.
Proof.
  rewrite list_elem_of_In. unfold rowMajor. rewrite in_flat_map. split.
  - intros (r' & Hr & Hin). apply in_map_iff in Hin as (c' & [= <- <-] & Hc).
    apply in_seq in Hr, Hc. lia.
  - intros [Hr Hc]. exists r. split; [apply in_seq; lia|].
    apply in_map_iff. exists c. split; [done|apply in_seq; lia].
Qed.

Lemma rowMajor_NoDup : NoDup rowMajor.
Proof. apply (bool_decide_unpack _). by vm_compute. Qed.

(** Both scans visit the cells in the same order. *)
Lemma allCells_rowMajor : allCells = rowMajor.
Proof. by vm_compute. Qed.

Lemma firstEmpty_Some b r c :
  firstEmpty b = Some (r, c) → r < 9 ∧ c < 9 ∧ get b r c = 0.
Proof.
  intros H. apply find_some in H as [Hin Hz].
  apply list_elem_of_In, rowMajor_spec in Hin. apply Nat.eqb_eq in Hz. lia.
Qed.

Lemma firstEmpty_None b : firstEmpty b = None → full b.
Proof.
  intros H r c Hr Hc.
  apply Nat.eqb_neq. apply (find_none _ _ H (r, c)).
  apply list_elem_of_In, rowMajor_spec. done.
Qed.

Lemma firstEmptyIndex_Some b i :
  firstEmptyIndex b = Some i → i / 9 < 9 ∧ i mod 9 < 9 ∧ get b (i / 9) (i mod 9) = 0.
Proof.
  intros H. apply find_some in H as [Hin Hz].
  apply in_seq in Hin. apply Nat.eqb_eq in Hz. lia.
Qed.

Lemma firstEmptyIndex_None b : firstEmptyIndex b = None → full b.
Proof.
  intros H r c Hr Hc.
  assert (In (r * 9 + c) (seq 0 81)) as Hin by (apply in_seq; lia).
  pose proof (find_none _ _ H _ Hin) as Hz. cbv beta in Hz.
  apply Nat.eqb_neq in Hz.
  replace ((r * 9 + c) / 9) with r in Hz by lia.
  replace ((r * 9 + c) mod 9) with c in Hz by lia. done.
Qed.

(** ** Counting empty cells *)

Section filter_one.
Context `{EqDecision A} (P Q : A → bool) (x : A).
Hypothesis same_elsewhere : ∀ y, y ≠ x → Q y = P y.

Lemma filter_same l : x ∉ l → List.filter Q l = List.filter P l.
Proof.
  intros Hx. apply filter_ext_in. intros y Hy. apply same_elsewhere.
  intros ->. by apply Hx, list_elem_of_In.
Qed.

Lemma filter_lose_one l :
  NoDup l → x ∈ l → P x = true → Q x = false →
  S (length (List.filter Q l)) = length (List.filter P l).
Proof.
  intros Hnd Hin HP HQ.
  induction l as [|a l IH]; [by apply elem_of_nil in Hin|].
  apply NoDup_cons in Hnd as [Ha Hnd].
  destruct (decide (a = x)) as [->|Hne].
  - simpl. rewrite HP, HQ. simpl. by rewrite filter_same.
  - apply elem_of_cons in Hin as [->|Hin]; [done|].
    simpl. rewrite same_elsewhere by done.
    specialize (IH Hnd Hin). destruct (P a); simpl; lia.
Qed.

Lemma filter_gain_at_most_one l :
  NoDup l → length (List.filter Q l) ≤ S (length (List.filter P l)).
Proof.
  intros Hnd. induction l as [|a l IH]; [simpl; lia|].
  apply NoDup_cons in Hnd as [Ha Hnd].
  destruct (decide (a = x)) as [->|Hne].
  - simpl. rewrite filter_same by done.
    destruct (P x), (Q x); simpl; lia.
  - simpl. rewrite same_elsewhere by done.
    specialize (IH Hnd). destruct (P a); simpl; lia.
Qed.
End filter_one.

Lemma emptyCount_bound b : emptyCount b ≤ 81.
Proof.
  unfold emptyCount.
  etrans; [apply List.filter_length_le|]. by vm_compute.
Qed.

(** Filling an empty cell leaves one empty cell less. *)
Lemma emptyCount_fill b r c v :
  wf b → r < 9 → c < 9 → get b r c = 0 → v ≠ 0 →
  S (emptyCount (set b r c v)) = emptyCount b.
Proof.
  intros Hwf Hr Hc Hz Hv. unfold emptyCount.
  apply (filter_lose_one _ _ (r, c)).
  - intros [r' c'] Hne. by rewrite get_set_ne.
  - apply rowMajor_NoDup.
  - by apply rowMajor_spec.
  - by apply Nat.eqb_eq.
  - apply Nat.eqb_neq. by rewrite get_set_eq.
Qed.

(** Clearing a cell adds at most one empty cell. *)
Lemma emptyCount_clear b r c :
  emptyCount (set b r c 0) ≤ S (emptyCount b).
Proof.
  unfold emptyCount. apply (filter_gain_at_most_one _ _ (r, c)).
  - intros [r' c'] Hne. by rewrite get_set_ne.
  - apply rowMajor_NoDup.
Qed.

Lemma emptyCount_full b : full b → emptyCount b = 0.
Proof.
  intros Hfull. unfold emptyCount.
  rewrite (filter_ext_in _ (fun _ => false)); [by induction rowMajor|].
  intros [r c] Hin. apply list_elem_of_In, rowMajor_spec in Hin as [??].
  apply Nat.eqb_neq. by apply Hfull.
Qed.

(** ** Units that hold each digit once *)

Lemma count_once_in_digits d : 1 ≤ d ≤ 9 → count_occ Nat.eq_dec (seq 1 9) d = 1.
Proof.
  intros Hd. do 10 (destruct d as [|d]; [lia || reflexivity|]). lia.
Qed.

Lemma exactlyOnce_perm l : length l = 9 → exactlyOnce l ↔ l ≡ₚ seq 1 9.
Proof.
  intros Hlen. split.
  - intros Honce. symmetry. apply submseteq_length_Permutation; [|by rewrite Hlen].
    apply NoDup_submseteq; [apply NoDup_seq|].
    intros d Hd. apply elem_of_seq in Hd.
    apply list_elem_of_In, (count_occ_In Nat.eq_dec). rewrite Honce; lia.
  - intros Hp d Hd.
    rewrite (proj1 (Permutation_count_occ Nat.eq_dec _ _) Hp).
    by apply count_once_in_digits.
Qed.

Section units.
Variable f : nat → nat.

Lemma unit_lookup i : i < 9 → map f (seq 0 9) !! i = Some (f i).
Proof.
  intros Hi. change (map f (seq 0 9)) with (f <$> seq 0 9).
  rewrite list_lookup_fmap, lookup_seq_lt by done. done.
Qed.

Lemma unit_once_intro :
  (∀ i, i < 9 → 1 ≤ f i ≤ 9) →
  (∀ i j, i < 9 → j < 9 → i ≠ j → f i ≠ f j) →
  exactlyOnce (map f (seq 0 9)).
Proof.
  intros Hrange Hdiff. apply exactlyOnce_perm; [done|].
  apply submseteq_length_Permutation; [|done].
  apply NoDup_submseteq.
  - apply NoDup_alt. intros i j x Hi Hj.
    pose proof (lookup_lt_Some _ _ _ Hi) as Hi9.
    pose proof (lookup_lt_Some _ _ _ Hj) as Hj9.
    rewrite length_map, length_seq in Hi9, Hj9.
    rewrite unit_lookup in Hi, Hj by done.
    destruct (decide (i = j)) as [|Hne]; [done|].
    exfalso. apply (Hdiff i j Hi9 Hj9 Hne). congruence.
  - intros x Hx. apply list_elem_of_In, in_map_iff in Hx as (i & <- & Hi).
    apply in_seq in Hi. apply elem_of_seq.
    specialize (Hrange i ltac:(lia)). lia.
Qed.

Lemma unit_once_elim :
  exactlyOnce (map f (seq 0 9)) →
  (∀ i, i < 9 → 1 ≤ f i ≤ 9) ∧
  (∀ i j, i < 9 → j < 9 → i ≠ j → f i ≠ f j).
Proof.
  intros Honce. apply exactlyOnce_perm in Honce; [|done]. split.
  - intros i Hi.
    assert (f i ∈ seq 1 9) as Hin.
    { rewrite <- Honce. apply list_elem_of_In, in_map, in_seq. lia. }
    apply elem_of_seq in Hin. lia.
  - intros i j Hi Hj Hne Heq.
    assert (NoDup (map f (seq 0 9))) as Hnd.
    { rewrite Honce. apply NoDup_seq. }
    apply Hne. apply (NoDup_lookup _ i j (f i) Hnd).
    + by apply unit_lookup.
    + rewrite Heq. by apply unit_lookup.
Qed.
End units.

(** A complete valid board, cell by cell. *)
Lemma validComplete_digits s r c :
  validComplete s → r < 9 → c < 9 → 1 ≤ get s r c ≤ 9.
Proof.
  intros Hv Hr Hc. destruct (Hv r Hr) as (Hrow & _ & _).
  apply unit_once_elim in Hrow as [Hrange _]. by apply Hrange.
Qed.

Lemma validComplete_consistent s : validComplete s → consistent s.
Proof.
  intros Hv r c r' c' Hr Hc Hr' Hc' Hne Hsees _.
  destruct Hsees as [->|[->|[Hbr Hbc]]].
  - destruct (Hv r Hr) as (Hrow & _ & _).
    apply unit_once_elim in Hrow as [_ Hdiff].
    apply (Hdiff c c'); [done..|congruence].
  - destruct (Hv c Hc) as (_ & Hcol & _).
    apply unit_once_elim in Hcol as [_ Hdiff].
    apply (Hdiff r r'); [done..|congruence].
  - destruct (Hv (r / 3 * 3 + c / 3) ltac:(lia)) as (_ & _ & Hbox).
    apply unit_once_elim in Hbox as [_ Hdiff].
    specialize (Hdiff (r mod 3 * 3 + c mod 3) (r' mod 3 * 3 + c' mod 3)
                  ltac:(lia) ltac:(lia)).
    cbv beta in Hdiff.
    replace ((r / 3 * 3 + c / 3) / 3 * 3 + (r mod 3 * 3 + c mod 3) / 3)
      with r in Hdiff by lia.
    replace ((r / 3 * 3 + c / 3) mod 3 * 3 + (r mod 3 * 3 + c mod 3) mod 3)
      with c in Hdiff by lia.
    replace ((r / 3 * 3 + c / 3) / 3 * 3 + (r' mod 3 * 3 + c' mod 3) / 3)
      with r' in Hdiff by lia.
    replace ((r / 3 * 3 + c / 3) mod 3 * 3 + (r' mod 3 * 3 + c' mod 3) mod 3)
      with c' in Hdiff by lia.
    apply Hdiff. intros Heq. apply Hne. f_equal; lia.
Qed.

Lemma validComplete_full s : validComplete s → full s.
Proof.
  intros Hv r c Hr Hc. pose proof (validComplete_digits s r c Hv Hr Hc). lia.
Qed.

(** A full consistent board of digits is complete and valid. *)
Lemma full_consistent_valid b :
  full b → consistent b → digits b → validComplete b.
Proof.
  intros Hfull Hcons Hdig.
  assert (∀ r c, r < 9 → c < 9 → 1 ≤ get b r c ≤ 9) as Hrange.
  { intros r c Hr Hc. specialize (Hfull r c Hr Hc).
    specialize (Hdig r c Hr Hc). lia. }
  intros k Hk. split_and!; apply unit_once_intro.
  - intros i Hi. by apply Hrange.
  - intros i j Hi Hj Hne.
    apply Hcons; [done..|congruence|by left|by apply Hfull].
  - intros i Hi. by apply Hrange.
  - intros i j Hi Hj Hne.
    apply Hcons; [done..|congruence|right; by left|by apply Hfull].
  - intros i Hi. apply Hrange; lia.
  - intros i j Hi Hj Hne.
    apply Hcons; [lia..| |right; right; lia|apply Hfull; lia].
    intros Heq. apply pair_equal_spec in Heq as [H1 H2]. lia.
Qed.

(** ** Placing a digit *)

Lemma place_partial b r c num :
  partial b → r < 9 → c < 9 → 1 ≤ num ≤ 9 →
  isValid b r c num = true → partial (set b r c num).
Proof.
  intros (Hwf & Hcons & Hdig) Hr Hc Hnum Hvalid.
  rewrite isValid_sees in Hvalid by done.
  split_and!.
  - by apply set_wf.
  - intros r1 c1 r2 c2 Hr1 Hc1 Hr2 Hc2 Hne Hsees.
    destruct (decide ((r, c) = (r1, c1))) as [[= <- <-]|Hne1].
    + rewrite get_set_eq, get_set_ne by done. intros _ Heq.
      by apply (Hvalid r2 c2).
    + rewrite (get_set_ne _ _ _ _ r1 c1) by done.
      destruct (decide ((r, c) = (r2, c2))) as [[= <- <-]|Hne2].
      * rewrite get_set_eq by done. intros _.
        apply Hvalid; [done..|]. by apply sees_sym.
      * rewrite get_set_ne by done. by apply Hcons.
  - intros r1 c1 Hr1 Hc1.
    destruct (decide ((r, c) = (r1, c1))) as [[= <- <-]|Hne1].
    + rewrite get_set_eq by done. lia.
    + rewrite get_set_ne by done. by apply Hdig.
Qed.

Lemma extends_refl b : extends b b.
Proof. by intros r c _ _ _. Qed.

Lemma extends_place b r c num s :
  get b r c = 0 → extends (set b r c num) s → extends b s.
Proof.
  intros Hz Hext r1 c1 Hr1 Hc1 Hfilled.
  destruct (decide ((r, c) = (r1, c1))) as [[= <- <-]|Hne]; [done|].
  specialize (Hext r1 c1 Hr1 Hc1). rewrite get_set_ne in Hext by done.
  by apply Hext.
Qed.

Lemma extends_clear b s r c : wf b → extends b s → extends (set b r c 0) s.
Proof.
  intros Hwf Hext r1 c1 Hr1 Hc1.
  destruct (decide ((r, c) = (r1, c1))) as [[= <- <-]|Hne].
  - by rewrite get_set_eq.
  - rewrite get_set_ne by done. by apply Hext.
Qed.

Lemma completes_place b s r c :
  wf b → r < 9 → c < 9 →
  completes b s → completes (set b r c (get s r c)) s.
Proof.
  intros Hwf Hr Hc (Hwfs & Hv & Hext). split; [done|split; [done|]].
  intros r1 c1 Hr1 Hc1.
  destruct (decide ((r, c) = (r1, c1))) as [[= <- <-]|Hne].
  - by rewrite get_set_eq.
  - rewrite get_set_ne by done. by apply Hext.
Qed.

(** The digit a completion has at an empty cell passes [isValid]. *)
Lemma completion_isValid b s r c :
  completes b s → r < 9 → c < 9 → get b r c = 0 →
  isValid b r c (get s r c) = true.
Proof.
  intros (Hwfs & Hv & Hext) Hr Hc Hz. apply isValid_sees; [done..|].
  intros r1 c1 Hr1 Hc1 Hsees Heq.
  pose proof (validComplete_digits s r c Hv Hr Hc) as Hd.
  assert (get b r1 c1 ≠ 0) as Hfilled by lia.
  assert ((r, c) ≠ (r1, c1)) as Hne by (intros [= <- <-]; lia).
  apply (validComplete_consistent s Hv r c r1 c1); [done..|lia|].
  rewrite <- Heq. by apply Hext.
Qed.

(** ** solve *)

Lemma nums_shuffled g :
  (shuffle [1; 2; 3; 4; 5; 6; 7; 8; 9] g).1 ≡ₚ seq 1 9.
Proof. apply shuffle_perm. Qed.

Section tryNums_facts.
Variable rec : Board → Rng → option (bool * Board * Rng).
Variables r c : nat.
Hypothesis r_bound : r < 9.
Hypothesis c_bound : c < 9.

Lemma tryNums_restores nums b g b' g' :
  rec_restores rec → get b r c = 0 →
  tryNums rec r c nums b g = Some (false, b', g') → b' = b.
Proof.
  intros Hrec Hz. revert g.
  induction nums as [|num rest IH]; intros g; simpl.
  - by intros [= <- <-].
  - destruct (isValid b r c num); [|by apply IH].
    destruct (rec (set b r c num) g) as [[[[] b1] g1]|] eqn:Hcall; [done| |done].
    apply Hrec in Hcall as ->. rewrite set_clear_empty by done. apply IH.
Qed.

Lemma tryNums_sound nums b g b' g' :
  rec_restores rec → rec_sound rec →
  partial b → get b r c = 0 → Forall (fun n => 1 ≤ n ≤ 9) nums →
  tryNums rec r c nums b g = Some (true, b', g') →
  partial b' ∧ full b' ∧ extends b b'.
Proof.
  intros Hres Hrec Hpart Hz Hnums. revert g.
  induction Hnums as [|num rest Hnum Hrest IH]; intros g; simpl; [done|].
  destruct (isValid b r c num) eqn:Hvalid; [|by apply IH].
  destruct (rec (set b r c num) g) as [[[[] b1] g1]|] eqn:Hcall; [| |done].
  - intros [= <- <-].
    apply Hrec in Hcall as (? & ? & ?); [|by apply place_partial].
    eauto using extends_place.
  - apply Hres in Hcall as ->. rewrite set_clear_empty by done. apply IH.
Qed.

Lemma tryNums_complete nums b g b' g' s :
  rec_restores rec → rec_complete rec →
  wf b → get b r c = 0 →
  tryNums rec r c nums b g = Some (false, b', g') →
  completes b s → get s r c ∉ nums.
Proof.
  intros Hres Hrec Hwf Hz Hrun Hs. revert g Hrun.
  induction nums as [|num rest IH]; intros g; simpl; [intros _; apply not_elem_of_nil|].
  destruct (isValid b r c num) eqn:Hvalid.
  - destruct (rec (set b r c num) g) as [[[[] b1] g1]|] eqn:Hcall; [done| |done].
    pose proof (Hres _ _ _ _ Hcall) as ->.
    rewrite set_clear_empty by done. intros Hrun.
    apply not_elem_of_cons. split; [|by eapply IH].
    intros Heq. apply (Hrec _ _ _ _ s (set_wf _ _ _ _ Hwf) Hcall).
    rewrite <- Heq. by apply completes_place.
  - intros Hrun. apply not_elem_of_cons. split; [|by eapply IH].
    intros Heq. rewrite <- Heq, completion_isValid in Hvalid; done.
Qed.

Lemma tryNums_total n nums b g :
  rec_restores rec → rec_total rec n →
  wf b → get b r c = 0 → emptyCount b ≤ n → Forall (fun n => 1 ≤ n ≤ 9) nums →
  is_Some (tryNums rec r c nums b g).
Proof.
  intros Hres Hrec Hwf Hz Hcount Hnums. revert g.
  induction Hnums as [|num rest Hnum Hrest IH]; intros g; simpl; [done|].
  destruct (isValid b r c num); [|by apply IH].
  destruct (Hrec (set b r c num) g) as [[[ok b1] g1] Hcall].
  { by apply set_wf. }
  { pose proof (emptyCount_fill b r c num Hwf r_bound c_bound Hz). lia. }
  rewrite Hcall. destruct ok; [done|].
  apply Hres in Hcall as ->. rewrite set_clear_empty by done. apply IH.
Qed.
End tryNums_facts.

Lemma nums_digits g :
  Forall (fun n => 1 ≤ n ≤ 9) (shuffle [1; 2; 3; 4; 5; 6; 7; 8; 9] g).1.
Proof.
  apply Forall_forall. intros n Hn. rewrite nums_shuffled in Hn.
  apply elem_of_seq in Hn. lia.
Qed.

(** One level of [solve]. *)
Lemma solveF_step fuel b g :
  solveF (S fuel) b g =
  match firstEmpty b with
  | None => Some (true, b, g)
  | Some (r, c) =>
      tryNums (solveF fuel) r c (shuffle [1; 2; 3; 4; 5; 6; 7; 8; 9] g).1 b
              (shuffle [1; 2; 3; 4; 5; 6; 7; 8; 9] g).2
  end.
Proof.
  simpl. destruct (firstEmpty b) as [[r c]|]; [|done].
  by destruct (shuffle [1; 2; 3; 4; 5; 6; 7; 8; 9] g).
Qed.

Lemma solveF_restores fuel : rec_restores (solveF fuel).
Proof.
  induction fuel as [|fuel IH]; intros b g b' g'; [done|].
  rewrite solveF_step.
  destruct (firstEmpty b) as [[r c]|] eqn:Hfirst; [|done].
  apply firstEmpty_Some in Hfirst as (_ & _ & Hz).
  by apply tryNums_restores.
Qed.

Lemma solveF_sound fuel : rec_sound (solveF fuel).
Proof.
  induction fuel as [|fuel IH]; intros b g b' g' Hpart; [done|].
  rewrite solveF_step.
  destruct (firstEmpty b) as [[r c]|] eqn:Hfirst.
  - apply firstEmpty_Some in Hfirst as (Hr & Hc & Hz).
    apply (tryNums_sound _ r c Hr Hc); [apply solveF_restores|done..|].
    apply nums_digits.
  - intros [= <- <-]. split_and!; [done| |apply extends_refl].
    by apply firstEmpty_None.
Qed.

Lemma solveF_complete fuel : rec_complete (solveF fuel).
Proof.
  induction fuel as [|fuel IH]; intros b g b' g' s Hwf; [done|].
  rewrite solveF_step.
  destruct (firstEmpty b) as [[r c]|] eqn:Hfirst; [|done].
  apply firstEmpty_Some in Hfirst as (Hr & Hc & Hz).
  intros Hrun Hs.
  eapply (tryNums_complete _ r c Hr Hc); [apply solveF_restores|done..|].
  rewrite nums_shuffled. apply elem_of_seq.
  destruct Hs as (_ & Hv & _).
  pose proof (validComplete_digits s r c Hv Hr Hc). lia.
Qed.

Lemma solveF_total fuel : rec_total (solveF fuel) fuel.
Proof.
  induction fuel as [|fuel IH]; intros b g Hwf Hcount; [lia|].
  rewrite solveF_step.
  destruct (firstEmpty b) as [[r c]|] eqn:Hfirst; [|done].
  apply firstEmpty_Some in Hfirst as (Hr & Hc & Hz).
  apply (tryNums_total _ r c Hr Hc fuel);
    [apply solveF_restores|done..|lia|apply nums_digits].
Qed.

(** More fuel does not change a result. *)
Lemma tryNums_more rec rec' r c nums b g res :
  (∀ b g res, rec b g = Some res → rec' b g = Some res) →
  tryNums rec r c nums b g = Some res → tryNums rec' r c nums b g = Some res.
Proof.
  intros Hrec. revert b g.
  induction nums as [|num rest IH]; intros b g; simpl; [done|].
  destruct (isValid b r c num); [|by apply IH].
  destruct (rec (set b r c num) g) as [[[ok b1] g1]|] eqn:Hcall; [|done].
  rewrite (Hrec _ _ _ Hcall). destruct ok; [done|]. apply IH.
Qed.

Lemma solveF_more fuel fuel' b g res :
  fuel ≤ fuel' → solveF fuel b g = Some res → solveF fuel' b g = Some res.
Proof.
  revert fuel' b g res.
  induction fuel as [|fuel IH]; intros fuel' b g res Hle; [done|].
  destruct fuel' as [|fuel']; [lia|]. rewrite !solveF_step.
  destruct (firstEmpty b) as [[r c]|]; [|done].
  apply tryNums_more. intros b1 g1 res1. apply IH. lia.
Qed.

(** [solve] returns on every board of the right shape, and what it
    returns is what any larger fuel gives. *)
Lemma solve_total b g : wf b → is_Some (solve b g).
Proof.
  intros Hwf. apply solveF_total; [done|].
  pose proof (emptyCount_bound b). lia.
Qed.

Lemma solve_fuel b g fuel : wf b → 82 ≤ fuel → solveF fuel b g = solve b g.
Proof.
  intros Hwf Hle. destruct (solve_total b g Hwf) as [res Hres].
  rewrite Hres. by apply (solveF_more 82).
Qed.

(** C6.  When [solve] returns failure on a board, the board is as it was
    at entry: every digit placed during the failed search has been
    cleared again. *)
Theorem solve_failure_restores b g b' g' :
  wf b → solve b g = Some (false, b', g') → b' = b.
Proof. intros _. apply solveF_restores. Qed.

Lemma stuckBoard_wf : wf stuckBoard.
Proof. split; [done|]. repeat constructor. Qed.

Lemma solve_failure_restores_witness :
  ∃ b' g', solve stuckBoard countingRng = Some (false, b', g') ∧ b' = stuckBoard.
Proof.
  eexists _, _. split; [vm_compute; reflexivity|].
  eapply (solve_failure_restores stuckBoard countingRng);
    [apply stuckBoard_wf|vm_compute; reflexivity].
Defined.

(** ** A complete valid board exists *)

Lemma knownSolution_wf : wf knownSolution.
Proof. split; [done|]. repeat constructor. Qed.

Lemma knownSolution_valid : validComplete knownSolution.
Proof.
  intros k Hk.
  do 9 (destruct k as [|k];
        [split_and!; apply exactlyOnce_perm; try done;
         apply (bool_decide_unpack _); by vm_compute|]).
  lia.
Qed.

Lemma emptyGrid_partial : partial emptyGrid.
Proof.
  split_and!.
  - apply emptyGrid_wf.
  - intros r c r' c' _ _ _ _ _ _ Hfilled. by rewrite get_emptyGrid in Hfilled.
  - intros r c _ _. rewrite get_emptyGrid. lia.
Qed.

Lemma emptyGrid_completable : completes emptyGrid knownSolution.
Proof.
  split_and!; [apply knownSolution_wf|apply knownSolution_valid|].
  intros r c _ _ Hfilled. by rewrite get_emptyGrid in Hfilled.
Qed.

(** On the empty grid [solve] succeeds, whatever the random source. *)
Lemma solve_emptyGrid g :
  ∃ b' g', solve emptyGrid g = Some (true, b', g') ∧
           wf b' ∧ validComplete b'.
Proof.
  destruct (solve_total emptyGrid g emptyGrid_wf) as [[[ok b'] g'] Hrun].
  rewrite Hrun. unfold solve in Hrun. destruct ok.
  - exists b', g'. split; [done|].
    apply solveF_sound in Hrun as ((Hwf & Hcons & Hdig) & Hfull & _);
      [|apply emptyGrid_partial].
    split; [done|]. by apply full_consistent_valid.
  - exfalso.
    apply (solveF_complete 82 emptyGrid g b' g' knownSolution emptyGrid_wf Hrun).
    apply emptyGrid_completable.
Qed.

(** ** hasUniqueSolution: the counting search *)

Section count_by_digit.
Context {A : Type} (f : A → nat).

Lemma filter_split_head x xs (L : list A) :
  length (filter (λ s, f s ∈ x :: xs) L) ≤
  length (filter (λ s, f s = x) L) + length (filter (λ s, f s ∈ xs) L).
Proof.
  induction L as [|s L IH]; [done|].
  rewrite !filter_cons.
  destruct (decide (f s ∈ x :: xs)) as [Hin|Hout]; [|repeat case_decide; simpl; lia].
  apply elem_of_cons in Hin as [Heq|Hin].
  - rewrite (decide_True _ _ Heq). simpl. case_decide; simpl; lia.
  - rewrite (decide_True (P := f s ∈ xs)) by done.
    case_decide; simpl; lia.
Qed.

Lemma filter_none (P : A → Prop) `{∀ s, Decision (P s)} (L : list A) :
  (∀ s, s ∈ L → ¬ P s) → length (filter P L) = 0.
Proof.
  intros Hno. induction L as [|s L IH]; [done|].
  rewrite filter_cons_False by (apply Hno; left).
  apply IH. intros s' Hs'. apply Hno. by right.
Qed.

Lemma filter_all (P : A → Prop) `{∀ s, Decision (P s)} (L : list A) :
  (∀ s, s ∈ L → P s) → filter P L = L.
Proof.
  intros Hall. induction L as [|s L IH]; [done|].
  rewrite filter_cons_True by (apply Hall; left).
  f_equal. apply IH. intros s' Hs'. apply Hall. by right.
Qed.
End count_by_digit.

Lemma NoDup_all_equal {A} (L : list A) x :
  NoDup L → (∀ y, y ∈ L → y = x) → length L ≤ 1.
Proof.
  intros Hnd Hall. destruct L as [|y [|z L]]; simpl; [lia..|].
  exfalso. apply NoDup_cons in Hnd as [Hy _]. apply Hy.
  rewrite (Hall y), (Hall z); [left|right; left|left].
Qed.

Section countLoop_facts.
Variable rec : Board → nat → option (Board * nat).
Variables r c : nat.
Hypothesis r_bound : r < 9.
Hypothesis c_bound : c < 9.

(** The loop writes to the tested cell only. *)
Lemma countLoop_board nums cur n b' n' :
  count_restores rec →
  countLoop rec r c nums cur n = Some (b', n') → ∃ v, b' = set cur r c v.
Proof.
  intros Hres. revert cur n.
  induction nums as [|num rest IH]; intros cur n; simpl.
  - intros [= <- <-]. exists (get cur r c). by rewrite set_get.
  - destruct (n <=? 1); [|intros [= <- <-]; exists (get cur r c); by rewrite set_get].
    destruct (isValid cur r c num); [|by apply IH].
    destruct (rec (set cur r c num) n) as [[b1 n1]|] eqn:Hcall; [|done].
    apply Hres in Hcall as ->. intros Hrun.
    apply IH in Hrun as [v ->]. exists v. by rewrite set_set.
Qed.

Lemma countLoop_grows nums cur n b' n' :
  count_grows rec →
  countLoop rec r c nums cur n = Some (b', n') → n ≤ n'.
Proof.
  intros Hmono. revert cur n.
  induction nums as [|num rest IH]; intros cur n; simpl.
  - by intros [= <- <-].
  - destruct (n <=? 1); [|by intros [= <- <-]].
    destruct (isValid cur r c num); [|by apply IH].
    destruct (rec (set cur r c num) n) as [[b1 n1]|] eqn:Hcall; [|done].
    apply Hmono in Hcall. intros Hrun. apply IH in Hrun.
    clear -Hcall Hrun. lia.
Qed.

Lemma countLoop_total k nums b v n :
  count_restores rec → count_total rec k →
  wf b → get b r c = 0 → emptyCount b ≤ k →
  Forall (fun d => 1 ≤ d ≤ 9) nums →
  is_Some (countLoop rec r c nums (set b r c v) n).
Proof.
  intros Hres Htot Hwf Hz Hcount Hnums. revert v n.
  induction Hnums as [|num rest Hnum Hrest IH]; intros v n; simpl; [done|].
  destruct (n <=? 1); [|done].
  destruct (isValid (set b r c v) r c num); [|by apply IH].
  rewrite set_set.
  destruct (Htot (set b r c num) n) as [[b1 n1] Hcall].
  { by apply set_wf. }
  { pose proof (emptyCount_fill b r c num Hwf r_bound c_bound Hz). lia. }
  rewrite Hcall. apply Hres in Hcall as ->. apply IH.
Qed.

Lemma countLoop_reaches nums b v n b' n' L :
  count_restores rec → count_grows rec → count_reaches rec →
  wf b → get b r c = 0 →
  NoDup nums → Forall (fun d => 1 ≤ d ≤ 9) nums → v ∉ nums →
  NoDup L → Forall (completes b) L →
  countLoop rec r c nums (set b r c v) n = Some (b', n') →
  Nat.min 2 (n + length (filter (λ s, get s r c ∈ nums) L)) ≤ n'.
Proof.
  intros Hres Hmono Hreach Hwf Hz Hnd Hnums Hv HL Hcompl. revert v n Hv.
  induction Hnums as [|num rest Hnum Hrest IH]; intros v n Hv; cbn [countLoop].
  { intros [= <- <-]. rewrite filter_none; [lia|].
    intros s _. apply not_elem_of_nil. }
  apply NoDup_cons in Hnd as [Hfresh Hnd].
  apply not_elem_of_cons in Hv as [Hvnum Hvrest].
  pose proof (filter_split_head (λ s, get s r c) num rest L) as Hsplit.
  cbv beta in Hsplit.
  destruct (n <=? 1) eqn:Hcut; [|intros [= <- <-]; apply Nat.leb_gt in Hcut; lia].
  rewrite isValid_set_self by (done || lia).
  destruct (isValid b r c num) eqn:Hvalid.
  - rewrite set_set.
    destruct (rec (set b r c num) n) as [[b1 n1]|] eqn:Hcall; [|done].
    pose proof (Hres _ _ _ _ Hcall) as ->.
    intros Hrun. apply (IH Hnd) in Hrun; [|done].
    assert (Nat.min 2 (n + length (filter (λ s, get s r c = num) L)) ≤ n1)
      as Hhere; [|lia].
    apply (Hreach _ _ _ _ _ (set_wf _ _ _ _ Hwf) Hcall).
    + by apply NoDup_filter.
    + apply Forall_forall. intros s Hs.
      apply list_elem_of_filter in Hs as [<- Hs].
      apply completes_place; [done..|].
      by apply (proj1 (Forall_forall _ _) Hcompl).
  - intros Hrun. apply (IH Hnd) in Hrun; [|done].
    rewrite (filter_none (λ s, get s r c = num)) in Hsplit; [lia|].
    intros s Hs Heq.
    rewrite <- Heq, completion_isValid in Hvalid; [done| |done..].
    by apply (proj1 (Forall_forall _ _) Hcompl).
Qed.
End countLoop_facts.

(** One level of [find]. *)
Lemma find_step fuel b n :
  find (S fuel) b n =
  match firstEmptyIndex b with
  | None => Some (b, S n)
  | Some i =>
      match countLoop (find fuel) (i / 9) (i mod 9) (seq 1 9) b n with
      | None => None
      | Some (b', n') => Some (set b' (i / 9) (i mod 9) 0, n')
      end
  end.
Proof. reflexivity. Qed.

Lemma digits_1_9 : Forall (fun d => 1 ≤ d ≤ 9) (seq 1 9).
Proof. apply Forall_forall. intros d Hd. apply elem_of_seq in Hd. lia. Qed.

(** [find] always leaves the board as it found it. *)
Lemma find_restores fuel : count_restores (find fuel).
Proof.
  induction fuel as [|fuel IH]; intros b n b' n'; [done|].
  rewrite find_step.
  destruct (firstEmptyIndex b) as [i|] eqn:Hfirst; [|by intros [= <- <-]].
  apply firstEmptyIndex_Some in Hfirst as (_ & _ & Hz).
  destruct (countLoop _ _ _ _ b n) as [[b1 n1]|] eqn:Hloop; [|done].
  apply countLoop_board in Hloop as [v ->]; [|done].
  intros [= <- <-]. by apply set_clear_empty.
Qed.

Lemma find_grows fuel : count_grows (find fuel).
Proof.
  induction fuel as [|fuel IH]; intros b n b' n'; [done|].
  rewrite find_step.
  destruct (firstEmptyIndex b) as [i|] eqn:Hfirst; [|intros [= <- <-]; lia].
  destruct (countLoop _ _ _ _ b n) as [[b1 n1]|] eqn:Hloop; [|done].
  apply countLoop_grows in Hloop; [|done]. by intros [= <- <-].
Qed.

Lemma find_total fuel : count_total (find fuel) fuel.
Proof.
  induction fuel as [|fuel IH]; intros b n Hwf Hcount; [lia|].
  rewrite find_step.
  destruct (firstEmptyIndex b) as [i|] eqn:Hfirst; [|done].
  apply firstEmptyIndex_Some in Hfirst as (Hr & Hc & Hz).
  destruct (countLoop_total (find fuel) (i / 9) (i mod 9) Hr Hc fuel
              (seq 1 9) b 0 n) as [[b1 n1] Hloop];
    [apply find_restores|done..|lia|apply digits_1_9|].
  rewrite (set_empty_id b _ _ Hz) in Hloop. by rewrite Hloop.
Qed.

(** With [n] solutions counted before and a list of distinct completions
    of the board, [find] counts them all or reaches the cutoff. *)
Lemma find_reaches fuel : count_reaches (find fuel).
Proof.
  induction fuel as [|fuel IH]; intros b n b' n' L Hwf; [done|].
  rewrite find_step.
  destruct (firstEmptyIndex b) as [i|] eqn:Hfirst.
  - apply firstEmptyIndex_Some in Hfirst as (Hr & Hc & Hz).
    destruct (countLoop _ _ _ _ b n) as [[b1 n1]|] eqn:Hloop; [|done].
    intros [= <- <-] HL Hcompl.
    rewrite <- (set_empty_id b _ _ Hz) in Hloop.
    apply (countLoop_reaches _ _ _ Hr Hc _ _ _ _ _ _ L) in Hloop;
      [|apply find_restores|apply find_grows|done..|apply NoDup_seq
       |apply digits_1_9|rewrite elem_of_seq; lia|done|done].
    rewrite filter_all in Hloop; [done|].
    intros s Hs. apply elem_of_seq.
    destruct (proj1 (Forall_forall _ _) Hcompl s Hs) as (_ & Hv & _).
    pose proof (validComplete_digits s _ _ Hv Hr Hc). lia.
  - intros [= <- <-] HL Hcompl.
    apply firstEmptyIndex_None in Hfirst.
    assert (length L ≤ 1); [|lia].
    apply (NoDup_all_equal L b); [done|].
    intros s Hs.
    destruct (proj1 (Forall_forall _ _) Hcompl s Hs) as (Hwfs & _ & Hext).
    symmetry. apply board_ext; [done..|].
    intros r c Hr Hc. apply Hext; [done..|]. by apply Hfirst.
Qed.

(** More fuel does not change a count. *)
Lemma countLoop_more rec rec' r c nums b n res :
  (∀ b n res, rec b n = Some res → rec' b n = Some res) →
  countLoop rec r c nums b n = Some res → countLoop rec' r c nums b n = Some res.
Proof.
  intros Hrec. revert b n.
  induction nums as [|num rest IH]; intros b n; simpl; [done|].
  destruct (n <=? 1); [|done].
  destruct (isValid b r c num); [|by apply IH].
  destruct (rec (set b r c num) n) as [[b1 n1]|] eqn:Hcall; [|done].
  rewrite (Hrec _ _ _ Hcall). apply IH.
Qed.

Lemma find_more fuel fuel' b n res :
  fuel ≤ fuel' → find fuel b n = Some res → find fuel' b n = Some res.
Proof.
  revert fuel' b n res.
  induction fuel as [|fuel IH]; intros fuel' b n res Hle; [done|].
  destruct fuel' as [|fuel']; [lia|]. rewrite !find_step.
  destruct (firstEmptyIndex b) as [i|]; [|done].
  destruct (countLoop (find fuel) _ _ _ b n) as [res1|] eqn:Hloop; [|done].
  apply (countLoop_more _ (find fuel')) in Hloop; [by rewrite Hloop|].
  intros b1 n1 res2. apply IH. lia.
Qed.

Lemma firstEmptyIndex_full b : full b → firstEmptyIndex b = None.
Proof.
  intros Hfull. destruct (firstEmptyIndex b) as [i|] eqn:Hfirst; [|done].
  apply firstEmptyIndex_Some in Hfirst as (Hr & Hc & Hz).
  by destruct (Hfull _ _ Hr Hc).
Qed.

(** [hasUniqueSolution] returns on every board of the right shape. *)
Lemma hasUniqueSolution_total b : wf b → is_Some (hasUniqueSolution b).
Proof.
  intros Hwf. unfold hasUniqueSolution, jsonCopy.
  destruct (find_total 82 b 0 Hwf) as [[b' n'] Hrun].
  { pose proof (emptyCount_bound b). lia. }
  by rewrite Hrun.
Qed.

Lemma hasUniqueSolution_full b : full b → hasUniqueSolution b = Some true.
Proof.
  intros Hfull. unfold hasUniqueSolution, jsonCopy.
  by rewrite find_step, firstEmptyIndex_full.
Qed.

(** A board that passes the check has at most one completion. *)
Lemma hasUniqueSolution_unique b s1 s2 :
  wf b → hasUniqueSolution b = Some true →
  completes b s1 → completes b s2 → s1 = s2.
Proof.
  intros Hwf Hcheck Hs1 Hs2. unfold hasUniqueSolution, jsonCopy in Hcheck.
  destruct (find 82 b 0) as [[b' n']|] eqn:Hrun; [|done].
  injection Hcheck as Hone. apply Nat.eqb_eq in Hone as ->.
  destruct (decide (s1 = s2)) as [|Hne]; [done|]. exfalso.
  assert (Nat.min 2 (0 + length [s1; s2]) ≤ 1) as Hcount; [|simpl in Hcount; lia].
  apply (find_reaches 82 b 0 b' 1 [s1; s2] Hwf Hrun).
  - apply NoDup_cons. split; [by apply not_elem_of_cons; split; [|apply not_elem_of_nil]|].
    apply NoDup_singleton.
  - constructor; [done|]. constructor; [done|]. constructor.
Qed.

(** ** A single cleared cell has one completion *)

Section one_candidate.
Variable s : Board.
Variables r c : nat.
Hypothesis s_wf : wf s.
Hypothesis s_valid : validComplete s.
Hypothesis r_bound : r < 9.
Hypothesis c_bound : c < 9.

Lemma cleared_wf : wf (set s r c 0).
Proof. by apply set_wf. Qed.

Lemma cleared_empty : get (set s r c 0) r c = 0.
Proof. by apply get_set_eq. Qed.

Lemma cleared_completes : completes (set s r c 0) s.
Proof. split_and!; [done..|]. apply extends_clear; [done|apply extends_refl]. Qed.

(** Every other digit is already in row [r]. *)
Lemma cleared_rejects num :
  1 ≤ num ≤ 9 → num ≠ get s r c → isValid (set s r c 0) r c num = false.
Proof.
  intros Hnum Hne. apply not_true_is_false. intros Hvalid.
  rewrite isValid_sees in Hvalid by done.
  destruct (s_valid r r_bound) as (Hrow & _ & _).
  assert (In num (rowCells s r)) as Hin.
  { apply (count_occ_In Nat.eq_dec). rewrite Hrow by done. lia. }
  apply in_map_iff in Hin as (j & Hj & Hjn). apply in_seq in Hjn.
  apply (Hvalid r j); [done|lia|by left|].
  rewrite get_set_ne; [done|]. intros [= <-]. done.
Qed.

Lemma find_full fuel n : find (S fuel) s n = Some (s, S n).
Proof.
  by rewrite find_step, firstEmptyIndex_full by (by apply validComplete_full).
Qed.

(** The loop finds the digit of [s], once. *)
Lemma countLoop_one_candidate fuel nums v n :
  NoDup nums → Forall (fun d => 1 ≤ d ≤ 9) nums → v ∉ nums →
  n ≤ 1 → (get s r c ∈ nums → n = 0) →
  ∃ b', countLoop (find (S fuel)) r c nums (set s r c v) n =
        Some (b', if decide (get s r c ∈ nums) then 1 else n).
Proof.
  intros Hnd Hnums. revert v n Hnd.
  induction Hnums as [|num rest Hnum Hrest IH]; intros v n Hnd Hv Hn Hzero.
  { exists (set s r c v). cbn [countLoop].
    by rewrite decide_False by apply not_elem_of_nil. }
  apply NoDup_cons in Hnd as [Hfresh Hnd].
  apply not_elem_of_cons in Hv as [Hvnum Hvrest].
  cbn [countLoop]. rewrite (proj2 (Nat.leb_le n 1) Hn).
  rewrite <- (set_set s r c 0 v).
  rewrite isValid_set_self
    by (done || apply cleared_wf || (rewrite cleared_empty; lia)).
  rewrite !set_set.
  destruct (decide (num = get s r c)) as [->|Hne].
  - rewrite completion_isValid
      by (done || apply cleared_completes || apply cleared_empty).
    rewrite set_get, find_full.
    rewrite (Hzero ltac:(left)).
    destruct (IH (get s r c) 1 Hnd Hfresh ltac:(lia)) as [b' Hrun]; [done|].
    rewrite set_get in Hrun. rewrite Hrun.
    exists b'. rewrite decide_False by done. by rewrite decide_True by left.
  - rewrite cleared_rejects by done.
    destruct (IH v n Hnd Hvrest Hn) as [b' Hrun].
    { intros Hin. apply Hzero. by right. }
    rewrite Hrun. exists b'. f_equal. f_equal.
    destruct (decide (get s r c ∈ rest)) as [Hin|Hout].
    + by rewrite decide_True by (by right).
    + rewrite decide_False; [done|].
      intros [?|?]%elem_of_cons; done.
Qed.

(** Clearing any one cell of a complete valid board leaves a board that
    passes the uniqueness check. *)
Lemma single_removal_unique : hasUniqueSolution (set s r c 0) = Some true.
Proof.
  unfold hasUniqueSolution, jsonCopy. rewrite find_step.
  destruct (firstEmptyIndex (set s r c 0)) as [i|] eqn:Hfirst.
  - apply firstEmptyIndex_Some in Hfirst as (Hr & Hc & Hz).
    destruct (decide ((r, c) = (i / 9, i mod 9))) as [Heq|Hne].
    + apply pair_equal_spec in Heq as [<- <-].
      destruct (countLoop_one_candidate 80 (seq 1 9) 0 0) as [b' Hrun];
        [apply NoDup_seq|apply digits_1_9|rewrite elem_of_seq; lia|lia|done|].
      rewrite Hrun. rewrite decide_True; [done|].
      apply elem_of_seq. pose proof (validComplete_digits s r c s_valid r_bound c_bound).
      lia.
    + rewrite get_set_ne in Hz by done.
      by destruct (validComplete_full s s_valid _ _ Hr Hc).
  - apply firstEmptyIndex_None in Hfirst.
    destruct (Hfirst r c r_bound c_bound). apply cleared_empty.
Qed.
End one_candidate.

(** ** generatePuzzle: the removal loop *)

Lemma pop_Some {A} (l l' : list A) x : pop l = Some (x, l') ↔ l = l' ++ [x].
Proof.
  unfold pop. split.
  - destruct (rev l) as [|y r] eqn:Hrev; [done|]. intros [= -> <-].
    rewrite <- (rev_involutive l), Hrev. done.
  - intros ->. rewrite rev_app_distr. simpl. by rewrite rev_involutive.
Qed.

Lemma pop_nonempty {A} (l : list A) : 0 < length l → is_Some (pop l).
Proof.
  intros Hlen. unfold pop. destruct (rev l) as [|y r] eqn:Hrev; [|done].
  apply (f_equal length) in Hrev. rewrite length_rev in Hrev. simpl in Hrev. lia.
Qed.

(** One iteration, or the end of the loop. *)
Lemma removeCells_step fuel st :
  removeCells (S fuel) st =
  if (0 <? length (cells st)) && gtZero (cellsToRemove st) then
    match pop (cells st) with
    | None => None
    | Some ((r, c), cells') =>
        match hasUniqueSolution (set (grid st) r c 0) with
        | None => None
        | Some false =>
            removeCells fuel
              (mkLoop (set (set (grid st) r c 0) r c (get (grid st) r c))
                      cells' (cellsToRemove st) (checks st ++ [(r, c)]))
        | Some true =>
            removeCells fuel
              (mkLoop (set (grid st) r c 0) cells'
                      (decrement (cellsToRemove st)) (checks st ++ [(r, c)]))
        end
    end
  else Some st.
Proof. reflexivity. Qed.

(** Invariants of the loop: what holds before, and is kept by a
    committed removal and by a rejected one, holds at the end. *)
Lemma removeCells_invariant (P : LoopState → Prop) :
  (∀ st r c cells',
     P st → cells st = cells' ++ [(r, c)] → gtZero (cellsToRemove st) = true →
     hasUniqueSolution (set (grid st) r c 0) = Some true →
     P (mkLoop (set (grid st) r c 0) cells' (decrement (cellsToRemove st))
               (checks st ++ [(r, c)]))) →
  (∀ st r c cells',
     P st → cells st = cells' ++ [(r, c)] → gtZero (cellsToRemove st) = true →
     hasUniqueSolution (set (grid st) r c 0) = Some false →
     P (mkLoop (grid st) cells' (cellsToRemove st) (checks st ++ [(r, c)]))) →
  ∀ fuel st st', P st → removeCells fuel st = Some st' → P st'.
Proof.
  intros Hcommit Hreject fuel.
  induction fuel as [|fuel IH]; intros st st' HP.
  - simpl. destruct (_ && _); [done|]. by intros [= <-].
  - rewrite removeCells_step.
    destruct (_ && _) eqn:Hcond; [|by intros [= <-]].
    apply andb_true_iff in Hcond as [_ Hgt].
    destruct (pop (cells st)) as [[[r c] cells']|] eqn:Hpop; [|done].
    apply pop_Some in Hpop.
    destruct (hasUniqueSolution _) as [[]|] eqn:Hcheck; [| |done].
    + apply IH. by apply Hcommit.
    + rewrite set_restore. apply IH. by apply Hreject.
Qed.

Lemma removeCells_total fuel st :
  wf (grid st) → length (cells st) ≤ fuel → is_Some (removeCells fuel st).
Proof.
  revert st. induction fuel as [|fuel IH]; intros st Hwf Hlen.
  - simpl. destruct (0 <? length (cells st)) eqn:Hpos; [|done].
    apply Nat.ltb_lt in Hpos. lia.
  - rewrite removeCells_step.
    destruct (0 <? length (cells st)) eqn:Hpos; [|done].
    destruct (gtZero _); [|done]. simpl.
    apply Nat.ltb_lt in Hpos.
    destruct (pop_nonempty _ Hpos) as [[[r c] cells'] Hpop]. rewrite Hpop.
    apply pop_Some in Hpop.
    assert (length cells' ≤ fuel) as Hlen'.
    { rewrite Hpop, length_app in Hlen. simpl in Hlen. lia. }
    destruct (hasUniqueSolution_total (set (grid st) r c 0)) as [ok Hcheck].
    { by apply set_wf. }
    rewrite Hcheck. destruct ok; apply IH; simpl; try done.
    + by apply set_wf.
    + by rewrite set_restore.
Qed.

(** A larger bound on the iterations does not change the outcome. *)
Lemma removeCells_more fuel fuel' st res :
  fuel ≤ fuel' → removeCells fuel st = Some res → removeCells fuel' st = Some res.
Proof.
  revert fuel' st res.
  induction fuel as [|fuel IH]; intros fuel' st res Hle.
  - simpl. destruct (_ && _) eqn:Hcond; [done|].
    intros [= <-]. destruct fuel'; simpl; by rewrite Hcond.
  - destruct fuel' as [|fuel']; [lia|]. rewrite !removeCells_step.
    destruct (_ && _); [|done].
    destruct (pop (cells st)) as [[[r c] cells']|]; [|done].
    destruct (hasUniqueSolution _) as [[]|]; [| |done]; apply IH; lia.
Qed.

Lemma removeCells_loopInv s cells0 fuel st st' :
  loopInv s cells0 st → removeCells fuel st = Some st' → loopInv s cells0 st'.
Proof.
  apply (removeCells_invariant (loopInv s cells0)).
  - intros st0 r c cells' [Hwf Hsub Huniq Hcells] Hpop _ Hcheck.
    split; simpl; [by apply set_wf|by apply extends_clear|done|].
    by rewrite Hcells, Hpop, rev_app_distr, <- app_assoc.
  - intros st0 r c cells' [Hwf Hsub Huniq Hcells] Hpop _ Hcheck.
    split; simpl; [done..|].
    by rewrite Hcells, Hpop, rev_app_distr, <- app_assoc.
Qed.

Lemma removeCells_budget K fuel st st' :
  withinBudget K st → removeCells fuel st = Some st' → withinBudget K st'.
Proof.
  apply (removeCells_invariant (withinBudget K)).
  - intros st0 r c cells' (k & Hk & Hle) _ Hgt _. rewrite Hk in Hgt |- *.
    simpl in Hgt. apply Nat.ltb_lt in Hgt.
    exists (k - 1). split; [done|]. simpl.
    pose proof (emptyCount_clear (grid st0) r c). lia.
  - intros st0 r c cells' (k & Hk & Hle) _ _ _. by exists k.
Qed.

Lemma removeCells_skipped fuel st :
  gtZero (cellsToRemove st) = false → removeCells fuel st = Some st.
Proof.
  intros Hgt. destruct fuel; simpl; by rewrite Hgt, andb_false_r.
Qed.

(** ** generatePuzzle *)

Lemma allCells_length : length allCells = 81.
Proof. reflexivity. Qed.

(** How every run of [generatePuzzle] goes: [solve] succeeds with a
    complete valid board [s], the cells are shuffled into [cells0], and
    the loop ends in a state [st] that satisfies its invariant. *)
Lemma generatePuzzle_runs diff g :
  ∃ s g1 cells0 g2 st,
    solve emptyGrid g = Some (true, s, g1) ∧
    shuffle allCells g1 = (cells0, g2) ∧
    wf s ∧ validComplete s ∧ cells0 ≡ₚ allCells ∧
    removeCells 81
      (mkLoop s cells0 (orElse (lookupDifficulty diff) (VNumber 46)) []) = Some st ∧
    generatePuzzle diff g = Some (mkGenerated (grid st) s st, g2) ∧
    loopInv s cells0 st.
Proof.
  destruct (solve_emptyGrid g) as (s & g1 & Hsolve & Hwf & Hvalid).
  pose proof (shuffle_perm allCells g1) as Hperm.
  destruct (shuffle allCells g1) as [cells0 g2] eqn:Hshuffle. simpl in Hperm.
  set (st0 := mkLoop s cells0 (orElse (lookupDifficulty diff) (VNumber 46)) []).
  assert (loopInv s cells0 st0) as Hinv0.
  { split; simpl; [done|apply extends_refl| |by rewrite app_nil_r].
    by apply hasUniqueSolution_full, validComplete_full. }
  destruct (removeCells_total 81 st0) as [st Hloop]; [done| |].
  { simpl. by rewrite (Permutation_length Hperm), allCells_length. }
  exists s, g1, cells0, g2, st.
  split_and!; [done..| |by eapply removeCells_loopInv].
  unfold generatePuzzle. rewrite Hsolve, Hshuffle. unfold jsonCopy.
  fold st0. by rewrite Hloop.
Qed.

Lemma board_Forall (P : nat → Prop) b :
  wf b → (∀ r c, r < 9 → c < 9 → P (get b r c)) → Forall (Forall P) b.
Proof.
  intros Hwf HP. apply Forall_lookup. intros r row Hrow.
  pose proof (lookup_lt_Some _ _ _ Hrow) as Hr.
  replace (length b) with 9 in Hr by (by destruct Hwf).
  apply Forall_lookup. intros c v Hv.
  pose proof (lookup_lt_Some _ _ _ Hv) as Hc.
  apply list_lookup_total_correct in Hrow.
  rewrite <- Hrow, wf_row in Hc by done.
  apply list_lookup_total_correct in Hv.
  specialize (HP r c Hr Hc). unfold get in HP. by rewrite Hrow, Hv in HP.
Qed.

(** C1.  Every puzzle [generatePuzzle] returns passes
    [hasUniqueSolution], and it has exactly one valid complete
    completion: the returned solution completes it, and every complete
    valid board that completes it is that solution. *)
Theorem generatePuzzle_unique_solution (diff : string) (g : Rng) :
  ∃ gen g',
    generatePuzzle diff g = Some (gen, g') ∧
    hasUniqueSolution (puzzle gen) = Some true ∧
    completes (puzzle gen) (solution gen) ∧
    ∀ s, completes (puzzle gen) s → s = solution gen.
Proof.
  destruct (generatePuzzle_runs diff g)
    as (s & g1 & cells0 & g2 & st & _ & _ & Hwf & Hvalid & _ & _ & Hgen & Hinv).
  destruct Hinv as [Hwfp Hsub Huniq _].
  exists (mkGenerated (grid st) s st), g2. simpl.
  assert (completes (grid st) s) as Hcompl by done.
  split_and!; [done..|].
  intros s' Hs'. by apply (hasUniqueSolution_unique (grid st)).
Qed.

(** C2.  In every pair [generatePuzzle] returns, each non-empty cell of
    the puzzle holds the value the solution has there. *)
Theorem generatePuzzle_sub_assignment (diff : string) (g : Rng) :
  ∃ gen g',
    generatePuzzle diff g = Some (gen, g') ∧
    wf (puzzle gen) ∧ wf (solution gen) ∧
    ∀ r c, r < 9 → c < 9 →
      get (puzzle gen) r c ≠ 0 → get (puzzle gen) r c = get (solution gen) r c.
Proof.
  destruct (generatePuzzle_runs diff g)
    as (s & g1 & cells0 & g2 & st & _ & _ & Hwf & Hvalid & _ & _ & Hgen & Hinv).
  destruct Hinv as [Hwfp Hsub _ _].
  by exists (mkGenerated (grid st) s st), g2.
Qed.

(** C3.  Whenever [solve] returns success on the empty grid, the board it
    leaves is complete and valid: every row, column and box holds each
    digit 1-9 exactly once.  [solve] does return success there, and so
    the solution [generatePuzzle] returns is such a board and holds only
    the integers 1-9. *)
Theorem solve_emptyGrid_valid (g : Rng) :
  (∀ b' g', solve emptyGrid g = Some (true, b', g') →
     wf b' ∧ validComplete b') ∧
  (∃ b' g', solve emptyGrid g = Some (true, b', g')) ∧
  (∀ diff, ∃ gen g',
     generatePuzzle diff g = Some (gen, g') ∧
     validComplete (solution gen) ∧
     Forall (Forall (fun v => 1 ≤ v ≤ 9)) (solution gen)).
Proof.
  split_and!.
  - intros b' g' Hrun. unfold solve in Hrun.
    apply solveF_sound in Hrun as ((Hwf & Hcons & Hdig) & Hfull & _);
      [|apply emptyGrid_partial].
    split; [done|]. by apply full_consistent_valid.
  - destruct (solve_emptyGrid g) as (b' & g' & Hrun & _). eauto.
  - intros diff.
    destruct (generatePuzzle_runs diff g)
      as (s & g1 & cells0 & g2 & st & _ & _ & Hwf & Hvalid & _ & _ & Hgen & _).
    exists (mkGenerated (grid st) s st), g2. simpl.
    split_and!; [done..|].
    apply board_Forall; [done|]. intros r c Hr Hc.
    by apply validComplete_digits.
Qed.

Lemma lookup_recognized d :
  lookupDifficulty (difficultyName d) =
  VNumber match d with
          | easy => 38 | medium => 46 | hard => 53 | expert => 59 | master => 64
          end.
Proof. by destruct d. Qed.

(** C5.  For each of the five difficulties, the puzzle [generatePuzzle]
    returns (nine rows of nine cells) has at most as many empty cells as
    the table allows: 38, 46, 53, 59 and 64. *)
Theorem generatePuzzle_removes_at_most_target (d : Difficulty) (g : Rng) :
  ∃ gen g',
    generatePuzzle (difficultyName d) g = Some (gen, g') ∧
    wf (puzzle gen) ∧
    emptyCount (puzzle gen) ≤
      match d with
      | easy => 38 | medium => 46 | hard => 53 | expert => 59 | master => 64
      end.
Proof.
  destruct (generatePuzzle_runs (difficultyName d) g)
    as (s & g1 & cells0 & g2 & st & _ & _ & Hwf & Hvalid & _ & Hloop & Hgen
        & Hinv).
  exists (mkGenerated (grid st) s st), g2. split; [done|]. simpl.
  split; [by destruct Hinv|].
  rewrite lookup_recognized in Hloop.
  set (K := match d with
            | easy => 38 | medium => 46 | hard => 53 | expert => 59 | master => 64
            end) in *.
  apply (removeCells_budget K) in Hloop as (k & _ & Hle); [lia|].
  exists K. simpl. split; [by destruct d|].
  rewrite emptyCount_full by (by apply validComplete_full). lia.
Qed.

(** C8.  The removal loop ends within 81 iterations (the bound
    [generatePuzzle] gives it), having made at most 81 uniqueness checks,
    no cell checked twice: the cells checked and the cells left in the
    list are together the 81 shuffled cells, each counted once, so every
    iteration used up one cell whether or not its removal was kept. *)
Theorem generatePuzzle_at_most_81_checks (diff : string) (g : Rng) :
  ∃ gen g',
    generatePuzzle diff g = Some (gen, g') ∧
    length (checks (final gen)) ≤ 81 ∧
    NoDup (checks (final gen)) ∧
    cells (final gen) ++ rev (checks (final gen)) ≡ₚ allCells ∧
    length (cells (final gen)) + length (checks (final gen)) = 81.
Proof.
  destruct (generatePuzzle_runs diff g)
    as (s & g1 & cells0 & g2 & st & _ & _ & Hwf & Hvalid & Hperm & _ & Hgen & Hinv).
  destruct Hinv as [_ _ _ Hcells].
  exists (mkGenerated (grid st) s st), g2. simpl.
  rewrite Hcells in Hperm.
  assert (length (cells st) + length (checks st) = 81) as Hlen.
  { apply Permutation_length in Hperm.
    by rewrite length_app, length_rev, allCells_length in Hperm. }
  assert (NoDup (cells st ++ rev (checks st))) as Hnd.
  { rewrite Hperm, allCells_rowMajor. apply rowMajor_NoDup. }
  apply NoDup_app in Hnd as (_ & _ & Hnd).
  split_and!; [done|lia| |done..].
  apply (NoDup_Permutation_proper _ _ (Permutation_rev (checks st))). done.
Qed.

(** ** The difficulty lookup *)

Lemma difficultyMap_unknown diff :
  (∀ d, diff ≠ difficultyName d) → difficultyMap !! diff = None.
Proof.
  intros Hne. unfold difficultyMap.
  rewrite !lookup_insert_ne, lookup_empty; [done|..]; intros <-.
  - by apply (Hne master).
  - by apply (Hne expert).
  - by apply (Hne hard).
  - by apply (Hne medium).
  - by apply (Hne easy).
Qed.

(** A name that is neither in the table nor inherited falls back to 46. *)
Lemma lookup_fallback diff :
  (∀ d, diff ≠ difficultyName d) → diff ∉ objectPrototypeKeys →
  orElse (lookupDifficulty diff) (VNumber 46) = VNumber 46.
Proof.
  intros Hne Hproto. unfold lookupDifficulty.
  rewrite difficultyMap_unknown by done.
  by rewrite bool_decide_eq_false_2.
Qed.

Lemma generatePuzzle_fallback diff g :
  (∀ d, diff ≠ difficultyName d) → diff ∉ objectPrototypeKeys →
  generatePuzzle diff g = generatePuzzle "medium" g.
Proof.
  intros Hne Hproto. unfold generatePuzzle.
  rewrite lookup_fallback by done.
  by change (orElse (lookupDifficulty "medium") (VNumber 46)) with (VNumber 46).
Qed.

(** An inherited name finds a function (or the prototype object), which
    is truthy, so [|| 46] does not replace it. *)
Lemma lookup_inherited diff :
  diff ∈ objectPrototypeKeys →
  orElse (lookupDifficulty diff) (VNumber 46) = VObject.
Proof.
  intros Hin. unfold objectPrototypeKeys in Hin.
  repeat (apply elem_of_cons in Hin as [->|Hin]; [reflexivity|]).
  by apply elem_of_nil in Hin.
Qed.

Lemma removeCells_keeps_empty fuel st st' :
  (wf (grid st) ∧ ∃ r c, r < 9 ∧ c < 9 ∧ get (grid st) r c = 0) →
  removeCells fuel st = Some st' →
  wf (grid st') ∧ ∃ r c, r < 9 ∧ c < 9 ∧ get (grid st') r c = 0.
Proof.
  apply (removeCells_invariant
           (λ x, wf (grid x) ∧ ∃ r c, r < 9 ∧ c < 9 ∧ get (grid x) r c = 0)).
  - intros st0 r c cells' (Hwf & r0 & c0 & Hr0 & Hc0 & Hz) _ _ _. simpl.
    split; [by apply set_wf|]. exists r0, c0. split_and!; [done..|].
    destruct (decide ((r, c) = (r0, c0))) as [[= -> ->]|Hne].
    + by apply get_set_eq.
    + by rewrite get_set_ne.
  - by intros st0 r c cells' HP _ _ _.
Qed.

(** With target 46 the first removal is always kept, so the puzzle has an
    empty cell. *)
Lemma removeCells_46_removes s cells0 st :
  wf s → validComplete s → cells0 ≡ₚ allCells →
  removeCells 81 (mkLoop s cells0 (VNumber 46) []) = Some st →
  ∃ r c, r < 9 ∧ c < 9 ∧ get (grid st) r c = 0.
Proof.
  intros Hwf Hvalid Hperm. rewrite removeCells_step.
  cbn [cells cellsToRemove grid checks gtZero].
  assert (0 < length cells0) as Hpos.
  { rewrite (Permutation_length Hperm), allCells_length. lia. }
  rewrite (proj2 (Nat.ltb_lt _ _) Hpos).
  change (0 <? 46) with true. cbn [andb].
  destruct (pop_nonempty _ Hpos) as [[[r c] cells'] Hpop]. rewrite Hpop.
  apply pop_Some in Hpop.
  assert (r < 9 ∧ c < 9) as [Hr Hc].
  { apply rowMajor_spec. rewrite <- allCells_rowMajor, <- Hperm, Hpop.
    apply elem_of_app. right. left. }
  rewrite single_removal_unique by done.
  intros Hrun. apply removeCells_keeps_empty in Hrun as [_ Hempty]; [done|].
  simpl. split; [by apply set_wf|]. exists r, c. split_and!; [done..|].
  by apply get_set_eq.
Qed.

(** C9, on the code.  The name ["constructor"], which is not one of the
    five difficulties, does not fall back to the target 46: no cell is
    removed and the puzzle returned is the full solution, whereas
    generation with target 46 from the same random source returns the
    same solution with at least one cell removed. *)
Theorem generatePuzzle_inherited_key (g : Rng) :
  ∃ gen g' gen46 g46,
    generatePuzzle "constructor" g = Some (gen, g') ∧
    generatePuzzle "medium" g = Some (gen46, g46) ∧
    solution gen = solution gen46 ∧
    puzzle gen = solution gen ∧
    checks (final gen) = [] ∧
    full (puzzle gen) ∧
    (∃ r c, r < 9 ∧ c < 9 ∧ get (puzzle gen46) r c = 0).
Proof.
  destruct (generatePuzzle_runs "constructor" g)
    as (s & g1 & cells0 & g2 & st & Hsolve & Hsh & Hwf & Hvalid & Hperm
        & Hloop & Hgen & _).
  destruct (generatePuzzle_runs "medium" g)
    as (s' & g1' & cells0' & g2' & st' & Hsolve' & Hsh' & _ & _ & _
        & Hloop' & Hgen' & _).
  rewrite Hsolve in Hsolve'. injection Hsolve' as <- <-.
  rewrite Hsh in Hsh'. injection Hsh' as <- <-.
  rewrite lookup_inherited in Hloop by (by left).
  rewrite removeCells_skipped in Hloop by done. injection Hloop as <-.
  change (orElse (lookupDifficulty "medium") (VNumber 46)) with (VNumber 46)
    in Hloop'.
  eexists _, _, _, _. split; [exact Hgen|]. split; [exact Hgen'|]. simpl.
  split_and!; [done..|by apply validComplete_full|].
  by eapply removeCells_46_removes.
Qed.

(** ** The uniqueness check on a store *)

Lemma untouched_refl b h : untouched b h h.
Proof. by split. Qed.

Lemma untouched_trans b h1 h2 h3 :
  untouched b h1 h2 → untouched b h2 h3 → untouched b h1 h3.
Proof.
  intros [Hl1 H1] [Hl2 H2]. split; [congruence|].
  intros a Ha. by rewrite H2, H1.
Qed.

(** An assignment writes to a row of the board it goes through. *)
Lemma store_set_untouched h b r c v :
  r < length b → untouched b h (Store.set h b r c v).
Proof.
  intros Hr. unfold Store.set. split; [by rewrite length_insert|].
  intros a Ha. apply list_lookup_insert_ne. intros <-.
  by apply Ha, list_elem_of_lookup_total_2.
Qed.

Lemma store_firstEmptyIndex_Some h b i :
  Store.firstEmptyIndex h b = Some i →
  i / 9 < 9 ∧ i mod 9 < 9 ∧ Store.get h b (i / 9) (i mod 9) = 0.
Proof.
  intros H. apply find_some in H as [Hin Hz].
  apply in_seq in Hin. apply Nat.eqb_eq in Hz. lia.
Qed.

(** One level of [find] on the store. *)
Lemma store_find_step fuel b h n :
  Store.find (S fuel) b h n =
  match Store.firstEmptyIndex h b with
  | None => Some (h, S n)
  | Some i =>
      match Store.countLoop (Store.find fuel b) b (i / 9) (i mod 9)
              (seq 1 9) h n with
      | None => None
      | Some (h', n') => Some (Store.set h' b (i / 9) (i mod 9) 0, n')
      end
  end.
Proof. reflexivity. Qed.

Lemma store_countLoop_untouched rec b r c nums h n h' n' :
  (∀ h n h' n', rec h n = Some (h', n') → untouched b h h') →
  r < length b →
  Store.countLoop rec b r c nums h n = Some (h', n') → untouched b h h'.
Proof.
  intros Hrec Hr. revert h n.
  induction nums as [|num rest IH]; intros h n; simpl.
  - intros [= <- <-]. apply untouched_refl.
  - destruct (n <=? 1); [|intros [= <- <-]; apply untouched_refl].
    destruct (Store.isValid h b r c num); [|by apply IH].
    destruct (rec _ n) as [[h1 n1]|] eqn:Hcall; [|done].
    intros Hrun. apply Hrec in Hcall. apply IH in Hrun.
    eapply untouched_trans; [|exact Hrun].
    eapply untouched_trans; [|exact Hcall]. by apply store_set_untouched.
Qed.

(** [find] writes to the rows of the board it is given, and to nothing
    else. *)
Lemma store_find_untouched fuel b h n h' n' :
  length b = 9 →
  Store.find fuel b h n = Some (h', n') → untouched b h h'.
Proof.
  intros Hlen. revert h n h' n'.
  induction fuel as [|fuel IH]; intros h n h' n'; [done|].
  rewrite store_find_step.
  destruct (Store.firstEmptyIndex h b) as [i|] eqn:Hfirst;
    [|intros [= <- <-]; apply untouched_refl].
  apply store_firstEmptyIndex_Some in Hfirst as (Hr & _ & _).
  assert (i / 9 < length b) as Hr' by lia. clear Hr. revert Hr'.
  generalize (i / 9) (i mod 9). intros r c Hr.
  destruct (Store.countLoop _ _ _ _ _ h n) as [[h1 n1]|] eqn:Hloop; [|done].
  intros [= <- <-].
  apply store_countLoop_untouched in Hloop; [|exact IH|done].
  eapply untouched_trans; [exact Hloop|]. by apply store_set_untouched.
Qed.

(** ** The store version refines the value version *)

Lemma store_get_read h b r c :
  r < length b → Store.get h b r c = get (Store.read h b) r c.
Proof.
  intros Hr. unfold Store.get, get, Store.read.
  by rewrite (list_lookup_total_fmap (fun a => h !!! a) b r Hr).
Qed.

Lemma store_read_length h b : length (Store.read h b) = length b.
Proof. apply length_fmap. Qed.

Lemma store_set_valid h b r c v :
  Store.valid h b → Store.valid (Store.set h b r c v) b.
Proof.
  intros (Hlen & Hnd & Hin). split_and!; [done..|].
  intros a Ha. unfold Store.set. rewrite length_insert. by apply Hin.
Qed.

Lemma store_read_set h b r c v :
  Store.valid h b → r < 9 →
  Store.read (Store.set h b r c v) b = set (Store.read h b) r c v.
Proof.
  intros (Hlen & Hnd & Hin) Hr.
  assert (b !!! r < length h) as Haddr.
  { apply Hin, list_elem_of_lookup_total_2. lia. }
  apply (list_eq_same_length _ _ 9).
  { unfold set. by rewrite length_insert, store_read_length. }
  { by rewrite store_read_length. }
  intros i x y Hi Hx Hy.
  unfold Store.read in Hx. rewrite list_lookup_fmap in Hx.
  rewrite (list_lookup_lookup_total_lt b i) in Hx by lia.
  injection Hx as <-. unfold set in Hy.
  destruct (decide (i = r)) as [->|Hne].
  - rewrite list_lookup_insert_eq in Hy by (rewrite store_read_length; lia).
    injection Hy as <-. unfold Store.set, Store.read.
    rewrite list_lookup_total_insert_eq by done.
    by rewrite (list_lookup_total_fmap (fun a => h !!! a) b r) by lia.
  - rewrite list_lookup_insert_ne in Hy by done.
    unfold Store.read in Hy. rewrite list_lookup_fmap in Hy.
    rewrite (list_lookup_lookup_total_lt b i) in Hy by lia.
    injection Hy as <-. unfold Store.set.
    apply list_lookup_total_insert_ne. intros Heq. apply Hne. symmetry.
    apply (NoDup_lookup b r i (b !!! r) Hnd).
    + apply list_lookup_lookup_total_lt. lia.
    + rewrite Heq. apply list_lookup_lookup_total_lt. lia.
Qed.

Lemma existsb_ext_seq (f f' : nat → bool) n :
  (∀ i, i < n → f i = f' i) → existsb f (seq 0 n) = existsb f' (seq 0 n).
Proof.
  intros Hext. apply eq_true_iff_eq. rewrite !existsb_exists.
  split; intros (i & Hin & Hi); exists i; (split; [done|]);
    apply in_seq in Hin; [rewrite <- Hext|rewrite Hext]; done || lia.
Qed.

Lemma store_isValid_read h b row col num :
  length b = 9 → row < 9 → col < 9 →
  Store.isValid h b row col num = isValid (Store.read h b) row col num.
Proof.
  intros Hlen Hrow Hcol. unfold Store.isValid, isValid.
  rewrite (existsb_ext_seq _
    (fun i => (get (Store.read h b) row i =? num)
              || (get (Store.read h b) i col =? num)) 9).
  2: { intros i Hi. by rewrite !store_get_read by lia. }
  destruct (existsb _ (seq 0 9)); [done|]. cbv zeta.
  rewrite (existsb_ext_seq _
    (fun i => existsb
       (fun j => get (Store.read h b) (row / 3 * 3 + i) (col / 3 * 3 + j) =? num)
       (seq 0 3)) 3); [done|].
  intros i Hi. apply existsb_ext_seq. intros j Hj.
  by rewrite store_get_read by lia.
Qed.

Lemma store_firstEmptyIndex_read h b :
  length b = 9 →
  Store.firstEmptyIndex h b = firstEmptyIndex (Store.read h b).
Proof.
  intros Hlen. unfold Store.firstEmptyIndex, firstEmptyIndex.
  assert (∀ l, Forall (fun i => i < 81) l →
    List.find (fun i => Store.get h b (i / 9) (i mod 9) =? 0) l =
    List.find (fun i => get (Store.read h b) (i / 9) (i mod 9) =? 0) l) as Hfind.
  { intros l Hl. induction Hl as [|i l Hi Hl IH]; [done|]. cbn [List.find].
    rewrite store_get_read by lia. by rewrite IH. }
  apply Hfind, Forall_forall. intros i Hi. apply elem_of_seq in Hi. lia.
Qed.

Lemma store_countLoop_agrees rec rec' b r c nums h n :
  (∀ h n, Store.valid h b → agrees b h (rec h n) (rec' (Store.read h b) n)) →
  Store.valid h b → r < 9 → c < 9 →
  agrees b h (Store.countLoop rec b r c nums h n)
             (countLoop rec' r c nums (Store.read h b) n).
Proof.
  intros Hrec Hvalid Hr Hc. revert h n Hvalid.
  induction nums as [|num rest IH]; intros h n Hvalid; simpl; [done|].
  destruct (n <=? 1); [|done].
  rewrite store_isValid_read by (done || by destruct Hvalid).
  destruct (isValid _ r c num); [|by apply IH].
  specialize (Hrec (Store.set h b r c num) n (store_set_valid _ _ _ _ _ Hvalid)).
  rewrite store_read_set in Hrec by done.
  destruct (rec _ n) as [[h1 n1]|], (rec' _ n) as [[b1 m1]|]; try done.
  destruct Hrec as (<- & <- & Hlen1).
  assert (length h1 = length h) as Hlen.
  { rewrite Hlen1. unfold Store.set. by rewrite length_insert. }
  assert (Store.valid h1 b) as Hvalid1.
  { destruct Hvalid as (? & ? & Hin). split_and!; [done..|].
    intros a Ha. rewrite Hlen. by apply Hin. }
  specialize (IH h1 n1 Hvalid1).
  destruct (Store.countLoop _ _ _ _ _ h1 n1) as [[h2 n2]|],
           (countLoop _ _ _ _ _ n1) as [[b2 m2]|]; try done.
  destruct IH as (? & ? & ?). split_and!; [done..|congruence].
Qed.

Lemma store_find_agrees fuel b h n :
  Store.valid h b →
  agrees b h (Store.find fuel b h n) (find fuel (Store.read h b) n).
Proof.
  revert h n. induction fuel as [|fuel IH]; intros h n Hvalid; [done|].
  rewrite find_step, store_find_step.
  rewrite store_firstEmptyIndex_read by (by destruct Hvalid).
  destruct (firstEmptyIndex _) as [i|] eqn:Hfirst; [|done].
  apply firstEmptyIndex_Some in Hfirst as (Hr & Hc & _).
  pose proof (store_countLoop_agrees (Store.find fuel b) (find fuel) b
                (i / 9) (i mod 9) (seq 1 9) h n IH Hvalid Hr Hc) as Hloop.
  destruct (Store.countLoop _ _ _ _ _ h n) as [[h1 n1]|],
           (countLoop _ _ _ _ _ n) as [[b1 m1]|]; try done.
  destruct Hloop as (<- & <- & Hlen).
  assert (Store.valid h1 b) as Hvalid1.
  { destruct Hvalid as (? & ? & Hin). split_and!; [done..|].
    intros a Ha. rewrite Hlen. by apply Hin. }
  split_and!; [by apply store_read_set|done|].
  unfold Store.set. by rewrite length_insert.
Qed.

(** The copy denotes the board that was copied. *)
Lemma store_jsonCopy_read h board :
  length board = 9 →
  Store.valid (Store.jsonCopy h board).1 (Store.jsonCopy h board).2 ∧
  Store.read (Store.jsonCopy h board).1 (Store.jsonCopy h board).2 =
  Store.read h board.
Proof.
  intros Hlen. unfold Store.jsonCopy. simpl. split.
  - split_and!; [by rewrite length_seq|apply NoDup_seq|].
    intros a Ha. apply elem_of_seq in Ha.
    rewrite length_app, store_read_length. lia.
  - apply (list_eq_same_length _ _ 9);
      [by rewrite store_read_length
      |by rewrite store_read_length, length_seq|].
    intros i x y Hi Hx Hy. unfold Store.read at 1 in Hx.
    rewrite list_lookup_fmap, lookup_seq_lt in Hx by lia.
    injection Hx as <-.
    rewrite lookup_total_app_r by lia.
    replace (length h + i - length h) with i by lia.
    by apply list_lookup_total_correct.
Qed.

(** On a valid reference the store version of [hasUniqueSolution] returns
    what the value version returns on the board the reference denotes. *)
Lemma store_hasUniqueSolution_refines h board :
  Store.valid h board →
  match Store.hasUniqueSolution h board with
  | Some (ok, _) => hasUniqueSolution (Store.read h board) = Some ok
  | None => hasUniqueSolution (Store.read h board) = None
  end.
Proof.
  intros Hvalid.
  destruct (store_jsonCopy_read h board) as [Hcopy Hread]; [by destruct Hvalid|].
  unfold Store.hasUniqueSolution, hasUniqueSolution, jsonCopy.
  destruct (Store.jsonCopy h board) as [h1 copy]. simpl in Hcopy, Hread.
  pose proof (store_find_agrees 82 copy h1 0 Hcopy) as Hsim.
  rewrite Hread in Hsim.
  destruct (Store.find 82 copy h1 0) as [[h2 n2]|],
           (find 82 _ 0) as [[b2 m2]|]; try done.
  by destruct Hsim as (_ & <- & _).
Qed.

(** It returns whenever the board has nine rows of nine cells. *)
Lemma store_hasUniqueSolution_total h board :
  Store.valid h board → wf (Store.read h board) →
  is_Some (Store.hasUniqueSolution h board).
Proof.
  intros Hvalid Hwf.
  pose proof (store_hasUniqueSolution_refines h board Hvalid) as Href.
  destruct (Store.hasUniqueSolution h board) as [[ok h']|]; [done|].
  destruct (hasUniqueSolution_total _ Hwf) as [ok Hok]. congruence.
Qed.

(** C7.  A call of [hasUniqueSolution] on a board leaves the board as it
    was: every row the board refers to, and every other array that
    existed before the call, has the same contents afterwards.  The
    search writes to the rows of the copy only, and those are new.  The
    answer is the one the value version gives on the board. *)
Theorem hasUniqueSolution_leaves_board h board ok h' :
  Store.valid h board →
  Store.hasUniqueSolution h board = Some (ok, h') →
  Store.read h' board = Store.read h board ∧
  (∀ a, a < length h → h' !! a = h !! a) ∧
  hasUniqueSolution (Store.read h board) = Some ok.
Proof.
  intros Hvalid Hcall.
  pose proof (store_hasUniqueSolution_refines h board Hvalid) as Href.
  rewrite Hcall in Href.
  destruct Hvalid as (Hlen & _ & Hin).
  unfold Store.hasUniqueSolution, Store.jsonCopy in Hcall.
  destruct (Store.find 82 _ _ 0) as [[h2 n2]|] eqn:Hrun; [|done].
  injection Hcall as <- <-.
  apply store_find_untouched in Hrun as [_ Hkeep]; [|by rewrite length_seq].
  assert (∀ a, a < length h → h2 !! a = h !! a) as Hold.
  { intros a Ha. rewrite Hkeep by (rewrite elem_of_seq; lia).
    by apply lookup_app_l. }
  split_and!; [|done..]. unfold Store.read.
  apply list_fmap_ext. intros i a Ha.
  apply list_elem_of_lookup_2, Hin, Hold in Ha.
  by rewrite !list_lookup_total_alt, Ha.
Qed.

Lemma exampleRef_valid : Store.valid exampleHeap exampleRef.
Proof.
  split_and!; [done|apply (bool_decide_unpack _); by vm_compute|].
  intros a Ha. apply (elem_of_seq 0 9) in Ha. simpl. lia.
Qed.

Lemma hasUniqueSolution_leaves_board_witness :
  ∃ h', Store.hasUniqueSolution exampleHeap exampleRef = Some (true, h') ∧
        Store.read h' exampleRef = Store.read exampleHeap exampleRef ∧
        (∀ a, a < length exampleHeap → h' !! a = exampleHeap !! a) ∧
        hasUniqueSolution (Store.read exampleHeap exampleRef) = Some true.
Proof.
  eexists. split; [vm_compute; reflexivity|].
  eapply (hasUniqueSolution_leaves_board exampleHeap exampleRef true);
    [apply exampleRef_valid|vm_compute; reflexivity].
Defined.

(** * Further properties of the worker *)

(** ** solve decides whether a board has a completion *)

Lemma sound_result_completes b b' :
  partial b' → full b' → extends b b' → completes b b'.
Proof.
  intros (Hwf & Hcons & Hdig) Hfull Hext.
  split_and!; [done| |done]. by apply full_consistent_valid.
Qed.

(** X1.  On a board without conflicts [solve] returns; it reports success
    exactly when the board has a valid completion, and then the board it
    leaves is such a completion (the given cells are kept); on failure
    the board is unchanged. *)
Theorem solve_decides_completability b g :
  partial b →
  ∃ ok b' g',
    solve b g = Some (ok, b', g') ∧
    (ok = true ↔ ∃ s, completes b s) ∧
    (ok = true → completes b b') ∧
    (ok = false → b' = b).
Proof.
  intros Hpart.
  destruct (solve_total b g) as [[[ok b'] g'] Hrun]; [by destruct Hpart|].
  exists ok, b', g'. split; [done|]. unfold solve in Hrun. destruct ok.
  - apply solveF_sound in Hrun as (Hpart' & Hfull & Hext); [|done].
    pose proof (sound_result_completes b b' Hpart' Hfull Hext) as Hcompl.
    split_and!; [|done..]. split; [eauto|done].
  - split_and!; [|done|intros _; by eapply solveF_restores].
    split; [done|]. intros [s Hs]. exfalso.
    by apply (solveF_complete 82 b g b' g' s (proj1 Hpart) Hrun).
Qed.

Lemma solve_decides_completability_witness :
  ∃ ok b' g',
    solve (set emptyGrid 0 0 5) countingRng = Some (ok, b', g') ∧
    (ok = true ↔ ∃ s, completes (set emptyGrid 0 0 5) s) ∧
    (ok = true → completes (set emptyGrid 0 0 5) b') ∧
    (ok = false → b' = set emptyGrid 0 0 5).
Proof.
  apply (solve_decides_completability (set emptyGrid 0 0 5) countingRng).
  apply place_partial; [apply emptyGrid_partial|lia..|reflexivity].
Defined.

(** ** hasUniqueSolution is exact *)

Lemma completes_of_placed b r c num s :
  wf b → r < 9 → c < 9 → num ≠ 0 → get b r c = 0 →
  completes (set b r c num) s → completes b s ∧ get s r c = num.
Proof.
  intros Hwf Hr Hc Hnum Hz (Hwfs & Hv & Hext). split.
  - split_and!; [done..|]. by eapply extends_place.
  - specialize (Hext r c Hr Hc). rewrite get_set_eq in Hext by done.
    symmetry. by apply Hext.
Qed.

Lemma countLoop_found rec r c nums b v n b' n' :
  r < 9 → c < 9 →
  count_restores rec → count_found rec →
  partial b → get b r c = 0 →
  NoDup nums → Forall (fun d => 1 ≤ d ≤ 9) nums → v ∉ nums →
  countLoop rec r c nums (set b r c v) n = Some (b', n') →
  ∃ L, NoDup L ∧ Forall (fun s => completes b s ∧ get s r c ∈ nums) L ∧
       n' = n + length L.
Proof.
  intros Hr Hc Hres Hfound Hpart Hz Hnd Hnums. revert v n Hnd.
  induction Hnums as [|num rest Hnum Hrest IH]; intros v n Hnd Hv;
    cbn [countLoop].
  { intros [= <- <-]. exists []. split_and!; [constructor..|simpl; lia]. }
  apply NoDup_cons in Hnd as [Hfresh Hnd].
  apply not_elem_of_cons in Hv as [Hvnum Hvrest].
  destruct (n <=? 1).
  2: { intros [= <- <-]. exists []. split_and!; [constructor..|simpl; lia]. }
  rewrite isValid_set_self by (done || lia || by destruct Hpart).
  assert (∀ L n0,
    (∃ L2, NoDup L2 ∧ Forall (fun s => completes b s ∧ get s r c ∈ rest) L2 ∧
           n' = n0 + length L2) →
    NoDup L → Forall (fun s => completes b s ∧ get s r c = num) L →
    n0 = n + length L →
    ∃ L', NoDup L' ∧
          Forall (fun s => completes b s ∧ get s r c ∈ num :: rest) L' ∧
          n' = n + length L') as Hjoin.
  { intros L n0 (L2 & Hnd2 & Hall2 & Hn') HndL HallL ->.
    exists (L ++ L2). split_and!.
    - apply NoDup_app. split_and!; [done| |done].
      intros s Hs1 Hs2.
      apply (proj1 (Forall_forall _ _) HallL) in Hs1 as [_ Hs1].
      apply (proj1 (Forall_forall _ _) Hall2) in Hs2 as [_ Hs2].
      apply Hfresh. by rewrite <- Hs1.
    - apply Forall_app. split.
      + eapply Forall_impl; [exact HallL|]. intros s [? ->]. split; [done|left].
      + eapply Forall_impl; [exact Hall2|]. intros s [? ?]. split; [done|by right].
    - rewrite length_app. lia. }
  destruct (isValid b r c num) eqn:Hvalid.
  - rewrite set_set.
    destruct (rec (set b r c num) n) as [[b1 n1]|] eqn:Hcall; [|done].
    pose proof (Hres _ _ _ _ Hcall) as ->. intros Hrun.
    apply Hfound in Hcall as (L1 & Hnd1 & Hall1 & ->);
      [|by apply place_partial].
    apply (Hjoin L1 (n + length L1)); [by apply (IH num)|done| |done].
    eapply Forall_impl; [exact Hall1|]. intros s Hs.
    apply completes_of_placed in Hs; [done|by destruct Hpart|done..|lia|done].
  - intros Hrun. apply (Hjoin [] n); [by apply (IH v)|constructor..|simpl; lia].
Qed.

Lemma find_found fuel : count_found (find fuel).
Proof.
  induction fuel as [|fuel IH]; intros b n b' n' Hpart; [done|].
  rewrite find_step.
  destruct (firstEmptyIndex b) as [i|] eqn:Hfirst.
  - apply firstEmptyIndex_Some in Hfirst as (Hr & Hc & Hz).
    destruct (countLoop _ _ _ _ b n) as [[b1 n1]|] eqn:Hloop; [|done].
    intros [= <- <-].
    rewrite <- (set_empty_id b _ _ Hz) in Hloop.
    apply (countLoop_found _ _ _ _ b) in Hloop as (L & Hnd & Hall & ->);
      [|done|done|apply find_restores|done..|apply NoDup_seq|apply digits_1_9
       |rewrite elem_of_seq; lia].
    exists L. split_and!; [done| |done].
    eapply Forall_impl; [exact Hall|]. by intros s [? _].
  - intros [= <- <-]. apply firstEmptyIndex_None in Hfirst.
    exists [b]. split_and!; [apply NoDup_singleton| |simpl; lia].
    constructor; [|constructor].
    apply sound_result_completes; [done..|apply extends_refl].
Qed.

(** X2.  On a board without conflicts [hasUniqueSolution] returns true exactly
    when the board has one valid completion and no other. *)
Theorem hasUniqueSolution_exact b :
  partial b →
  hasUniqueSolution b = Some true ↔
  ∃ s, completes b s ∧ ∀ s', completes b s' → s' = s.
Proof.
  intros Hpart. pose proof (proj1 Hpart) as Hwf. split.
  - intros Hcheck. pose proof Hcheck as Hcheck'.
    unfold hasUniqueSolution, jsonCopy in Hcheck'.
    destruct (find 82 b 0) as [[b' n']|] eqn:Hrun; [|done].
    injection Hcheck' as Hone. apply Nat.eqb_eq in Hone as ->.
    apply find_found in Hrun as (L & _ & Hall & Hlen); [|done].
    destruct L as [|s [|s2 L]]; simpl in Hlen; [lia| |lia].
    apply Forall_cons in Hall as [Hs _]. exists s. split; [done|].
    intros s' Hs'. by apply (hasUniqueSolution_unique b).
  - intros (s & Hs & Honly). unfold hasUniqueSolution, jsonCopy.
    destruct (find_total 82 b 0 Hwf) as [[b' n'] Hrun].
    { pose proof (emptyCount_bound b). lia. }
    rewrite Hrun. f_equal. apply Nat.eqb_eq.
    pose proof (find_reaches 82 b 0 b' n' [s] Hwf Hrun (NoDup_singleton s)) as Hlow.
    specialize (Hlow ltac:(by constructor)).
    apply find_found in Hrun as (L & Hnd & Hall & ->); [|done].
    assert (length L ≤ 1); [|simpl in Hlow; lia].
    apply (NoDup_all_equal L s); [done|].
    intros s' Hs'. by apply Honly, (proj1 (Forall_forall _ _) Hall).
Qed.




(** ** The removal loop stops at the target or when the cells run out *)

Lemma emptyCount_empty b r c :
  wf b → r < 9 → c < 9 → get b r c ≠ 0 →
  emptyCount (set b r c 0) = S (emptyCount b).
Proof.
  intros Hwf Hr Hc Hfilled.
  rewrite <- (set_restore b r c 0) at 2.
  symmetry. apply emptyCount_fill; [by apply set_wf|done..|by apply get_set_eq|done].
Qed.

(** The loop returns only when its condition is false. *)
Lemma removeCells_exit fuel st st' :
  removeCells fuel st = Some st' →
  (0 <? length (cells st')) && gtZero (cellsToRemove st') = false.
Proof.
  revert st. induction fuel as [|fuel IH]; intros st.
  - simpl.
    destruct ((0 <? length (cells st)) && gtZero (cellsToRemove st)) eqn:Hcond;
      [done|]. by intros [= <-].
  - rewrite removeCells_step.
    destruct ((0 <? length (cells st)) && gtZero (cellsToRemove st)) eqn:Hcond;
      [|by intros [= <-]].
    destruct (pop (cells st)) as [[[r c] cells']|]; [|done].
    destruct (hasUniqueSolution _) as [[]|]; [| |done]; apply IH.
Qed.

Lemma removeCells_exactBudget K fuel st st' :
  exactBudget K st → removeCells fuel st = Some st' → exactBudget K st'.
Proof.
  apply (removeCells_invariant (exactBudget K)).
  - intros st0 r c cells' (Hwf & Hnd & Hfilled & k & Hk & Hsum) Hpop Hgt _.
    rewrite Hpop in Hnd, Hfilled.
    apply NoDup_app in Hnd as (Hnd & Hsep & _).
    destruct (Hfilled r c) as (Hr & Hc & Hcell).
    { apply elem_of_app. right. left. }
    rewrite Hk in Hgt |- *. simpl in Hgt. apply Nat.ltb_lt in Hgt.
    split_and!; simpl.
    + by apply set_wf.
    + done.
    + intros r1 c1 Hin. destruct (Hfilled r1 c1) as (? & ? & ?).
      { apply elem_of_app. by left. }
      split_and!; [done..|]. rewrite get_set_ne; [done|].
      intros [= -> ->]. apply (Hsep _ Hin). left.
    + exists (k - 1). split; [done|]. rewrite emptyCount_empty by done. lia.
  - intros st0 r c cells' (Hwf & Hnd & Hfilled & Hk) Hpop _ _.
    rewrite Hpop in Hnd, Hfilled.
    apply NoDup_app in Hnd as (Hnd & _ & _).
    split_and!; simpl; [done..| |done].
    intros r1 c1 Hin. apply Hfilled, elem_of_app. by left.
Qed.

(** X4.  For each of the five difficulties the puzzle has exactly the target
    number of empty cells, unless every one of the 81 cells was tried; in
    that case it has fewer. *)
Theorem generatePuzzle_target_or_exhausted (d : Difficulty) (g : Rng) :
  ∃ gen g',
    generatePuzzle (difficultyName d) g = Some (gen, g') ∧
    let target := match d with
                  | easy => 38 | medium => 46 | hard => 53
                  | expert => 59 | master => 64
                  end in
    emptyCount (puzzle gen) = target ∨
    (emptyCount (puzzle gen) < target ∧
     cells (final gen) = [] ∧ length (checks (final gen)) = 81).
Proof.
  destruct (generatePuzzle_runs (difficultyName d) g)
    as (s & g1 & cells0 & g2 & st & _ & _ & Hwf & Hvalid & Hperm & Hloop & Hgen
        & Hinv).
  exists (mkGenerated (grid st) s st), g2. split; [done|]. simpl.
  rewrite lookup_recognized in Hloop.
  set (K := match d with
            | easy => 38 | medium => 46 | hard => 53 | expert => 59 | master => 64
            end) in *.
  pose proof (removeCells_exit _ _ _ Hloop) as Hexit.
  apply (removeCells_exactBudget K) in Hloop as (_ & _ & _ & k & Hk & Hsum).
  - rewrite Hk in Hexit. simpl in Hexit.
    apply andb_false_iff in Hexit as [Hnone|Hzero].
    + apply Nat.ltb_ge in Hnone.
      destruct (decide (k = 0)) as [->|Hk0]; [left; lia|]. right.
      assert (cells st = []) as Hcells by (apply length_zero_iff_nil; lia).
      split_and!; [lia|done|].
      destruct Hinv as [_ _ _ Hall]. rewrite Hcells in Hall. simpl in Hall.
      rewrite <- length_rev, <- Hall, (Permutation_length Hperm).
      apply allCells_length.
    + apply Nat.ltb_ge in Hzero. left. lia.
  - split_and!; simpl.
    + done.
    + rewrite Hperm, allCells_rowMajor. apply rowMajor_NoDup.
    + intros r c Hin. rewrite Hperm, allCells_rowMajor in Hin.
      apply rowMajor_spec in Hin as [Hr Hc].
      split_and!; [done..|]. by apply validComplete_full.
    + exists K. split; [by destruct d|].
      by rewrite emptyCount_full by (by apply validComplete_full).
Qed.

Lemma partial_clear b r c : partial b → partial (set b r c 0).
Proof.
  intros (Hwf & Hcons & Hdig).
  assert (∀ r1 c1, r1 < 9 → c1 < 9 →
    get (set b r c 0) r1 c1 = 0 ∨ get (set b r c 0) r1 c1 = get b r1 c1) as Hget.
  { intros r1 c1 Hr1 Hc1.
    destruct (decide ((r, c) = (r1, c1))) as [[= <- <-]|Hne].
    - left. by apply get_set_eq.
    - right. by apply get_set_ne. }
  split_and!.
  - by apply set_wf.
  - intros r1 c1 r2 c2 Hr1 Hc1 Hr2 Hc2 Hne Hsees Hfilled.
    destruct (Hget r1 c1 Hr1 Hc1) as [H1|H1]; [done|].
    rewrite H1 in Hfilled |- *.
    destruct (Hget r2 c2 Hr2 Hc2) as [H2|H2]; rewrite H2; [done|].
    by apply Hcons.
  - intros r1 c1 Hr1 Hc1.
    destruct (Hget r1 c1 Hr1 Hc1) as [H1|H1]; rewrite H1; [lia|by apply Hdig].
Qed.

Lemma validComplete_partial s : wf s → validComplete s → partial s.
Proof.
  intros Hwf Hv. split_and!; [done|by apply validComplete_consistent|].
  intros r c Hr Hc. pose proof (validComplete_digits s r c Hv Hr Hc). lia.
Qed.

Lemma hasUniqueSolution_exact_witness :
  hasUniqueSolution (set knownSolution 4 7 0) = Some true ↔
  ∃ s, completes (set knownSolution 4 7 0) s ∧
       ∀ s', completes (set knownSolution 4 7 0) s' → s' = s.
Proof.
  apply (hasUniqueSolution_exact (set knownSolution 4 7 0)).
  apply partial_clear, validComplete_partial;
    [apply knownSolution_wf|apply knownSolution_valid].
Defined.

(** * Properties of the game *)

(** ** Sets of pencil marks *)

Lemma setAdd_NoDup s n : NoDup s → NoDup (Game.setAdd s n).
Proof.
  intros Hnd. unfold Game.setAdd, Game.setHas. case_bool_decide; [done|].
  apply NoDup_app. split_and!; [done| |apply NoDup_singleton].
  intros x Hx Hn. apply list_elem_of_singleton in Hn as ->. done.
Qed.

Lemma setDelete_NoDup s n : NoDup s → NoDup (Game.setDelete s n).
Proof. intros Hnd. by apply NoDup_filter. Qed.

Lemma foldl_setAdd acc l :
  NoDup (acc ++ l) → foldl Game.setAdd acc l = acc ++ l.
Proof.
  revert acc. induction l as [|x l IH]; intros acc Hnd; simpl.
  - by rewrite app_nil_r.
  - assert (x ∉ acc) as Hx.
    { apply NoDup_app in Hnd as (_ & Hsep & _). intros Hin.
      apply (Hsep x Hin). left. }
    unfold Game.setAdd at 2, Game.setHas. rewrite bool_decide_eq_false_2 by done.
    rewrite IH; rewrite <- app_assoc; done.
Qed.

(** A set written out as an array and built again is the same set. *)
Lemma setOfArray_id s : NoDup s → Game.setOfArray s = s.
Proof. intros Hnd. unfold Game.setOfArray. by rewrite foldl_setAdd. Qed.

Lemma notesOfArrays_id notes :
  Game.notesDistinct notes → Game.notesOfArrays notes = notes.
Proof.
  intros Hnd. unfold Game.notesOfArrays.
  induction Hnd as [|row rows Hrow Hrows IH]; [done|]. simpl. f_equal; [|done].
  clear -Hrow. induction Hrow as [|s row Hs Hrow IH]; [done|]. simpl.
  by rewrite setOfArray_id, IH.
Qed.

Lemma foldl_setAdd_NoDup acc l : NoDup acc → NoDup (foldl Game.setAdd acc l).
Proof.
  revert acc. induction l as [|x l IH]; intros acc Hnd; simpl; [done|].
  by apply IH, setAdd_NoDup.
Qed.

Lemma notesOfArrays_distinct arrays :
  Game.notesDistinct (Game.notesOfArrays arrays).
Proof.
  unfold Game.notesDistinct, Game.notesOfArrays.
  apply Forall_forall. intros row Hrow.
  apply list_elem_of_In, in_map_iff in Hrow as (row' & <- & _).
  apply Forall_forall. intros s Hs.
  apply list_elem_of_In, in_map_iff in Hs as (l & <- & _).
  apply foldl_setAdd_NoDup. constructor.
Qed.

Lemma notesAt_NoDup notes r c :
  Game.notesDistinct notes → NoDup (Game.notesAt notes r c).
Proof.
  intros Hnd. unfold Game.notesAt.
  assert (Forall NoDup (notes !!! r)) as Hrow.
  { destruct (decide (r < length notes)) as [Hr|Hr].
    - by apply (Forall_lookup_total_1 _ _ _ Hnd).
    - rewrite list_lookup_total_alt, lookup_ge_None_2 by lia. constructor. }
  destruct (decide (c < length (notes !!! r))) as [Hc|Hc].
  - by apply (Forall_lookup_total_1 _ _ _ Hrow).
  - rewrite list_lookup_total_alt, lookup_ge_None_2 by lia. constructor.
Qed.

Lemma setNotesAt_distinct notes r c s :
  Game.notesDistinct notes → NoDup s →
  Game.notesDistinct (Game.setNotesAt notes r c s).
Proof.
  intros Hnd Hs. unfold Game.setNotesAt.
  destruct (decide (r < length notes)) as [Hr|Hr].
  - apply Forall_insert; [done|].
    pose proof (Forall_lookup_total_1 _ _ _ Hnd Hr) as Hrow.
    destruct (decide (c < length (notes !!! r))) as [Hc|Hc].
    + by apply Forall_insert.
    + by rewrite list_insert_ge by lia.
  - by rewrite list_insert_ge by lia.
Qed.

Lemma emptyNotes_distinct : Game.notesDistinct Game.emptyNotes.
Proof. repeat constructor. Qed.

Lemma cleared_notes_distinct (notes : list (list (list nat))) :
  Game.notesDistinct (map (map (fun _ => [])) notes).
Proof.
  apply Forall_forall. intros row Hrow.
  apply list_elem_of_In, in_map_iff in Hrow as (row' & <- & _).
  apply Forall_forall. intros s Hs.
  apply list_elem_of_In, in_map_iff in Hs as (l & <- & _). constructor.
Qed.

(** ** Reading cells *)

Lemma lookupCell_Some b r c v :
  wf b → Game.lookupCell b r c = Some v ↔ r < 9 ∧ c < 9 ∧ get b r c = v.
Proof.
  intros Hwf. unfold Game.lookupCell, get. split.
  - destruct (b !! r) as [row|] eqn:Hrow; [|done]. intros Hv.
    pose proof (lookup_lt_Some _ _ _ Hrow) as Hr.
    replace (length b) with 9 in Hr by (by destruct Hwf).
    apply list_lookup_total_correct in Hrow. subst row.
    pose proof (lookup_lt_Some _ _ _ Hv) as Hc.
    rewrite wf_row in Hc by done.
    split_and!; [done..|]. by apply list_lookup_total_correct.
  - intros (Hr & Hc & <-).
    rewrite (list_lookup_lookup_total_lt b r) by (destruct Hwf; lia).
    apply list_lookup_lookup_total_lt. by rewrite wf_row.
Qed.

(** The win test compares every cell of the grid with the solution. *)
Lemma isSolved_spec grid s :
  wf grid →
  Game.isSolved grid s = true ↔
  ∀ r c, r < 9 → c < 9 → get grid r c = get s r c ∧ get grid r c ≠ 0.
Proof.
  intros Hwf. unfold Game.isSolved. rewrite forallb_forall. split.
  - intros Hall r c Hr Hc.
    specialize (Hall (r, grid !!! r)). cbv beta iota in Hall.
    rewrite forallb_forall in Hall.
    specialize (Hall ltac:(
      apply list_elem_of_In, elem_of_lookup_imap; exists r, (grid !!! r);
      split; [done|]; apply list_lookup_lookup_total_lt; destruct Hwf; lia)).
    specialize (Hall (c, get grid r c)). cbv beta iota in Hall.
    specialize (Hall ltac:(
      apply list_elem_of_In, elem_of_lookup_imap; exists c, (get grid r c);
      split; [done|]; apply list_lookup_lookup_total_lt;
      by rewrite wf_row)).
    apply andb_true_iff in Hall as [Heq Hnz].
    apply Nat.eqb_eq in Heq. apply negb_true_iff, Nat.eqb_neq in Hnz. done.
  - intros Hall [r row] Hin.
    apply list_elem_of_In, elem_of_lookup_imap in Hin as (r' & row' & [= <- <-] & Hrow).
    pose proof (lookup_lt_Some _ _ _ Hrow) as Hr.
    replace (length grid) with 9 in Hr by (by destruct Hwf).
    apply list_lookup_total_correct in Hrow. subst row.
    apply forallb_forall. intros [c cell] Hin.
    apply list_elem_of_In, elem_of_lookup_imap in Hin as (c' & cell' & [= <- <-] & Hcell).
    pose proof (lookup_lt_Some _ _ _ Hcell) as Hc.
    rewrite wf_row in Hc by done.
    apply list_lookup_total_correct in Hcell.
    destruct (Hall r c Hr Hc) as [Heq Hnz]. unfold get in Heq, Hnz at 1.
    rewrite Hcell in Heq, Hnz.
    apply andb_true_iff. split; [by apply Nat.eqb_eq|].
    by apply negb_true_iff, Nat.eqb_neq.
Qed.

Lemma isSolved_equal grid s :
  wf grid → wf s → Game.isSolved grid s = true → grid = s.
Proof.
  intros Hwf Hwfs Hsolved. apply board_ext; [done..|].
  intros r c Hr Hc. by apply (proj1 (isSolved_spec grid s Hwf) Hsolved).
Qed.

Lemma isSolved_refl s : wf s → full s → Game.isSolved s s = true.
Proof.
  intros Hwf Hfull. apply isSolved_spec; [done|].
  intros r c Hr Hc. split; [done|by apply Hfull].
Qed.

(** ** Moving the selection with the arrow keys *)

Lemma wrap_bound x d : Game.wrap x d < 9.
Proof. unfold Game.wrap. lia. Qed.

Lemma wrap_zero x : x < 9 → Game.wrap x 0 = x.
Proof. unfold Game.wrap. lia. Qed.

(** The cell [k] steps along the line from [x]; a step of -1 is a step of
    8, as the line has nine cells. *)
Lemma wrap_steps x d k :
  (d = -1 ∨ d = 0 ∨ d = 1)%Z →
  Game.wrap ((x + k * Z.to_nat (d + 9)) mod 9) d
  = (x + (k + 1) * Z.to_nat (d + 9)) mod 9.
Proof.
  unfold Game.wrap.
  intros [-> | [-> | ->]]; rewrite Z.rem_mod_nonneg by lia;
    [change (Z.to_nat (-1 + 9)) with 8|change (Z.to_nat (0 + 9)) with 9|
     change (Z.to_nat (1 + 9)) with 10]; lia.
Qed.

Lemma wrap_first x d :
  x < 9 → (d = -1 ∨ d = 0 ∨ d = 1)%Z →
  Game.wrap x d = (x + 1 * Z.to_nat (d + 9)) mod 9.
Proof.
  unfold Game.wrap.
  intros Hx [-> | [-> | ->]]; rewrite Z.rem_mod_nonneg by lia;
    [change (Z.to_nat (-1 + 9)) with 8|change (Z.to_nat (0 + 9)) with 9|
     change (Z.to_nat (1 + 9)) with 10]; lia.
Qed.

Lemma wrap_nine x d :
  x < 9 → (d = -1 ∨ d = 0 ∨ d = 1)%Z → (x + 9 * Z.to_nat (d + 9)) mod 9 = x.
Proof.
  intros Hx [-> | [-> | ->]];
    [change (Z.to_nat (-1 + 9)) with 8|change (Z.to_nat (0 + 9)) with 9|
     change (Z.to_nat (1 + 9)) with 10]; lia.
Qed.

Lemma keyMap_steps a :
  ((Game.keyMap a).1 = -1 ∨ (Game.keyMap a).1 = 0 ∨ (Game.keyMap a).1 = 1)%Z ∧
  ((Game.keyMap a).2 = -1 ∨ (Game.keyMap a).2 = 0 ∨ (Game.keyMap a).2 = 1)%Z.
Proof. destruct a; simpl; lia. Qed.

(** The loop ends: after nine steps it is back where it started. *)
Lemma skipGivens_total fuel init row col dr dc k :
  row < 9 → col < 9 →
  (dr = -1 ∨ dr = 0 ∨ dr = 1)%Z → (dc = -1 ∨ dc = 0 ∨ dc = 1)%Z →
  1 ≤ k ≤ 8 → 9 ≤ k + fuel →
  is_Some (Game.skipGivens fuel init row col dr dc
             ((row + k * Z.to_nat (dr + 9)) mod 9)
             ((col + k * Z.to_nat (dc + 9)) mod 9)).
Proof.
  intros Hrow Hcol Hdr Hdc. revert k.
  induction fuel as [|fuel IH]; intros k Hk Hfuel; [lia|].
  cbn [Game.skipGivens]. destruct (negb _); [|done]. cbv zeta.
  rewrite !wrap_steps by done.
  destruct (_ && _) eqn:Hback; [done|].
  destruct (decide (k = 8)) as [->|Hne].
  - change (8 + 1) with 9 in Hback. rewrite !wrap_nine in Hback by done.
    by rewrite !Nat.eqb_refl in Hback.
  - apply IH; lia.
Qed.

Lemma skipGivens_result fuel init row col dr dc newRow newCol r c :
  newRow < 9 → newCol < 9 →
  Game.skipGivens fuel init row col dr dc newRow newCol = Some (r, c) →
  r < 9 ∧ c < 9 ∧ (get init r c = 0 ∨ (r, c) = (row, col)) ∧
  (dr = 0%Z → r = newRow) ∧ (dc = 0%Z → c = newCol).
Proof.
  revert newRow newCol.
  induction fuel as [|fuel IH]; intros newRow newCol Hr Hc; cbn [Game.skipGivens].
  - destruct (negb _) eqn:Hgiven; [done|]. intros [= <- <-].
    apply negb_false_iff, Nat.eqb_eq in Hgiven.
    split_and!; [done|done|by left|done|done].
  - destruct (negb _) eqn:Hgiven.
    + cbv zeta. destruct (_ && _) eqn:Hback.
      * intros [= <- <-]. apply andb_true_iff in Hback as [H1 H2].
        apply Nat.eqb_eq in H1, H2.
        split_and!; [apply wrap_bound..| | |].
        -- right. by rewrite H1, H2.
        -- intros ->. by apply wrap_zero.
        -- intros ->. by apply wrap_zero.
      * intros Hrun.
        apply IH in Hrun as (? & ? & ? & Hsame1 & Hsame2); [|apply wrap_bound..].
        split_and!; [done..| |].
        -- intros ->. rewrite Hsame1 by done. by apply wrap_zero.
        -- intros ->. rewrite Hsame2 by done. by apply wrap_zero.
    + intros [= <- <-].
      apply negb_false_iff, Nat.eqb_eq in Hgiven.
    split_and!; [done|done|by left|done|done].
Qed.

(** An arrow key moves the selection, within its row or column, to a
    cell that is not a given, or leaves it where it is. *)
Lemma arrow_moves a row col init :
  row < 9 → col < 9 →
  ∃ r c,
    Game.skipGivens 9 init row col (Game.keyMap a).1 (Game.keyMap a).2
      (Game.wrap row (Game.keyMap a).1) (Game.wrap col (Game.keyMap a).2)
    = Some (r, c) ∧
    r < 9 ∧ c < 9 ∧ (get init r c = 0 ∨ (r, c) = (row, col)) ∧
    ((Game.keyMap a).1 = 0%Z → r = row) ∧ ((Game.keyMap a).2 = 0%Z → c = col).
Proof.
  intros Hrow Hcol. destruct (keyMap_steps a) as [Hdr Hdc].
  destruct (skipGivens_total 9 init row col _ _ 1 Hrow Hcol Hdr Hdc)
    as [[r c] Hrun]; [lia..|].
  rewrite <- !wrap_first in Hrun by done.
  exists r, c. split; [done|].
  apply skipGivens_result in Hrun as (? & ? & ? & H1 & H2); [|apply wrap_bound..].
  split_and!; [done..| |].
  - intros Hz. rewrite H1 by done. rewrite Hz. by apply wrap_zero.
  - intros Hz. rewrite H2 by done. rewrite Hz. by apply wrap_zero.
Qed.

(** ** What every event keeps true *)

Lemma givensKept_refl p : Game.givensKept p p.
Proof. by intros r c. Qed.

Lemma givensKept_set p b r c v :
  get p r c = 0 → Game.givensKept p b → Game.givensKept p (set b r c v).
Proof.
  intros Hz Hk r' c' Hr Hc Hne. rewrite get_set_ne; [by apply Hk|].
  intros [= -> ->]. done.
Qed.

Lemma givensKept_solution p s : extends p s → Game.givensKept p s.
Proof. intros Hext r c Hr Hc Hne. symmetry. by apply Hext. Qed.

Lemma randomIndex_bound bound g : 0 < bound → (randomIndex bound g).1 < bound.
Proof. intros Hb. unfold randomIndex. simpl. lia. Qed.

(** The cell a hint fills is an empty cell of the grid. *)
Lemma hint_cell b g i g' row col :
  let emptyCells := List.filter (fun '(r, c) => get b r c =? 0) rowMajor in
  0 < length emptyCells →
  randomIndex (length emptyCells) g = (i, g') →
  emptyCells !!! i = (row, col) →
  row < 9 ∧ col < 9 ∧ get b row col = 0.
Proof.
  intros emptyCells Hne Hri Hcell.
  pose proof (randomIndex_bound _ g Hne) as Hi. rewrite Hri in Hi. simpl in Hi.
  assert ((row, col) ∈ emptyCells) as Hin.
  { rewrite <- Hcell. by apply list_elem_of_lookup_total_2. }
  apply list_elem_of_In, filter_In in Hin as [Hin Hz].
  apply list_elem_of_In, rowMajor_spec in Hin as [Hr Hc].
  apply Nat.eqb_eq in Hz. done.
Qed.

Section game_invariant.
Variables puzzle solution : Board.
Hypothesis Hwfp : wf puzzle.
Hypothesis Hwfs : wf solution.
Hypothesis Hfull : full solution.
Hypothesis Hext : extends puzzle solution.

Lemma ok_handleWorkerMessage st0 :
  Game.ok puzzle solution (Game.handleWorkerMessage puzzle solution st0).
Proof.
  split; simpl;
    [done|done|done|apply givensKept_refl|apply emptyNotes_distinct|
     constructor|lia|done|done].
Qed.

Lemma ok_pushToHistory st :
  Game.ok puzzle solution st → Game.ok puzzle solution (Game.pushToHistory st).
Proof.
  intros [Hi Hs Hg Hk Hn Hh Hhi Hw Hsel]. split; simpl; try done.
  apply Forall_app. split; [done|]. apply Forall_singleton. simpl.
  by split_and!.
Qed.

Lemma ok_checkForWin st :
  Game.ok puzzle solution st → Game.ok puzzle solution (Game.checkForWin st).
Proof.
  intros Hok. unfold Game.checkForWin.
  destruct (Game.isSolved _ _) eqn:Hsolved; [|done].
  destruct Hok as [Hi Hs Hg Hk Hn Hh Hhi Hw Hsel]. split; simpl; try done.
  intros _. by rewrite <- Hs.
Qed.

Lemma ok_setGrid st b :
  Game.ok puzzle solution st → wf b → Game.givensKept puzzle b →
  Game.isGameWon st = false → Game.ok puzzle solution (Game.setGrid st b).
Proof.
  intros [Hi Hs Hg Hk Hn Hh Hhi Hw Hsel] Hwf Hkept Hwon.
  split; simpl; try done. by rewrite Hwon.
Qed.

Lemma ok_setNotes st n :
  Game.ok puzzle solution st → Game.notesDistinct n →
  Game.ok puzzle solution (Game.setNotes st n).
Proof. intros [Hi Hs Hg Hk Hn Hh Hhi Hw Hsel] Hnd. by split. Qed.

Lemma ok_setErrorCells st e :
  Game.ok puzzle solution st → Game.ok puzzle solution (Game.setErrorCells st e).
Proof. intros [Hi Hs Hg Hk Hn Hh Hhi Hw Hsel]. by split. Qed.

Lemma ok_selectCell row col st :
  Game.ok puzzle solution st → row < 9 → col < 9 → get puzzle row col = 0 →
  Game.ok puzzle solution (Game.selectCell row col st).
Proof.
  intros Hok Hr Hc Hz. unfold Game.selectCell.
  destruct (Game.isGameWon st); [done|].
  destruct Hok as [Hi Hs Hg Hk Hn Hh Hhi Hw Hsel]. split; simpl; try done.
  by intros r c [= <- <-].
Qed.

Lemma ok_handleCellClick row col st :
  Game.ok puzzle solution st →
  Game.ok puzzle solution (Game.handleCellClick row col st).
Proof.
  intros Hok. unfold Game.handleCellClick. case_bool_decide as Hgiven; [|done].
  rewrite (Game.ok_initialGrid _ _ _ Hok) in Hgiven.
  apply lookupCell_Some in Hgiven as (? & ? & ?); [|done].
  by apply ok_selectCell.
Qed.

Lemma ok_inputNumber num st :
  Game.ok puzzle solution st → Game.ok puzzle solution (Game.inputNumber num st).
Proof.
  intros Hok. unfold Game.inputNumber.
  destruct (Game.selectedCell st) as [[row col]|] eqn:Hsel; [|done].
  destruct (Game.isGameWon st || _) eqn:Hguard; [done|].
  apply orb_false_iff in Hguard as [Hwon _].
  destruct (Game.ok_selected _ _ _ Hok row col Hsel) as (Hr & Hc & Hz).
  pose proof (ok_pushToHistory st Hok) as Hok1. cbv zeta.
  destruct (Game.isNotesMode (Game.pushToHistory st)).
  - match goal with |- context [Game.notesAt (Game.notes ?s)] => set (st2 := s) end.
    assert (Game.ok puzzle solution st2) as Hok2.
    { subst st2. destruct (negb _); [|done].
      apply ok_setGrid; [done| | |done].
      - apply set_wf, Hok1.
      - apply givensKept_set; [done|apply Hok1]. }
    destruct (num =? 0); apply ok_setNotes; try done;
      apply setNotesAt_distinct; try apply Hok2; [apply NoDup_nil_2|].
    destruct (Game.setHas _ _);
      [apply setDelete_NoDup|apply setAdd_NoDup]; apply notesAt_NoDup, Hok2.
  - apply ok_checkForWin, ok_setGrid; [| | |done].
    + apply ok_setNotes; [done|].
      apply setNotesAt_distinct; [apply Hok1|apply NoDup_nil_2].
    + apply set_wf, Hok1.
    + apply givensKept_set; [done|apply Hok1].
Qed.

Lemma ok_toggleNotesMode st :
  Game.ok puzzle solution st → Game.ok puzzle solution (Game.toggleNotesMode st).
Proof. intros [Hi Hs Hg Hk Hn Hh Hhi Hw Hsel]. by split. Qed.

Lemma ok_undo st :
  Game.ok puzzle solution st → Game.ok puzzle solution (Game.undo st).
Proof.
  intros Hok. unfold Game.undo.
  destruct (_ || _) eqn:Hguard; [done|].
  apply orb_false_iff in Hguard as [_ Hwon].
  destruct (pop (Game.history st)) as [[lastState rest]|] eqn:Hpop; [|done].
  apply pop_Some in Hpop.
  destruct Hok as [Hi Hs Hg Hk Hn Hh Hhi Hw Hsel].
  rewrite Hpop in Hh. apply Forall_app in Hh as [Hrest Hlast].
  apply Forall_singleton in Hlast as (? & ? & ? & ?).
  split; simpl; try done; [apply notesOfArrays_distinct|by rewrite Hwon].
Qed.

Lemma ok_handleGridKeyDown k st :
  Game.ok puzzle solution st →
  ∃ st', Game.handleGridKeyDown k st = Some st' ∧ Game.ok puzzle solution st'.
Proof.
  intros Hok. unfold Game.handleGridKeyDown.
  destruct (Game.selectedCell st) as [[row col]|] eqn:Hsel; [|by eexists].
  destruct (Game.isGameWon st); [by eexists|].
  destruct (Game.ok_selected _ _ _ Hok row col Hsel) as (Hr & Hc & Hz).
  destruct k as [a|n| | | |].
  - destruct (arrow_moves a row col (Game.initialGrid st) Hr Hc)
      as (r & c & Hrun & Hr' & Hc' & Hfree & _).
    destruct (Game.keyMap a) as [dr dc]. cbn [fst snd] in Hrun. rewrite Hrun.
    eexists. split; [reflexivity|].
    rewrite (Game.ok_initialGrid _ _ _ Hok) in Hfree.
    apply ok_selectCell; [done..|]. by destruct Hfree as [?|[= -> ->]].
  - eexists. split; [reflexivity|]. by apply ok_inputNumber.
  - eexists. split; [reflexivity|]. by apply ok_inputNumber.
  - eexists. split; [reflexivity|]. by apply ok_toggleNotesMode.
  - eexists. split; [reflexivity|]. by apply ok_undo.
  - by eexists.
Qed.

Lemma ok_checkSolution st :
  Game.ok puzzle solution st →
  Game.ok puzzle solution (Game.checkSolution st).2.
Proof.
  intros Hok. unfold Game.checkSolution. cbv zeta.
  destruct (negb (length _ =? 0)); [by apply ok_setErrorCells|].
  destruct (negb (forallb _ _)); [by apply ok_setErrorCells|].
  by apply ok_checkForWin, ok_setErrorCells.
Qed.

Lemma ok_clearErrors st :
  Game.ok puzzle solution st → Game.ok puzzle solution (Game.clearErrors st).
Proof. apply ok_setErrorCells. Qed.

Lemma ok_getHint st g :
  Game.ok puzzle solution st → Game.ok puzzle solution (Game.getHint st g).1.
Proof.
  intros Hok. unfold Game.getHint.
  destruct (_ || _) eqn:Hguard; [done|].
  apply orb_false_iff in Hguard as [Hwon Hhints]. apply Nat.leb_gt in Hhints.
  cbv zeta. destruct (0 <? _) eqn:Hne; [|done]. apply Nat.ltb_lt in Hne.
  destruct (randomIndex _ g) as [i g'] eqn:Hri.
  destruct (_ !!! i) as [row col] eqn:Hcell.
  destruct (hint_cell _ _ _ _ _ _ Hne Hri Hcell) as (Hr & Hc & Hz).
  assert (get puzzle row col = 0) as Hfree.
  { destruct (decide (get puzzle row col = 0)) as [|Hgiven]; [done|].
    rewrite <- (Game.ok_givens _ _ _ Hok row col Hr Hc Hgiven). done. }
  pose proof (ok_pushToHistory st Hok) as Hok1.
  simpl. apply ok_checkForWin.
  destruct Hok1 as [Hi Hs Hg Hk Hn Hh Hhi Hw Hsel]. split; simpl; try done.
  - by apply set_wf.
  - by apply givensKept_set.
  - apply setNotesAt_distinct; [done|apply NoDup_nil_2].
  - by rewrite Hwon.
Qed.

Lemma ok_solvePuzzle st :
  Game.ok puzzle solution st → Game.ok puzzle solution (Game.solvePuzzle st).
Proof.
  intros Hok. destruct (ok_pushToHistory st Hok) as [Hi Hs Hg Hk Hn Hh Hhi Hw Hsel].
  unfold Game.solvePuzzle. split; simpl; try done.
  - simpl in Hs. by rewrite Hs.
  - simpl in Hs. rewrite Hs. by apply givensKept_solution.
  - apply cleared_notes_distinct.
  - intros _. simpl in Hs. rewrite Hs. by apply isSolved_refl.
Qed.

Lemma ok_tick st :
  Game.ok puzzle solution st → Game.ok puzzle solution (Game.tick st).
Proof.
  intros Hok. unfold Game.tick. destruct (negb _); [|done].
  destruct Hok as [Hi Hs Hg Hk Hn Hh Hhi Hw Hsel]. by split.
Qed.

(** No event fails, and every event keeps the invariant. *)
Lemma ok_act a st g :
  Game.ok puzzle solution st →
  ∃ st' g', Game.act a st g = Some (st', g') ∧ Game.ok puzzle solution st'.
Proof.
  intros Hok. destruct a; simpl; try (eexists _, _; split; [done|]).
  - by apply ok_handleCellClick.
  - destruct (ok_handleGridKeyDown k st Hok) as (st' & -> & Hok').
    by eexists _, _.
  - by apply ok_inputNumber.
  - by apply ok_toggleNotesMode.
  - by apply ok_undo.
  - by apply ok_checkSolution.
  - by apply ok_clearErrors.
  - exists (Game.getHint st g).1, (Game.getHint st g).2.
    split; [by destruct (Game.getHint st g)|by apply ok_getHint].
  - by apply ok_solvePuzzle.
  - by apply ok_tick.
Qed.

Lemma ok_run actions st g :
  Game.ok puzzle solution st →
  ∃ st' g', Game.run actions st g = Some (st', g') ∧ Game.ok puzzle solution st'.
Proof.
  revert st g. induction actions as [|a rest IH]; intros st g Hok; simpl.
  - by eexists _, _.
  - destruct (ok_act a st g Hok) as (st1 & g1 & -> & Hok1). by apply IH.
Qed.

End game_invariant.

(** ** The win flag *)

Lemma isSolved_empty_cell b s r c :
  wf b → r < 9 → c < 9 → get b r c = 0 → Game.isSolved b s = false.
Proof.
  intros Hwf Hr Hc Hz. apply not_true_is_false. intros Hsolved.
  pose proof (proj1 (isSolved_spec b s Hwf) Hsolved r c Hr Hc) as [_ Hne].
  done.
Qed.

Lemma undecided_same st st' :
  Game.grid st' = Game.grid st → Game.solution st' = Game.solution st →
  Game.history st' = Game.history st → Game.isGameWon st' = Game.isGameWon st →
  Game.undecided st → Game.undecided st'.
Proof.
  unfold Game.undecided. intros -> -> -> ->. done.
Qed.

Lemma undecided_pushToHistory st :
  Game.undecided st → Game.undecided (Game.pushToHistory st).
Proof.
  unfold Game.undecided. simpl. intros Hund Hwon.
  destruct (Hund Hwon) as [Hgrid Hhist]. split; [done|].
  apply Forall_app. split; [done|]. by apply Forall_singleton.
Qed.

Lemma undecided_checkForWin st :
  (Game.isGameWon st = false →
   Forall (fun h => Game.isSolved (Game.h_grid h) (Game.solution st) = false)
          (Game.history st)) →
  Game.undecided (Game.checkForWin st).
Proof.
  intros Hhist. unfold Game.checkForWin.
  destruct (Game.isSolved _ _) eqn:Hsolved; [done|].
  intros Hwon. split; [done|by apply Hhist].
Qed.

Lemma undecided_history st :
  Game.undecided st → Game.isGameWon st = false →
  Forall (fun h => Game.isSolved (Game.h_grid h) (Game.solution st) = false)
         (Game.history st).
Proof. intros Hund Hwon. by destruct (Hund Hwon). Qed.

Section game_win_flag.
Variables puzzle solution : Board.

Lemma undecided_inputNumber num st :
  Game.ok puzzle solution st → Game.undecided st →
  Game.undecided (Game.inputNumber num st).
Proof.
  intros Hok Hund. unfold Game.inputNumber.
  destruct (Game.selectedCell st) as [[row col]|] eqn:Hsel; [|done].
  destruct (Game.isGameWon st || _) eqn:Hguard; [done|].
  apply orb_false_iff in Hguard as [Hwon _].
  destruct (Game.ok_selected _ _ _ Hok row col Hsel) as (Hr & Hc & Hz).
  pose proof (undecided_pushToHistory st Hund) as Hund1. cbv zeta.
  destruct (Game.isNotesMode (Game.pushToHistory st)).
  - match goal with |- context [Game.notesAt (Game.notes ?s)] => set (st2 := s) end.
    assert (Game.undecided st2) as Hund2.
    { subst st2. destruct (negb _); [|done]. unfold Game.undecided. simpl.
      intros _. split.
      - apply isSolved_empty_cell with row col; [|done..|].
        + apply set_wf, Hok.
        + apply get_set_eq; [apply Hok|done..].
      - by apply (undecided_history _ Hund1). }
    by destruct (num =? 0); apply (undecided_same st2).
  - apply undecided_checkForWin. simpl. intros _.
    by apply (undecided_history _ Hund1).
Qed.

Lemma undecided_undo st : Game.undecided st → Game.undecided (Game.undo st).
Proof.
  intros Hund. unfold Game.undo.
  destruct (_ || _) eqn:Hguard; [done|].
  apply orb_false_iff in Hguard as [_ Hwon].
  destruct (pop (Game.history st)) as [[lastState rest]|] eqn:Hpop; [|done].
  apply pop_Some in Hpop. destruct (Hund Hwon) as [_ Hhist].
  rewrite Hpop in Hhist. apply Forall_app in Hhist as [Hrest Hlast].
  rewrite Forall_singleton in Hlast. unfold Game.undecided. simpl. by split.
Qed.

Lemma undecided_selectCell row col st :
  Game.undecided st → Game.undecided (Game.selectCell row col st).
Proof.
  intros Hund. unfold Game.selectCell. destruct (Game.isGameWon st); [done|].
  by apply (undecided_same st).
Qed.

Lemma undecided_handleGridKeyDown k st st' :
  Game.ok puzzle solution st → Game.undecided st →
  Game.handleGridKeyDown k st = Some st' → Game.undecided st'.
Proof.
  intros Hok Hund. unfold Game.handleGridKeyDown.
  destruct (Game.selectedCell st) as [[row col]|]; [|by intros [= <-]].
  destruct (Game.isGameWon st); [by intros [= <-]|].
  destruct k as [a|n| | | |].
  - destruct (Game.keyMap a) as [dr dc].
    destruct (Game.skipGivens _ _ _ _ _ _ _ _) as [[r c]|]; [|done].
    intros [= <-]. by apply undecided_selectCell.
  - intros [= <-]. by apply undecided_inputNumber.
  - intros [= <-]. by apply undecided_inputNumber.
  - intros [= <-]. by apply (undecided_same st).
  - intros [= <-]. by apply undecided_undo.
  - by intros [= <-].
Qed.

Lemma undecided_checkSolution st :
  Game.undecided st → Game.undecided (Game.checkSolution st).2.
Proof.
  intros Hund. unfold Game.checkSolution. cbv zeta.
  destruct (negb (length _ =? 0)); [by apply (undecided_same st)|].
  destruct (negb (forallb _ _)); [by apply (undecided_same st)|].
  apply undecided_checkForWin. simpl. by apply undecided_history.
Qed.

Lemma undecided_getHint st g :
  Game.undecided st → Game.undecided (Game.getHint st g).1.
Proof.
  intros Hund. unfold Game.getHint.
  destruct (_ || _) eqn:Hguard; [done|].
  cbv zeta. destruct (0 <? _); [|done].
  destruct (randomIndex _ g) as [i g'].
  destruct (_ !!! i) as [row col].
  simpl. apply undecided_checkForWin. simpl. intros Hwon.
  by apply (undecided_history _ (undecided_pushToHistory st Hund)).
Qed.

Lemma undecided_act a st g st' g' :
  Game.ok puzzle solution st → Game.undecided st →
  Game.act a st g = Some (st', g') → Game.undecided st'.
Proof.
  intros Hok Hund. destruct a; simpl.
  - intros [= <- <-]. unfold Game.handleCellClick.
    case_bool_decide; [by apply undecided_selectCell|done].
  - destruct (Game.handleGridKeyDown k st) as [st1|] eqn:Hkey; [|done].
    intros [= <- <-]. by eapply undecided_handleGridKeyDown.
  - intros [= <- <-]. by apply undecided_inputNumber.
  - intros [= <- <-]. by apply (undecided_same st).
  - intros [= <- <-]. by apply undecided_undo.
  - intros [= <- <-]. by apply undecided_checkSolution.
  - intros [= <- <-]. by apply (undecided_same st).
  - intros [= Hhint]. replace st' with (Game.getHint st g).1; [|by rewrite Hhint].
    by apply undecided_getHint.
  - intros [= <- <-]. by intros ?.
  - intros [= <- <-]. unfold Game.tick. destruct (negb _); [|done].
    by apply (undecided_same st).
Qed.

End game_win_flag.

(** ** Games on a generated puzzle *)

Lemma run_invariants puzzle solution actions st g :
  wf puzzle → wf solution → full solution → extends puzzle solution →
  Game.ok puzzle solution st →
  ∃ st' g', Game.run actions st g = Some (st', g') ∧
    Game.ok puzzle solution st' ∧ (Game.undecided st → Game.undecided st').
Proof.
  intros Hwfp Hwfs Hfull Hext. revert st g.
  induction actions as [|a rest IH]; intros st g Hok; simpl.
  - by eexists _, _.
  - destruct (ok_act puzzle solution Hwfp Hwfs Hfull Hext a st g Hok)
      as (st1 & g1 & Hact & Hok1).
    rewrite Hact. destruct (IH st1 g1 Hok1) as (st' & g' & Hrun & Hok' & Hund').
    exists st', g'. split_and!; [done..|].
    intros Hund. apply Hund'.
    by apply (undecided_act puzzle solution a st g st1 g1).
Qed.

(** With a positive target the first removal is always kept, so the
    puzzle has an empty cell. *)
Lemma removeCells_first_removed k s cells0 st :
  wf s → validComplete s → cells0 ≡ₚ allCells →
  removeCells 81 (mkLoop s cells0 (VNumber (S k)) []) = Some st →
  ∃ r c, r < 9 ∧ c < 9 ∧ get (grid st) r c = 0.
Proof.
  intros Hwf Hvalid Hperm. rewrite removeCells_step.
  cbn [cells cellsToRemove grid checks gtZero].
  assert (0 < length cells0) as Hpos.
  { rewrite (Permutation_length Hperm), allCells_length. lia. }
  rewrite (proj2 (Nat.ltb_lt _ _) Hpos).
  change (0 <? S k) with true. cbn [andb].
  destruct (pop_nonempty _ Hpos) as [[[r c] cells'] Hpop]. rewrite Hpop.
  apply pop_Some in Hpop.
  assert (r < 9 ∧ c < 9) as [Hr Hc].
  { apply rowMajor_spec. rewrite <- allCells_rowMajor, <- Hperm, Hpop.
    apply elem_of_app. right. left. }
  rewrite single_removal_unique by done.
  intros Hrun. apply removeCells_keeps_empty in Hrun as [_ Hempty]; [done|].
  simpl. split; [by apply set_wf|]. exists r, c. split_and!; [done..|].
  by apply get_set_eq.
Qed.

(** What [handleWorkerMessage] receives from the worker. *)
Lemma newGame_starts diff g st0 :
  ∃ p s,
    Game.newGame diff g st0 = Some (Game.handleWorkerMessage p s st0) ∧
    wf p ∧ wf s ∧ validComplete s ∧ extends p s ∧
    hasUniqueSolution p = Some true ∧
    (∀ d, diff = difficultyName d → ∃ r c, r < 9 ∧ c < 9 ∧ get p r c = 0).
Proof.
  destruct (generatePuzzle_runs diff g)
    as (s & g1 & cells0 & g2 & st & _ & _ & Hwf & Hvalid & Hperm & Hloop
        & Hgen & Hinv).
  destruct Hinv as [Hwfp Hsub Huniq _].
  exists (grid st), s. unfold Game.newGame. rewrite Hgen.
  split_and!; [done..|].
  intros d ->.
  assert (∃ k, orElse (lookupDifficulty (difficultyName d)) (VNumber 46)
               = VNumber (S k)) as [k Hk].
  { rewrite lookup_recognized. destruct d; by eexists. }
  rewrite Hk in Hloop.
  by apply (removeCells_first_removed k s cells0 st).
Qed.

Lemma newGame_runs diff g st0 actions g1 :
  ∃ p s st' g2,
    Game.newGame diff g st0 = Some (Game.handleWorkerMessage p s st0) ∧
    Game.run actions (Game.handleWorkerMessage p s st0) g1 = Some (st', g2) ∧
    wf p ∧ wf s ∧ validComplete s ∧
    Game.ok p s st' ∧
    ((∃ d, diff = difficultyName d) → Game.undecided st').
Proof.
  destruct (newGame_starts diff g st0)
    as (p & s & Hnew & Hwfp & Hwfs & Hvalid & Hext & _ & Hempty).
  pose proof (validComplete_full s Hvalid) as Hfull.
  destruct (run_invariants p s actions (Game.handleWorkerMessage p s st0) g1
              Hwfp Hwfs Hfull Hext)
    as (st' & g2 & Hrun & Hok & Hund).
  { by apply ok_handleWorkerMessage. }
  exists p, s, st', g2. split_and!; [done..|].
  intros [d Hd]. apply Hund. intros _. simpl. split; [|done].
  destruct (Hempty d Hd) as (r & c & Hr & Hc & Hz).
  by apply isSolved_empty_cell with r c.
Qed.

(** X6.  In a game on a generated puzzle no sequence of events fails or
    changes the puzzle, the solution or a given cell of the grid. *)
Theorem game_keeps_givens (diff : string) (g : Rng) (st0 : Game.State)
    (actions : list Game.Action) (g1 : Rng) :
  ∃ st st' g2,
    Game.newGame diff g st0 = Some st ∧
    Game.run actions st g1 = Some (st', g2) ∧
    Game.initialGrid st' = Game.initialGrid st ∧
    Game.solution st' = Game.solution st ∧
    wf (Game.grid st') ∧
    Game.givensKept (Game.initialGrid st) (Game.grid st').
Proof.
  destruct (newGame_runs diff g st0 actions g1)
    as (p & s & st' & g2 & Hnew & Hrun & _ & _ & _ & Hok & _).
  exists (Game.handleWorkerMessage p s st0), st', g2.
  destruct Hok as [Hi Hs Hg Hk _ _ _ _ _]. by split_and!.
Qed.

(** X7.  In a game on a generated puzzle the number of hints used never
    exceeds three, whatever the events, undos included. *)
Theorem game_hints_at_most_three (diff : string) (g : Rng) (st0 : Game.State)
    (actions : list Game.Action) (g1 : Rng) :
  ∃ st st' g2,
    Game.newGame diff g st0 = Some st ∧
    Game.run actions st g1 = Some (st', g2) ∧
    Game.hintsUsed st' ≤ 3.
Proof.
  destruct (newGame_runs diff g st0 actions g1)
    as (p & s & st' & g2 & Hnew & Hrun & _ & _ & _ & Hok & _).
  exists (Game.handleWorkerMessage p s st0), st', g2.
  split_and!; [done..|apply Hok].
Qed.

(** X8.  In a game on a generated puzzle the selected cell, if there is one,
    is a cell of the grid that is not a given. *)
Theorem game_selection_not_given (diff : string) (g : Rng) (st0 : Game.State)
    (actions : list Game.Action) (g1 : Rng) :
  ∃ st st' g2,
    Game.newGame diff g st0 = Some st ∧
    Game.run actions st g1 = Some (st', g2) ∧
    ∀ r c, Game.selectedCell st' = Some (r, c) →
      r < 9 ∧ c < 9 ∧ get (Game.initialGrid st') r c = 0.
Proof.
  destruct (newGame_runs diff g st0 actions g1)
    as (p & s & st' & g2 & Hnew & Hrun & _ & _ & _ & Hok & _).
  exists (Game.handleWorkerMessage p s st0), st', g2.
  split_and!; [done..|].
  intros r c Hsel. rewrite (Game.ok_initialGrid _ _ _ Hok).
  by apply (Game.ok_selected _ _ _ Hok).
Qed.

(** X9.  In a game on a puzzle of one of the five difficulties, the game is
    marked as won exactly when the grid is the solution. *)
Theorem game_won_iff_solved (d : Difficulty) (g : Rng) (st0 : Game.State)
    (actions : list Game.Action) (g1 : Rng) :
  ∃ st st' g2,
    Game.newGame (difficultyName d) g st0 = Some st ∧
    Game.run actions st g1 = Some (st', g2) ∧
    (Game.isGameWon st' = true ↔ Game.grid st' = Game.solution st').
Proof.
  destruct (newGame_runs (difficultyName d) g st0 actions g1)
    as (p & s & st' & g2 & Hnew & Hrun & _ & Hwfs & Hvalid & Hok & Hund).
  exists (Game.handleWorkerMessage p s st0), st', g2.
  split_and!; [done..|].
  rewrite (Game.ok_solution _ _ _ Hok). split.
  - intros Hwon. apply isSolved_equal; [apply Hok|done|by apply Hok].
  - intros Heq. destruct (Game.isGameWon st') eqn:Hwon; [done|].
    destruct (Hund (ex_intro _ d eq_refl) Hwon) as [Hunsolved _].
    rewrite (Game.ok_solution _ _ _ Hok), Heq in Hunsolved.
    rewrite isSolved_refl in Hunsolved; [done..|by apply validComplete_full].
Qed.

(** ** Single events *)

Lemma examplePuzzle_wf : wf Game.examplePuzzle.
Proof. apply set_wf, set_wf, knownSolution_wf. Qed.

Lemma along_steps x d k :
  (d = -1 ∨ d = 0 ∨ d = 1)%Z →
  Game.along x d k = (x + k * Z.to_nat (d + 9)) mod 9.
Proof.
  unfold Game.along.
  intros [-> | [-> | ->]];
    [change (Z.to_nat (-1 + 9)) with 8|change (Z.to_nat (0 + 9)) with 9|
     change (Z.to_nat (1 + 9)) with 10]; lia.
Qed.

Lemma steps_back x s j :
  x < 9 → s = 8 ∨ s = 10 → 1 ≤ j ≤ 8 → (x + j * s) mod 9 ≠ x.
Proof. intros Hx [-> | ->] Hj; lia. Qed.

(** The loop stops at the first cell along the line that is not a given,
    or back at the start after nine steps. *)
Lemma skipGivens_next a init row col fuel k :
  row < 9 → col < 9 → 1 ≤ k ≤ 8 → 9 ≤ k + fuel →
  ∃ k', k ≤ k' ≤ 9 ∧
    Game.skipGivens fuel init row col (Game.keyMap a).1 (Game.keyMap a).2
      (Game.cellAlong a row col k).1 (Game.cellAlong a row col k).2
    = Some (Game.cellAlong a row col k') ∧
    (∀ j, k ≤ j < k' →
       get init (Game.cellAlong a row col j).1 (Game.cellAlong a row col j).2 ≠ 0) ∧
    (k' < 9 →
       get init (Game.cellAlong a row col k').1 (Game.cellAlong a row col k').2 = 0).
Proof.
  intros Hrow Hcol. destruct (keyMap_steps a) as [Hdr Hdc].
  assert (∀ j, 1 ≤ j ≤ 8 → Game.cellAlong a row col j ≠ (row, col)) as Hstart.
  { intros j Hj. unfold Game.cellAlong. rewrite !along_steps by done.
    intros Heq. apply pair_equal_spec in Heq as [H1 H2].
    destruct a; cbn [Game.keyMap fst snd] in H1, H2;
      [apply (steps_back row 8 j)|apply (steps_back row 10 j)|
       apply (steps_back col 8 j)|apply (steps_back col 10 j)];
      auto. }
  assert (Game.cellAlong a row col 9 = (row, col)) as Hnine.
  { unfold Game.cellAlong. rewrite !along_steps by done.
    by rewrite !wrap_nine. }
  assert (∀ j, Game.wrap (Game.cellAlong a row col j).1 (Game.keyMap a).1
               = (Game.cellAlong a row col (j + 1)).1 ∧
               Game.wrap (Game.cellAlong a row col j).2 (Game.keyMap a).2
               = (Game.cellAlong a row col (j + 1)).2) as Hstep.
  { intros j. unfold Game.cellAlong. cbn [fst snd].
    rewrite !along_steps by done. by rewrite !wrap_steps. }
  revert k. induction fuel as [|fuel IH]; intros k Hk Hfuel; [lia|].
  cbn [Game.skipGivens].
  destruct (negb _) eqn:Hgiven.
  - apply negb_true_iff, Nat.eqb_neq in Hgiven. cbv zeta.
    destruct (Hstep k) as [-> ->].
    destruct (_ && _) eqn:Hback.
    + apply andb_true_iff in Hback as [H1 H2]. apply Nat.eqb_eq in H1, H2.
      destruct (decide (k = 8)) as [->|Hne].
      * exists 9. split; [lia|]. split; [done|]. split; [|lia].
        intros j Hj. by replace j with 8 by lia.
      * exfalso. apply (Hstart (k + 1)); [lia|].
        by destruct (Game.cellAlong a row col (k + 1)); simplify_eq/=.
    + destruct (decide (k = 8)) as [->|Hne].
      * change (8 + 1) with 9 in Hback. rewrite Hnine in Hback. simpl in Hback.
        by rewrite !Nat.eqb_refl in Hback.
      * destruct (IH (k + 1)) as (k' & Hk' & Hrun & Hbefore & Hat); [lia..|].
        exists k'. split; [lia|]. split; [done|]. split; [|done].
        intros j Hj. destruct (decide (j = k)) as [->|Hjk]; [done|].
        apply Hbefore. lia.
  - apply negb_false_iff, Nat.eqb_eq in Hgiven.
    exists k. split; [lia|]. split; [|split; [intros; lia|done]].
    by destruct (Game.cellAlong a row col k).
Qed.

(** X5.  An arrow key never hangs: it moves the selection along its row or
    column, wrapping around, to the first cell that is not a given, and
    leaves it where it is when the line has no other such cell. *)
Theorem arrow_key_selects_next_free_cell (a : Game.Arrow) (st : Game.State)
    (row col : nat) :
  wf (Game.initialGrid st) →
  Game.selectedCell st = Some (row, col) → row < 9 → col < 9 →
  Game.isGameWon st = false →
  ∃ k, 1 ≤ k ≤ 9 ∧
    Game.handleGridKeyDown (Game.KeyArrow a) st
    = Some (Game.setSelectedCell st (Some (Game.cellAlong a row col k))) ∧
    (∀ j, 1 ≤ j < k →
       get (Game.initialGrid st)
         (Game.cellAlong a row col j).1 (Game.cellAlong a row col j).2 ≠ 0) ∧
    (k < 9 →
       get (Game.initialGrid st)
         (Game.cellAlong a row col k).1 (Game.cellAlong a row col k).2 = 0) ∧
    Game.cellAlong a row col 9 = (row, col).
Proof.
  intros _ Hsel Hrow Hcol Hwon.
  destruct (skipGivens_next a (Game.initialGrid st) row col 9 1 Hrow Hcol)
    as (k & Hk & Hrun & Hbefore & Hat); [lia..|].
  destruct (keyMap_steps a) as [Hdr Hdc].
  exists k. unfold Game.handleGridKeyDown. rewrite Hsel, Hwon.
  assert (Game.cellAlong a row col 1
          = (Game.wrap row (Game.keyMap a).1, Game.wrap col (Game.keyMap a).2))
    as Hfirst.
  { unfold Game.cellAlong. rewrite !along_steps by done.
    by rewrite <- !wrap_first. }
  rewrite Hfirst in Hrun. cbn [fst snd] in Hrun.
  destruct (Game.keyMap a) as [dr dc] eqn:Hkey. cbn [fst snd] in Hrun.
  rewrite Hrun. destruct (Game.cellAlong a row col k) as [r c] eqn:Hcell.
  unfold Game.selectCell. rewrite Hwon.
  split; [lia|]. split; [done|]. split; [done|].
  split; [exact Hat|].
  unfold Game.cellAlong. rewrite Hkey. cbn [fst snd].
  rewrite !along_steps by done. by rewrite !wrap_nine.
Qed.

Lemma arrow_key_selects_next_free_cell_witness :
  ∃ k, 1 ≤ k ≤ 9 ∧
    Game.handleGridKeyDown (Game.KeyArrow Game.ArrowRight) Game.exampleGame
    = Some (Game.setSelectedCell Game.exampleGame
              (Some (Game.cellAlong Game.ArrowRight 4 7 k))) ∧
    (∀ j, 1 ≤ j < k →
       get (Game.initialGrid Game.exampleGame)
         (Game.cellAlong Game.ArrowRight 4 7 j).1
         (Game.cellAlong Game.ArrowRight 4 7 j).2 ≠ 0) ∧
    (k < 9 →
       get (Game.initialGrid Game.exampleGame)
         (Game.cellAlong Game.ArrowRight 4 7 k).1
         (Game.cellAlong Game.ArrowRight 4 7 k).2 = 0) ∧
    Game.cellAlong Game.ArrowRight 4 7 9 = (4, 7).
Proof.
  apply (arrow_key_selects_next_free_cell Game.ArrowRight Game.exampleGame 4 7);
    [apply examplePuzzle_wf|reflexivity|lia|lia|reflexivity].
Defined.

(** Undoing a state whose last history entry was pushed from [st] and
    that differs from [st] in grid, notes and hint count only. *)
Lemma undo_after_push st st' :
  Game.notesDistinct (Game.notes st) →
  Game.history st' = Game.history (Game.pushToHistory st) →
  Game.isGameWon st = false → Game.isGameWon st' = false →
  Game.initialGrid st' = Game.initialGrid st →
  Game.solution st' = Game.solution st →
  Game.difficulty st' = Game.difficulty st →
  Game.elapsedTime st' = Game.elapsedTime st →
  Game.isLoading st' = Game.isLoading st →
  Game.isNotesMode st' = Game.isNotesMode st →
  Game.errorCells st' = Game.errorCells st →
  Game.selectedCell st' = Game.selectedCell st →
  Game.undo st' = st.
Proof.
  intros Hnd Hhist Hwon Hwon' Hi Hs Hd He Hl Hn Her Hsel.
  unfold Game.undo. rewrite Hwon', Hhist. simpl.
  rewrite length_app. simpl.
  replace (length (Game.history st) + 1 =? 0) with false
    by (symmetry; apply Nat.eqb_neq; lia).
  simpl. rewrite (proj2 (pop_Some _ _ _) eq_refl). simpl.
  rewrite notesOfArrays_id by done.
  unfold Game.setHintsUsed, Game.setNotes, Game.setGrid, Game.setHistory. simpl.
  rewrite Hi, Hs, Hd, He, Hl, Hn, Her, Hsel, Hwon', <- Hwon.
  unfold jsonCopy. by destruct st.
Qed.

Lemma checkForWin_not_won st :
  Game.isGameWon (Game.checkForWin st) = false → Game.checkForWin st = st.
Proof.
  unfold Game.checkForWin. by destruct (Game.isSolved _ _).
Qed.

(** X13.  An accepted input that does not win the game is taken back by
    [undo]: the state is again what it was before the input. *)
Theorem undo_inputNumber (num : nat) (st : Game.State) (row col : nat) :
  Game.selectedCell st = Some (row, col) →
  Game.lookupCell (Game.initialGrid st) row col = Some 0 →
  Game.isGameWon st = false →
  Game.notesDistinct (Game.notes st) →
  Game.isGameWon (Game.inputNumber num st) = false →
  Game.undo (Game.inputNumber num st) = st.
Proof.
  intros Hsel Hfree Hwon Hnd. unfold Game.inputNumber.
  rewrite Hsel, Hwon, (bool_decide_eq_true_2 _ Hfree). cbn [negb orb]. cbv zeta.
  destruct (Game.isNotesMode (Game.pushToHistory st)) eqn:Hmode.
  - intros _.
    destruct (negb _), (num =? 0); by apply undo_after_push.
  - intros Hnot. rewrite (checkForWin_not_won _ Hnot).
    by apply undo_after_push.
Qed.

Lemma exampleGame_notes : Game.notesDistinct (Game.notes Game.exampleGame).
Proof. apply emptyNotes_distinct. Qed.

Lemma undo_inputNumber_witness :
  Game.undo (Game.inputNumber 5 Game.exampleGame) = Game.exampleGame.
Proof.
  apply (undo_inputNumber 5 Game.exampleGame 4 7);
    [reflexivity|reflexivity|reflexivity|apply exampleGame_notes|reflexivity].
Defined.

(** X14.  A hint that does not win the game is taken back by [undo], and the
    count of hints used with it. *)
Theorem undo_getHint (st : Game.State) (g : Rng) :
  Game.isGameWon st = false → Game.hintsUsed st < 3 →
  0 < emptyCount (Game.grid st) →
  Game.notesDistinct (Game.notes st) →
  Game.isGameWon (Game.getHint st g).1 = false →
  Game.undo (Game.getHint st g).1 = st.
Proof.
  intros Hwon Hhints Hempty Hnd. unfold Game.getHint.
  rewrite Hwon, (proj2 (Nat.leb_gt _ _) Hhints). cbn [orb]. cbv zeta.
  unfold emptyCount in Hempty. rewrite (proj2 (Nat.ltb_lt _ _) Hempty).
  destruct (randomIndex _ g) as [i g'].
  destruct (_ !!! i) as [row col].
  cbn [fst]. intros Hnot. rewrite (checkForWin_not_won _ Hnot).
  by apply undo_after_push.
Qed.

Lemma undo_getHint_witness :
  Game.undo (Game.getHint Game.exampleGame countingRng).1 = Game.exampleGame.
Proof.
  apply (undo_getHint Game.exampleGame countingRng);
    [reflexivity|simpl; lia|vm_compute; lia|apply exampleGame_notes|
     by vm_compute].
Defined.

(** ** Checking the grid *)

Lemma errors_spec grid sol r c :
  (r, c) ∈ List.filter (fun '(r, c) =>
      let val := get grid r c in
      negb (val =? 0) && negb (val =? get sol r c)) rowMajor
  ↔ r < 9 ∧ c < 9 ∧ get grid r c ≠ 0 ∧ get grid r c ≠ get sol r c.
Proof.
  rewrite list_elem_of_In, filter_In, <- list_elem_of_In, rowMajor_spec.
  cbv zeta. rewrite andb_true_iff, !negb_true_iff, !Nat.eqb_neq. tauto.
Qed.

Lemma isFull_spec grid :
  forallb (fun '(r, c) => negb (get grid r c =? 0)) rowMajor = true ↔ full grid.
Proof.
  rewrite forallb_forall. split.
  - intros Hall r c Hr Hc.
    assert (In (r, c) rowMajor) as Hin by (by apply list_elem_of_In, rowMajor_spec).
    apply Hall in Hin. by apply negb_true_iff, Nat.eqb_neq in Hin.
  - intros Hfull [r c] Hin. apply list_elem_of_In, rowMajor_spec in Hin as [Hr Hc].
    apply negb_true_iff, Nat.eqb_neq. by apply Hfull.
Qed.

Lemma checkForWin_errorCells st :
  Game.errorCells (Game.checkForWin st) = Game.errorCells st.
Proof. unfold Game.checkForWin. by destruct (Game.isSolved _ _). Qed.

(** X15.  [checkSolution] marks exactly the filled cells that differ from the
    solution; it reports errors when there is such a cell, and it opens
    no dialog of its own exactly when the grid is the solution, in which
    case the game is won. *)
Theorem checkSolution_verdict (st : Game.State) :
  wf (Game.grid st) →
  (∀ r c, (r, c) ∈ Game.errorCells (Game.checkSolution st).2 ↔
     r < 9 ∧ c < 9 ∧ get (Game.grid st) r c ≠ 0 ∧
     get (Game.grid st) r c ≠ get (Game.solution st) r c) ∧
  ((Game.checkSolution st).1 = Game.ErrorsFound ↔
     Game.errorCells (Game.checkSolution st).2 ≠ []) ∧
  ((Game.checkSolution st).1 = Game.NoDialog ↔
     Game.isSolved (Game.grid st) (Game.solution st) = true) ∧
  ((Game.checkSolution st).1 = Game.NoDialog →
     Game.isGameWon (Game.checkSolution st).2 = true).
Proof.
  intros Hwf. unfold Game.checkSolution. cbv zeta.
  pose proof (errors_spec (Game.grid st) (Game.solution st)) as Herr.
  pose proof (isFull_spec (Game.grid st)) as Hfull.
  pose proof (isSolved_spec (Game.grid st) (Game.solution st) Hwf) as Hsolved.
  cbv zeta in Herr.
  destruct (List.filter _ rowMajor) as [|[r0 c0] errors] eqn:Herrors.
  - cbn [length Nat.eqb negb].
    destruct (forallb _ rowMajor) eqn:HisFull; cbn [negb fst snd].
    + assert (Game.isSolved (Game.grid st) (Game.solution st) = true) as Hyes.
      { apply Hsolved. intros r c Hr Hc.
        pose proof (proj1 Hfull eq_refl r c Hr Hc) as Hne. split; [|done].
        destruct (decide (get (Game.grid st) r c = get (Game.solution st) r c))
          as [|Hdiff]; [done|].
        exfalso. by apply (elem_of_nil (r, c)), Herr. }
      rewrite checkForWin_errorCells. simpl. split_and!; [done..| |].
      * done.
      * intros _. unfold Game.checkForWin. simpl. by rewrite Hyes.
    + simpl. split_and!; [done..| |done].
      split; [done|]. intros Hyes. exfalso.
      assert (full (Game.grid st)) as Hf.
      { intros r c Hr Hc. by apply (proj1 Hsolved Hyes). }
      apply Hfull in Hf. congruence.
  - cbn [length Nat.eqb negb fst snd]. simpl. split_and!; [done..| |done].
    split; [done|]. intros Hyes. exfalso.
    assert ((r0, c0) ∈ (r0, c0) :: errors) as Hin by left.
    apply Herr in Hin as (Hr & Hc & _ & Hdiff).
    by destruct (proj1 Hsolved Hyes r0 c0 Hr Hc).
Qed.

Lemma checkSolution_verdict_witness :
  (Game.checkSolution Game.exampleGame).1 = Game.NoDialog ↔
  Game.isSolved (Game.grid Game.exampleGame) (Game.solution Game.exampleGame)
  = true.
Proof.
  apply (checkSolution_verdict Game.exampleGame). apply examplePuzzle_wf.
Defined.

(** ** Winning *)

(** X12.  The win test compares the grid with the stored solution.  On a
    generated puzzle this misses no correct grid: whenever the grid is a
    complete valid Sudoku grid that keeps the givens, [checkForWin] marks
    the game as won. *)
Theorem valid_grid_wins (diff : string) (g : Rng) (st0 : Game.State) :
  ∃ st,
    Game.newGame diff g st0 = Some st ∧
    ∀ st',
      Game.initialGrid st' = Game.initialGrid st →
      Game.solution st' = Game.solution st →
      completes (Game.initialGrid st') (Game.grid st') →
      Game.isGameWon (Game.checkForWin st') = true.
Proof.
  destruct (newGame_starts diff g st0)
    as (p & s & Hnew & Hwfp & Hwfs & Hvalid & Hext & Huniq & _).
  exists (Game.handleWorkerMessage p s st0). split; [done|].
  simpl. unfold jsonCopy. intros st' Hi Hs Hcompl.
  rewrite Hi in Hcompl.
  assert (Game.grid st' = s) as Hgrid.
  { by apply (hasUniqueSolution_unique p). }
  unfold Game.checkForWin. rewrite Hgrid, Hs.
  rewrite isSolved_refl; [done..|by apply validComplete_full].
Qed.

(** ** Hints *)

Lemma total_out_of_range {A} `{!Inhabited A} (l : list A) i :
  length l ≤ i → l !!! i = inhabitant.
Proof.
  intros Hi. by rewrite list_lookup_total_alt, lookup_ge_None_2.
Qed.

Lemma notesAt_cleared notes r c :
  Game.notesAt (Game.setNotesAt notes r c []) r c = [].
Proof.
  unfold Game.notesAt, Game.setNotesAt.
  destruct (decide (r < length notes)) as [Hr|Hr].
  - rewrite list_lookup_total_insert_eq by done.
    destruct (decide (c < length (notes !!! r))) as [Hc|Hc].
    + by rewrite list_lookup_total_insert_eq.
    + rewrite list_insert_ge by lia. by rewrite total_out_of_range by lia.
  - rewrite list_insert_ge by lia.
    by rewrite (total_out_of_range notes) by lia.
Qed.

Lemma checkForWin_fields st :
  Game.grid (Game.checkForWin st) = Game.grid st ∧
  Game.notes (Game.checkForWin st) = Game.notes st ∧
  Game.hintsUsed (Game.checkForWin st) = Game.hintsUsed st.
Proof. unfold Game.checkForWin. by destruct (Game.isSolved _ _). Qed.

(** X16.  A hint fills one empty cell of the grid with the value the solution
    has there, leaves the other cells as they are, clears the pencil
    marks of the cell and counts as used. *)
Theorem getHint_fills_one_empty_cell (st : Game.State) (g : Rng) :
  wf (Game.grid st) →
  Game.isGameWon st = false → Game.hintsUsed st < 3 →
  0 < emptyCount (Game.grid st) →
  ∃ row col,
    row < 9 ∧ col < 9 ∧ get (Game.grid st) row col = 0 ∧
    Game.grid (Game.getHint st g).1
    = set (Game.grid st) row col (get (Game.solution st) row col) ∧
    Game.notesAt (Game.notes (Game.getHint st g).1) row col = [] ∧
    Game.hintsUsed (Game.getHint st g).1 = S (Game.hintsUsed st).
Proof.
  intros Hwf Hwon Hhints Hempty. unfold Game.getHint.
  rewrite Hwon, (proj2 (Nat.leb_gt _ _) Hhints). cbn [orb]. cbv zeta.
  unfold emptyCount in Hempty. rewrite (proj2 (Nat.ltb_lt _ _) Hempty).
  destruct (randomIndex _ g) as [i g'] eqn:Hri.
  destruct (_ !!! i) as [row col] eqn:Hcell.
  destruct (hint_cell _ _ _ _ _ _ Hempty Hri Hcell) as (Hr & Hc & Hz).
  exists row, col. cbn [fst].
  match goal with |- context [Game.checkForWin ?x] =>
    destruct (checkForWin_fields x) as (-> & -> & ->) end.
  simpl. split_and!; [done..|apply notesAt_cleared|done].
Qed.

Lemma getHint_fills_one_empty_cell_witness :
  ∃ row col,
    row < 9 ∧ col < 9 ∧ get (Game.grid Game.exampleGame) row col = 0 ∧
    Game.grid (Game.getHint Game.exampleGame countingRng).1
    = set (Game.grid Game.exampleGame) row col
        (get (Game.solution Game.exampleGame) row col) ∧
    Game.notesAt (Game.notes (Game.getHint Game.exampleGame countingRng).1)
      row col = [] ∧
    Game.hintsUsed (Game.getHint Game.exampleGame countingRng).1
    = S (Game.hintsUsed Game.exampleGame).
Proof.
  apply (getHint_fills_one_empty_cell Game.exampleGame countingRng);
    [apply examplePuzzle_wf|reflexivity|simpl; lia|vm_compute; lia].
Defined.

(** ** The numpad counts *)

Lemma counts_foldl l (m : gmap nat Value) d n :
  0 < d → m !! d = Some (VNumber n) →
  foldl (fun m cell => if 0 <? cell then Game.increment m cell else m) m l !! d
  = Some (VNumber (n + count_occ Nat.eq_dec l d)).
Proof.
  intros Hd. revert m n. induction l as [|x l IH]; intros m n Hm.
  - simpl. by rewrite Nat.add_0_r.
  - cbn [foldl count_occ]. destruct (Nat.eq_dec x d) as [->|Hne].
    + rewrite (proj2 (Nat.ltb_lt _ _) Hd).
      rewrite (IH _ (S n)); [f_equal; f_equal; lia|].
      unfold Game.increment. by rewrite Hm, lookup_insert_eq.
    + apply IH. destruct (0 <? x); [|done].
      unfold Game.increment. by rewrite lookup_insert_ne.
Qed.

Lemma counts_start d :
  1 ≤ d ≤ 9 →
  (list_to_map ((fun d => (d, VNumber 0)) <$> seq 1 9) : gmap nat Value) !! d
  = Some (VNumber 0).
Proof.
  intros Hd.
  do 10 (destruct d as [|d]; [first [lia|by vm_compute]|]). lia.
Qed.

Lemma wf_rows b : wf b → b = map (rowCells b) (seq 0 9).
Proof.
  intros [Hlen Hrows]. apply list_eq. intros r.
  rewrite list_lookup_fmap.
  destruct (decide (r < 9)) as [Hr|Hr].
  - rewrite lookup_seq_lt by done. simpl.
    destruct (b !! r) as [row|] eqn:Hrow;
      [|apply lookup_ge_None_1 in Hrow; lia].
    f_equal. apply list_eq. intros c. unfold rowCells.
    rewrite list_lookup_fmap.
    pose proof (proj1 (Forall_lookup _ _) Hrows r row Hrow) as Hlenr.
    simpl in Hlenr.
    destruct (decide (c < 9)) as [Hc|Hc].
    + rewrite lookup_seq_lt by done. simpl. unfold get.
      rewrite (list_lookup_total_correct _ _ _ Hrow).
      destruct (row !! c) as [v|] eqn:Hv;
        [|apply lookup_ge_None_1 in Hv; lia].
      by rewrite (list_lookup_total_correct _ _ _ Hv).
    + rewrite lookup_seq_ge by lia. simpl. apply lookup_ge_None_2. lia.
  - rewrite lookup_seq_ge by lia. simpl. apply lookup_ge_None_2. lia.
Qed.

Lemma count_occ_concat (ls : list (list nat)) d k :
  Forall (fun l => count_occ Nat.eq_dec l d = k) ls →
  count_occ Nat.eq_dec (concat ls) d = length ls * k.
Proof.
  induction 1 as [|l ls Hl Hls IH]; [done|].
  simpl. rewrite count_occ_app. lia.
Qed.

(** X17.  The count kept for a digit is the number of cells that hold it; on a
    complete valid grid every count is 9, the value at which the numpad
    disables the digit. *)
Theorem updateNumberCounts_counts (grid : Board) (d : nat) :
  1 ≤ d ≤ 9 →
  Game.updateNumberCounts grid !! d
  = Some (VNumber (count_occ Nat.eq_dec (concat grid) d)) ∧
  (wf grid → validComplete grid →
   Game.updateNumberCounts grid !! d = Some (VNumber 9)).
Proof.
  intros Hd.
  assert (Game.updateNumberCounts grid !! d
          = Some (VNumber (count_occ Nat.eq_dec (concat grid) d))) as Hcount.
  { unfold Game.updateNumberCounts.
    rewrite (counts_foldl _ _ d 0); [done|lia|by apply counts_start]. }
  split; [done|]. intros Hwf Hvalid. rewrite Hcount. do 2 f_equal.
  rewrite (wf_rows grid Hwf) at 1.
  rewrite (count_occ_concat _ d 1); [by rewrite length_map, length_seq|].
  apply Forall_forall. intros row Hrow.
  apply list_elem_of_fmap in Hrow as (r & -> & Hr).
  apply elem_of_seq in Hr. destruct (Hvalid r) as (Hrowok & _); [lia|].
  by apply Hrowok.
Qed.

Lemma updateNumberCounts_counts_witness :
  Game.updateNumberCounts Game.examplePuzzle !! 3
  = Some (VNumber (count_occ Nat.eq_dec (concat Game.examplePuzzle) 3)).
Proof. apply (updateNumberCounts_counts Game.examplePuzzle 3). lia. Defined.

(** ** The clock *)

Lemma padStart2_decimal n :
  n < 100 →
  Game.padStart2 (Game.decimal n)
  = String (Game.digitChar (n / 10)) (String (Game.digitChar (n mod 10)) "").
Proof.
  intros Hn.
  assert (forallb (fun n =>
      String.eqb (Game.padStart2 (Game.decimal n))
        (String (Game.digitChar (n / 10))
           (String (Game.digitChar (n mod 10)) "")))
    (seq 0 100) = true) as Hall by (by vm_compute).
  rewrite forallb_forall in Hall.
  apply String.eqb_eq, Hall, in_seq. lia.
Qed.

(** X18.  Below one hundred minutes the time reads mm:ss, two digits each. *)
Theorem getFormattedTime_mm_ss (t : nat) :
  t < 100 * 60 →
  Game.getFormattedTime t
  = String (Game.digitChar (t / 600))
      (String (Game.digitChar (t / 60 mod 10)) "")
    +:+ ":" +:+
    String (Game.digitChar (t mod 60 / 10))
      (String (Game.digitChar (t mod 10)) "").
Proof.
  intros Ht. unfold Game.getFormattedTime. cbv zeta.
  rewrite !padStart2_decimal by lia.
  replace (t / 60 / 10) with (t / 600) by lia.
  replace (t mod 60 mod 10) with (t mod 10) by lia.
  reflexivity.
Qed.

Lemma getFormattedTime_mm_ss_witness : Game.getFormattedTime 754 = "12:34"%string.
Proof. apply (getFormattedTime_mm_ss 754). lia. Defined.

(** ** Saving and loading *)

(** X19.  Loading what [saveState] stored brings back the grid, the puzzle, the
    solution, the pencil marks, the history, the difficulty, the hints
    used and the time, and leaves the stored item in place. *)
Theorem loadState_saveState (st st0 : Game.State) (item : option Game.Saved) :
  Game.isGameWon st = false → Game.isLoading st = false →
  Game.notesDistinct (Game.notes st) →
  Game.loadState (Game.saveState st item) st0
  = (true,
     Game.mkState (Game.grid st) (Game.initialGrid st) (Game.solution st)
       (Game.notes st) (Game.history st) (Game.difficulty st)
       (Game.hintsUsed st) (Game.elapsedTime st) false (Game.isLoading st0)
       (Game.isNotesMode st0) (Game.errorCells st0) (Game.selectedCell st0),
     Game.saveState st item).
Proof.
  intros Hwon Hload Hnd. unfold Game.saveState. rewrite Hwon, Hload. simpl.
  by rewrite notesOfArrays_id.
Qed.

Lemma loadState_saveState_witness :
  Game.loadState (Game.saveState Game.exampleGame None) Game.blank
  = (true,
     Game.mkState (Game.grid Game.exampleGame)
       (Game.initialGrid Game.exampleGame) (Game.solution Game.exampleGame)
       (Game.notes Game.exampleGame) (Game.history Game.exampleGame)
       (Game.difficulty Game.exampleGame) (Game.hintsUsed Game.exampleGame)
       (Game.elapsedTime Game.exampleGame) false (Game.isLoading Game.blank)
       (Game.isNotesMode Game.blank) (Game.errorCells Game.blank)
       (Game.selectedCell Game.blank),
     Game.saveState Game.exampleGame None).
Proof.
  apply (loadState_saveState Game.exampleGame Game.blank None);
    [reflexivity|reflexivity|apply exampleGame_notes].
Defined.

(** ** After the win *)

Lemma won_act puzzle solution a st g st' g' :
  wf solution → Game.ok puzzle solution st →
  Game.isGameWon st = true → Game.act a st g = Some (st', g') →
  Game.isGameWon st' = true ∧ Game.grid st' = Game.grid st ∧
  Game.elapsedTime st' = Game.elapsedTime st ∧
  Game.hintsUsed st' = Game.hintsUsed st.
Proof.
  intros Hwfs Hok Hwon. destruct a; simpl.
  - intros [= <- <-]. unfold Game.handleCellClick, Game.selectCell.
    rewrite Hwon. by case_bool_decide.
  - unfold Game.handleGridKeyDown. rewrite Hwon.
    destruct (Game.selectedCell st) as [[row col]|]; by intros [= <- <-].
  - intros [= <- <-]. unfold Game.inputNumber. rewrite Hwon.
    by destruct (Game.selectedCell st) as [[row col]|].
  - by intros [= <- <-].
  - intros [= <- <-]. unfold Game.undo. by rewrite Hwon, orb_true_r.
  - intros [= <- <-]. unfold Game.checkSolution. cbv zeta.
    destruct (negb (length _ =? 0)); [done|].
    destruct (negb (forallb _ _)); [done|].
    cbn [snd]. unfold Game.checkForWin. by destruct (Game.isSolved _ _).
  - by intros [= <- <-].
  - unfold Game.getHint. rewrite Hwon. by intros [= <- <-].
  - intros [= <- <-]. simpl. split_and!; [done| |done..].
    unfold jsonCopy. rewrite (Game.ok_solution _ _ _ Hok). symmetry.
    apply isSolved_equal; [apply Hok|done|by apply Hok].
  - intros [= <- <-]. unfold Game.tick. by rewrite Hwon.
Qed.

Lemma won_run puzzle solution actions st g st' g' :
  wf puzzle → wf solution → full solution → extends puzzle solution →
  Game.ok puzzle solution st →
  Game.isGameWon st = true → Game.run actions st g = Some (st', g') →
  Game.isGameWon st' = true ∧ Game.grid st' = Game.grid st ∧
  Game.elapsedTime st' = Game.elapsedTime st ∧
  Game.hintsUsed st' = Game.hintsUsed st.
Proof.
  intros Hwfp Hwfs Hfull Hext. revert st g.
  induction actions as [|a rest IH]; intros st g Hok Hwon; simpl.
  - by intros [= <- <-].
  - destruct (ok_act puzzle solution Hwfp Hwfs Hfull Hext a st g Hok)
      as (st1 & g1 & Hact & Hok1).
    rewrite Hact. intros Hrun.
    destruct (won_act puzzle solution a st g st1 g1 Hwfs Hok Hwon Hact)
      as (Hwon1 & <- & <- & <-).
    by apply (IH st1 g1).
Qed.

(** X10.  Once a game on a generated puzzle is won, no event takes the win
    back, changes the grid, moves the clock or changes the hint count. *)
Theorem won_game_is_final (diff : string) (g : Rng) (st0 : Game.State) :
  ∃ st,
    Game.newGame diff g st0 = Some st ∧
    ∀ actions1 g1 st1 g2 actions2 st2 g3,
      Game.run actions1 st g1 = Some (st1, g2) →
      Game.isGameWon st1 = true →
      Game.run actions2 st1 g2 = Some (st2, g3) →
      Game.isGameWon st2 = true ∧ Game.grid st2 = Game.grid st1 ∧
      Game.elapsedTime st2 = Game.elapsedTime st1 ∧
      Game.hintsUsed st2 = Game.hintsUsed st1.
Proof.
  destruct (newGame_starts diff g st0)
    as (p & s & Hnew & Hwfp & Hwfs & Hvalid & Hext & _ & _).
  pose proof (validComplete_full s Hvalid) as Hfull.
  exists (Game.handleWorkerMessage p s st0). split; [done|].
  intros actions1 g1 st1 g2 actions2 st2 g3 Hrun1 Hwon Hrun2.
  destruct (run_invariants p s actions1 (Game.handleWorkerMessage p s st0) g1
              Hwfp Hwfs Hfull Hext)
    as (st1' & g2' & Hrun1' & Hok & _).
  { by apply ok_handleWorkerMessage. }
  rewrite Hrun1 in Hrun1'. injection Hrun1' as <- <-.
  by apply (won_run p s actions2 st1 g2 st2 g3).
Qed.

(** ** Pencil marks and digits *)

Lemma notesAt_other notes r c s r' c' :
  (r, c) ≠ (r', c') →
  Game.notesAt (Game.setNotesAt notes r c s) r' c' = Game.notesAt notes r' c'.
Proof.
  intros Hne. unfold Game.notesAt, Game.setNotesAt.
  destruct (decide (r = r')) as [<-|Hr].
  - destruct (decide (r < length notes)) as [Hin|Hout].
    + rewrite list_lookup_total_insert_eq by done.
      rewrite list_lookup_total_insert_ne; [done|]. congruence.
    + by rewrite list_insert_ge by lia.
  - by rewrite list_lookup_total_insert_ne.
Qed.

Lemma total_replicate {A} `{!Inhabited A} n (x : A) i :
  i < n → replicate n x !!! i = x.
Proof.
  intros Hi. apply list_lookup_total_correct. by apply lookup_replicate_2.
Qed.

Lemma notesAt_emptyNotes r c : Game.notesAt Game.emptyNotes r c = [].
Proof.
  unfold Game.notesAt, Game.emptyNotes.
  destruct (decide (r < 9)) as [Hr|Hr].
  - rewrite total_replicate by done.
    destruct (decide (c < 9)) as [Hc|Hc].
    + by rewrite total_replicate.
    + rewrite total_out_of_range; [done|]. rewrite length_replicate. lia.
  - rewrite (total_out_of_range (replicate 9 _)); [done|].
    rewrite length_replicate. lia.
Qed.

Lemma notesAt_all_cleared (notes : list (list (list nat))) r c :
  Game.notesAt (map (map (fun _ => [])) notes) r c = [].
Proof.
  unfold Game.notesAt.
  destruct (decide (r < length notes)) as [Hr|Hr].
  - rewrite (list_lookup_total_fmap (map (fun _ => [])) notes r Hr).
    destruct (decide (c < length (notes !!! r))) as [Hc|Hc].
    + by rewrite (list_lookup_total_fmap (fun _ => []) (notes !!! r) c Hc).
    + rewrite total_out_of_range; [done|]. rewrite length_map. lia.
  - rewrite (total_out_of_range (map _ notes)); [done|]. rewrite length_map. lia.
Qed.

(** Writing [v] to a cell and replacing its pencil marks by [s], where
    [s] is empty if [v] is a digit. *)
Lemma marks_update grid notes row col v s :
  wf grid → row < 9 → col < 9 → (v ≠ 0 → s = []) →
  Game.marksOnlyOnEmpty grid notes →
  Game.marksOnlyOnEmpty (set grid row col v) (Game.setNotesAt notes row col s).
Proof.
  intros Hwf Hrow Hcol Hs Hmarks r c Hr Hc Hfilled.
  destruct (decide ((row, col) = (r, c))) as [[= <- <-]|Hne].
  - rewrite get_set_eq in Hfilled by done. rewrite (Hs Hfilled).
    apply notesAt_cleared.
  - rewrite notesAt_other by done. rewrite get_set_ne in Hfilled by done.
    by apply Hmarks.
Qed.

Lemma tidy_same st st' :
  Game.grid st' = Game.grid st → Game.notes st' = Game.notes st →
  Game.history st' = Game.history st → Game.tidy st → Game.tidy st'.
Proof. unfold Game.tidy. by intros -> -> ->. Qed.

Lemma tidy_checkForWin st : Game.tidy st → Game.tidy (Game.checkForWin st).
Proof. unfold Game.checkForWin. by destruct (Game.isSolved _ _). Qed.

Lemma tidy_pushToHistory st : Game.tidy st → Game.tidy (Game.pushToHistory st).
Proof.
  intros [Hmarks Hhist]. split; [done|]. simpl.
  apply Forall_app. split; [done|]. by apply Forall_singleton.
Qed.

(** After [pushToHistory], a change of one cell and its pencil marks. *)
Lemma tidy_update st row col v s :
  wf (Game.grid st) → row < 9 → col < 9 → (v ≠ 0 → s = []) →
  Game.tidy st →
  Game.tidy
    (Game.setNotes
       (Game.setGrid (Game.pushToHistory st) (set (Game.grid st) row col v))
       (Game.setNotesAt (Game.notes st) row col s)).
Proof.
  intros Hwf Hrow Hcol Hs Htidy.
  destruct (tidy_pushToHistory st Htidy) as [Hmarks Hhist].
  split; [|done]. simpl. by apply marks_update.
Qed.

Section game_marks.
Variables puzzle solution : Board.

Lemma tidy_inputNumber num st :
  Game.ok puzzle solution st → Game.tidy st →
  Game.tidy (Game.inputNumber num st).
Proof.
  intros Hok Htidy. unfold Game.inputNumber.
  destruct (Game.selectedCell st) as [[row col]|] eqn:Hsel; [|done].
  destruct (Game.isGameWon st || _) eqn:Hguard; [done|].
  destruct (Game.ok_selected _ _ _ Hok row col Hsel) as (Hr & Hc & _).
  pose proof (Game.ok_grid _ _ _ Hok) as Hwf. cbv zeta.
  destruct (Game.isNotesMode (Game.pushToHistory st)).
  - destruct (negb (get (Game.grid (Game.pushToHistory st)) row col =? 0))
      eqn:Hfilled.
    + destruct (num =? 0); by apply (tidy_update st row col 0).
    + apply negb_false_iff, Nat.eqb_eq in Hfilled. simpl in Hfilled.
      destruct (num =? 0);
        match goal with
        | |- Game.tidy (Game.setNotes _ (Game.setNotesAt _ _ _ ?s)) =>
            apply (tidy_same
                     (Game.setNotes
                        (Game.setGrid (Game.pushToHistory st)
                           (set (Game.grid st) row col 0))
                        (Game.setNotesAt (Game.notes st) row col s)));
              [simpl; by rewrite set_empty_id|done|done|by apply tidy_update]
        end.
  - apply tidy_checkForWin.
    apply (tidy_update st row col (if num =? 0 then 0 else num) []);
      [exact Hwf|exact Hr|exact Hc|reflexivity|exact Htidy].
Qed.

Lemma tidy_undo st :
  Game.ok puzzle solution st → Game.tidy st → Game.tidy (Game.undo st).
Proof.
  intros Hok Htidy. unfold Game.undo.
  destruct (_ || _); [done|].
  destruct (pop (Game.history st)) as [[lastState rest]|] eqn:Hpop; [|done].
  destruct Htidy as [_ Hhist].
  apply pop_Some in Hpop. pose proof (Game.ok_history _ _ _ Hok) as Hokh.
  rewrite Hpop in Hhist, Hokh.
  apply Forall_app in Hhist as [Hrest Hlast]. rewrite Forall_singleton in Hlast.
  apply Forall_app in Hokh as [_ Hoklast]. rewrite Forall_singleton in Hoklast.
  destruct Hoklast as (_ & _ & Hnd & _).
  split; simpl; [|done]. by rewrite notesOfArrays_id.
Qed.

Lemma tidy_getHint st g :
  Game.ok puzzle solution st → Game.tidy st → Game.tidy (Game.getHint st g).1.
Proof.
  intros Hok Htidy. unfold Game.getHint.
  destruct (_ || _); [done|].
  cbv zeta. destruct (0 <? _) eqn:Hne; [|done]. apply Nat.ltb_lt in Hne.
  destruct (randomIndex _ g) as [i g'] eqn:Hri.
  destruct (_ !!! i) as [row col] eqn:Hcell.
  destruct (hint_cell _ _ _ _ _ _ Hne Hri Hcell) as (Hr & Hc & _).
  cbn [fst]. apply tidy_checkForWin.
  eapply tidy_same;
    [| | |apply (tidy_update st row col (get (Game.solution st) row col) []);
          [apply Hok|done..]];
    done.
Qed.

Lemma tidy_solvePuzzle st : Game.tidy st → Game.tidy (Game.solvePuzzle st).
Proof.
  intros Htidy. destruct (tidy_pushToHistory st Htidy) as [_ Hhist].
  split; [|done]. simpl. intros r c _ _ _. apply notesAt_all_cleared.
Qed.

Lemma tidy_act a st g st' g' :
  Game.ok puzzle solution st → Game.tidy st →
  Game.act a st g = Some (st', g') → Game.tidy st'.
Proof.
  intros Hok Htidy. destruct a; simpl.
  - intros [= <- <-]. unfold Game.handleCellClick, Game.selectCell.
    case_bool_decide; [|done]. by destruct (Game.isGameWon st).
  - unfold Game.handleGridKeyDown, Game.selectCell.
    destruct (Game.selectedCell st) as [[row col]|]; [|by intros [= <- <-]].
    destruct (Game.isGameWon st) eqn:Hwon; [by intros [= <- <-]|].
    destruct k as [a|n| | | |].
    + destruct (Game.keyMap a) as [dr dc].
      destruct (Game.skipGivens _ _ _ _ _ _ _ _) as [[r c]|]; [|done].
      by intros [= <- <-].
    + intros [= <- <-]. by apply tidy_inputNumber.
    + intros [= <- <-]. by apply tidy_inputNumber.
    + by intros [= <- <-].
    + intros [= <- <-]. by apply tidy_undo.
    + by intros [= <- <-].
  - intros [= <- <-]. by apply tidy_inputNumber.
  - by intros [= <- <-].
  - intros [= <- <-]. by apply tidy_undo.
  - intros [= <- <-]. unfold Game.checkSolution. cbv zeta.
    destruct (negb (length _ =? 0)); [done|].
    destruct (negb (forallb _ _)); [done|].
    by apply tidy_checkForWin.
  - by intros [= <- <-].
  - intros [= Hhint]. replace st' with (Game.getHint st g).1; [|by rewrite Hhint].
    by apply tidy_getHint.
  - intros [= <- <-]. by apply tidy_solvePuzzle.
  - intros [= <- <-]. unfold Game.tick. by destruct (negb _).
Qed.

End game_marks.

Lemma tidy_run puzzle solution actions st g st' g' :
  wf puzzle → wf solution → full solution → extends puzzle solution →
  Game.ok puzzle solution st → Game.tidy st →
  Game.run actions st g = Some (st', g') → Game.tidy st'.
Proof.
  intros Hwfp Hwfs Hfull Hext. revert st g.
  induction actions as [|a rest IH]; intros st g Hok Htidy; simpl.
  - by intros [= <- <-].
  - destruct (ok_act puzzle solution Hwfp Hwfs Hfull Hext a st g Hok)
      as (st1 & g1 & Hact & Hok1).
    rewrite Hact. apply IH; [done|].
    by apply (tidy_act puzzle solution a st g st1 g1).
Qed.

(** X11.  In a game on a generated puzzle a cell never carries a digit and
    pencil marks at once. *)
Theorem game_marks_only_on_empty (diff : string) (g : Rng) (st0 : Game.State)
    (actions : list Game.Action) (g1 : Rng) :
  ∃ st st' g2,
    Game.newGame diff g st0 = Some st ∧
    Game.run actions st g1 = Some (st', g2) ∧
    ∀ r c, r < 9 → c < 9 → get (Game.grid st') r c ≠ 0 →
      Game.notesAt (Game.notes st') r c = [].
Proof.
  destruct (newGame_starts diff g st0)
    as (p & s & Hnew & Hwfp & Hwfs & Hvalid & Hext & _ & _).
  pose proof (validComplete_full s Hvalid) as Hfull.
  destruct (run_invariants p s actions (Game.handleWorkerMessage p s st0) g1
              Hwfp Hwfs Hfull Hext)
    as (st' & g2 & Hrun & Hok & _).
  { by apply ok_handleWorkerMessage. }
  exists (Game.handleWorkerMessage p s st0), st', g2.
  split; [done|]. split; [done|].
  apply (tidy_run p s actions (Game.handleWorkerMessage p s st0) g1 st' g2);
    try done.
  - by apply ok_handleWorkerMessage.
  - split; [|by constructor]. simpl. intros r c _ _ _. apply notesAt_emptyNotes.
Qed.
